(** * A shallow embedding of the local-filesystem provider

    The development follows [src/LocalFileSystemProvider.ts] (the current
    TypeScript provider; [src/LocalFileSystemService.ts] is the same code under
    the older option names) and, where it differs, the legacy JavaScript
    service [src/unnamed/part_000].

    JavaScript strings are modelled as [string]: a character is a code unit
    below 256, so the strings of the model are the JavaScript strings over
    U+0000 to U+00FF.  Exceptions are the [Throw] constructor of
    [completion]; the Node [path] module is modelled by its POSIX flavour
    working on ["/"]-separated segments; the external collaborators
    ([fs-extra], [execa], the ignore predicate) are parameters of the
    operations that call them. *)

From Stdlib Require Import String Ascii List ZArith Bool Arith Lia.
Import ListNotations.

Open Scope list_scope.
Open Scope string_scope.

(** ** Errors and completions

    A thrown value is a property bag.  [new Error(msg)] sets only [message];
    Node's filesystem errors also carry [code], and the errors [execa] rejects
    with carry [shortMessage], [exitCode], [stdout] and [stderr].  An absent
    property is [None] (an absent [message] is the empty string: both are
    falsy). *)

Record JsError : Type := mkJsError {
  err_message : string;
  err_code : option string;
  err_shortMessage : option string;
  err_exitCode : option Z;
  err_stdout : option string;
  err_stderr : option string
}.

(** [new Error(msg)]. *)
Definition Error (msg : string) : JsError :=
  mkJsError msg None None None None None.

(** A JavaScript call either returns a value or throws. *)
Inductive completion (A : Type) : Type :=
| Return (a : A)
| Throw (e : JsError).

Arguments Return {A} a.
Arguments Throw {A} e.

Definition returns {A} (c : completion A) : bool :=
  match c with Return _ => true | Throw _ => false end.

Definition raises {A} (c : completion A) : bool := negb (returns c).

(** ** JavaScript string primitives used by the provider *)

Module Js.

(** [s.split(sep)] for a one-character separator. *)
Fixpoint split (sep : ascii) (s : string) : list string :=
  match s with
  | EmptyString => [EmptyString]
  | String c s' =>
      if Ascii.eqb c sep then EmptyString :: split sep s'
      else match split sep s' with
           | seg :: rest => String c seg :: rest
           | [] => [String c EmptyString]
           end
  end.

(** [parts.join(sep)]. *)
Definition join (sep : string) (parts : list string) : string :=
  String.concat sep parts.

(** [s.startsWith(pre)]. *)
Definition startsWith (pre s : string) : bool := String.prefix pre s.

(** [s.substring(n)] for [0 <= n]. *)
Fixpoint substringFrom (n : nat) (s : string) : string :=
  match n, s with
  | O, _ => s
  | S _, EmptyString => EmptyString
  | S n', String _ s' => substringFrom n' s'
  end.

(** [s.includes(needle)]: plain substring search. *)
Fixpoint includes (needle s : string) : bool :=
  String.prefix needle s ||
  match s with
  | EmptyString => false
  | String _ s' => includes needle s'
  end.

(** The white space and line terminators that [trim] strips, among the code
    units below 256: tab, line feed, vertical tab, form feed, carriage
    return, space and the no-break space U+00A0. *)
Definition isWhiteSpace (c : ascii) : bool :=
  let n := nat_of_ascii c in
  (n =? 9)%nat || (n =? 10)%nat || (n =? 11)%nat || (n =? 12)%nat
  || (n =? 13)%nat || (n =? 32)%nat || (n =? 160)%nat.

Fixpoint trimStart (s : string) : string :=
  match s with
  | EmptyString => EmptyString
  | String c s' => if isWhiteSpace c then trimStart s' else s
  end.

Fixpoint trimEnd (s : string) : string :=
  match s with
  | EmptyString => EmptyString
  | String c s' =>
      match trimEnd s' with
      | EmptyString => if isWhiteSpace c then EmptyString else String c EmptyString
      | t => String c t
      end
  end.

(** [s.trim()]. *)
Definition trim (s : string) : string := trimEnd (trimStart s).

(** Truthiness of a string: only the empty string is falsy. *)
Definition truthy (s : string) : bool := negb (s =? "").

End Js.

(** ** Node's [path] module, POSIX flavour

    The functions work on the ["/"]-separated segments of their arguments, as
    Node's [normalizeString] does.  [cwd] stands for [process.cwd()], which
    [resolve] consults only when no argument is absolute. *)

Module Path.

Definition isAbsolute (p : string) : bool :=
  match p with
  | String c _ => Ascii.eqb c "/"
  | EmptyString => false
  end.

(** The segment pass of [normalizeString]: empty and ["."] segments are
    dropped, [".."] removes the segment before it, and is kept at the front
    only when [allowAboveRoot] holds.  [acc] is the output so far, last
    segment first. *)
Fixpoint normalizeSegs (allowAboveRoot : bool) (acc segs : list string)
  : list string :=
  match segs with
  | [] => rev acc
  | s :: rest =>
      if (s =? "") || (s =? ".") then normalizeSegs allowAboveRoot acc rest
      else if s =? ".." then
        match acc with
        | top :: acc' =>
            if top =? ".." then
              normalizeSegs allowAboveRoot
                (if allowAboveRoot then ".." :: acc else acc) rest
            else normalizeSegs allowAboveRoot acc' rest
        | [] =>
            normalizeSegs allowAboveRoot
              (if allowAboveRoot then [".."] else []) rest
        end
      else normalizeSegs allowAboveRoot (s :: acc) rest
  end.

Definition normalizeString (p : string) (allowAboveRoot : bool) : string :=
  Js.join "/" (normalizeSegs allowAboveRoot [] (Js.split "/" p)).

(** The right-to-left loop of [path.resolve]: arguments are prepended until
    one of them is absolute; [process.cwd()] comes last. *)
Fixpoint resolveLoop (cwd : string) (argsRev : list string)
  (resolvedPath : string) : string * bool :=
  match argsRev with
  | [] => (cwd ++ "/" ++ resolvedPath, isAbsolute cwd)
  | p :: rest =>
      if p =? "" then resolveLoop cwd rest resolvedPath
      else if isAbsolute p then (p ++ "/" ++ resolvedPath, true)
      else resolveLoop cwd rest (p ++ "/" ++ resolvedPath)
  end.

Definition resolve (cwd : string) (args : list string) : string :=
  let '(resolvedPath, resolvedAbsolute) := resolveLoop cwd (rev args) "" in
  let n := normalizeString resolvedPath (negb resolvedAbsolute) in
  if resolvedAbsolute then "/" ++ n
  else if n =? "" then "." else n.

Fixpoint endsWithSlash (p : string) : bool :=
  match p with
  | EmptyString => false
  | String c EmptyString => Ascii.eqb c "/"
  | String _ p' => endsWithSlash p'
  end.

Definition normalize (p : string) : string :=
  if p =? "" then "."
  else
    let isAbs := isAbsolute p in
    let trailingSeparator := endsWithSlash p in
    let n := normalizeString p (negb isAbs) in
    if n =? "" then
      if isAbs then "/" else if trailingSeparator then "./" else "."
    else
      let n := if trailingSeparator then n ++ "/" else n in
      if isAbs then "/" ++ n else n.

Definition join (args : list string) : string :=
  match filter (fun a => negb (a =? "")) args with
  | [] => "."
  | parts => normalize (Js.join "/" parts)
  end.

(** The segments of an absolute, resolved path. *)
Definition segments (p : string) : list string :=
  filter (fun s => negb (s =? "")) (Js.split "/" p).

(** Removes the longest common prefix of two segment lists. *)
Fixpoint dropCommon (from to : list string) : list string * list string :=
  match from, to with
  | f :: from', t :: to' =>
      if f =? t then dropCommon from' to' else (from, to)
  | _, _ => (from, to)
  end.

(** [path.relative]: one [".."] for each segment of [from] below the common
    ancestor, then what is left of [to]. *)
Definition relative (cwd from to : string) : string :=
  if from =? to then ""
  else
    let from := resolve cwd [from] in
    let to := resolve cwd [to] in
    if from =? to then ""
    else
      let '(ups, downs) := dropCommon (segments from) (segments to) in
      Js.join "/" (map (fun _ => "..") ups ++ downs)%list.

(** The backward scan of [path.dirname] over the characters after the
    first one, last character first: trailing separators are skipped and
    the scan stops at the separator before the last segment. *)
Fixpoint dirnameScan (revTail : list ascii) (matchedSlash : bool)
  : option (list ascii) :=
  match revTail with
  | [] => None
  | c :: rest =>
      if Ascii.eqb c "/" then
        if matchedSlash then dirnameScan rest true else Some rest
      else dirnameScan rest false
  end.

Definition dirname (p : string) : string :=
  match p with
  | EmptyString => "."
  | String c0 tail =>
      let hasRoot := Ascii.eqb c0 "/" in
      match dirnameScan (rev (list_ascii_of_string tail)) true with
      | None => if hasRoot then "/" else "."
      | Some [] => if hasRoot then "//" else String c0 ""
      | Some restRev => String c0 (string_of_list_ascii (rev restRev))
      end
  end.

End Path.

(** ** The path resolver *)

Section Resolver.

Variable cwd : string.
Variable rootDirectory : string.

(** [relativeOrAbsolutePathToAbsolutePath], LocalFileSystemProvider.ts. *)
Definition relativeOrAbsolutePathToAbsolutePath (p : string)
  : completion string :=
  if Path.isAbsolute p then
    let relativePath := Path.relative cwd rootDirectory p in
    if Js.startsWith ".." relativePath || Path.isAbsolute relativePath then
      Throw (Error ("Path " ++ p ++ " is outside the root directory"))
    else Return p
  else Return (Path.resolve cwd [rootDirectory; p]).

(** [relativeOrAbsolutePathToRelativePath]. *)
Definition relativeOrAbsolutePathToRelativePath (p : string)
  : completion string :=
  match relativeOrAbsolutePathToAbsolutePath p with
  | Return a => Return (Path.relative cwd rootDirectory a)
  | Throw e => Throw e
  end.

End Resolver.

(** The legacy resolver of [src/unnamed/part_000] probes the filesystem.
    [existsSync] is the state of the filesystem it reads, and the second
    component of the result lists the paths it probed, in order. *)

Module Legacy.

Definition isAlnum (c : ascii) : bool :=
  let n := nat_of_ascii c in
  ((48 <=? n) && (n <=? 57) || (65 <=? n) && (n <=? 90)
   || (97 <=? n) && (n <=? 122))%nat.

(** Length of the longest run of [[a-zA-Z0-9]] at the start of [s]. *)
Fixpoint alnumRun (s : string) : nat :=
  match s with
  | String c s' => if isAlnum c then S (alnumRun s') else O
  | EmptyString => O
  end.

(** Length of the greedy match of [[^\/]*\.[a-zA-Z0-9]+] at the start of
    [s]: the class takes as much as it can and gives back until a dot
    followed by an alphanumeric character is found. *)
Fixpoint matchTail (s : string) : option nat :=
  match s with
  | EmptyString => None
  | String c s' =>
      if Ascii.eqb c "/" then None
      else match matchTail s' with
           | Some n => Some (S n)
           | None =>
               if Ascii.eqb c "." then
                 match alnumRun s' with
                 | O => None
                 | S k => Some (S (S k))
                 end
               else None
           end
  end.

(** Length of the match of [[^\/]+\.[a-zA-Z0-9]+] at the start of [s]. *)
Definition matchName (s : string) : option nat :=
  match s with
  | EmptyString => None
  | String c s' =>
      if Ascii.eqb c "/" then None
      else match matchTail s' with
           | Some n => Some (S n)
           | None => None
           end
  end.

(** [p.replace(/\/[^\/]+\.[a-zA-Z0-9]+/)]: the call has no replacement
    argument, so the first match is replaced by the text ["undefined"]. *)
Fixpoint replaceFile (p : string) : string :=
  match p with
  | EmptyString => EmptyString
  | String c p' =>
      if Ascii.eqb c "/" then
        match matchName p' with
        | Some n => "undefined" ++ Js.substringFrom n p'
        | None => String c (replaceFile p')
        end
      else String c (replaceFile p')
  end.

Section LegacyResolver.

Variable existsSync : string -> bool.
Variable cwd : string.
Variable rootDirectory : string.

Definition relativeOrAbsolutePathToAbsolutePath (p : string)
  : completion string * list string :=
  if negb (Path.isAbsolute p) then
    (Return (Path.resolve cwd [rootDirectory; p]), [])
  else
    let resolved := Path.resolve cwd [rootDirectory; p] in
    if existsSync resolved then (Return resolved, [resolved])
    else
      let withoutFile := replaceFile p in
      let resolved' := Path.resolve cwd [rootDirectory; withoutFile] in
      if existsSync resolved' then
        (Return (Path.resolve cwd [rootDirectory; p]), [resolved; resolved'])
      else
        let relativePath := Path.relative cwd rootDirectory p in
        if Js.startsWith ".." relativePath || Path.isAbsolute relativePath
        then (Throw (Error ("Path " ++ p ++ " is outside the root directory")),
              [resolved; resolved'])
        else (Return (Path.resolve cwd [rootDirectory; p]),
              [resolved; resolved']).

End LegacyResolver.

End Legacy.

(** ** JavaScript numbers

    Only the integer-valued numbers and the three special values are
    represented; fractional values are outside the model. *)

Inductive JsNumber : Type :=
| Finite (z : Z)
| NaN
| PosInfinity
| NegInfinity.

Module JsMath.

(** Truthiness of a number: [0] and [NaN] are falsy. *)
Definition truthy (n : JsNumber) : bool :=
  match n with
  | Finite z => negb (z =? 0)%Z
  | NaN => false
  | _ => true
  end.

(** [Math.min(a, b)]. *)
Definition min (a b : JsNumber) : JsNumber :=
  match a, b with
  | NaN, _ | _, NaN => NaN
  | NegInfinity, _ | _, NegInfinity => NegInfinity
  | PosInfinity, x | x, PosInfinity => x
  | Finite x, Finite y => Finite (Z.min x y)
  end.

(** [Math.max(a, b)]. *)
Definition max (a b : JsNumber) : JsNumber :=
  match a, b with
  | NaN, _ | _, NaN => NaN
  | PosInfinity, _ | _, PosInfinity => PosInfinity
  | NegInfinity, x | x, NegInfinity => x
  | Finite x, Finite y => Finite (Z.max x y)
  end.

(** [a * k] for a positive integer constant [k]. *)
Definition scale (a : JsNumber) (k : Z) : JsNumber :=
  match a with
  | Finite x => Finite (x * k)
  | other => other
  end.

(** [a || b] on numbers. *)
Definition orElse (a b : JsNumber) : JsNumber :=
  if truthy a then a else b.

End JsMath.

(** ** The watcher's ignore decision *)

Section Watch.

(** The ignore predicate is caller code and may throw. *)
Variable ignoreFilter : string -> completion bool.

(** The [ignored] callback that [watch] hands to chokidar,
    LocalFileSystemProvider.ts. *)
Definition ignored (file : string) : completion bool :=
  if (file =? ".") || (file =? "./") then Return false
  else
    let file :=
      if Js.startsWith "./" file then Js.substringFrom 2 file else file in
    match ignoreFilter file with
    | Return b => Return b
    | Throw _ => Return true
    end.

(** The same callback in the legacy service: no [try] around the call. *)
Definition legacy_ignored (file : string) : completion bool :=
  if (file =? ".") || (file =? "./") then Return false
  else
    let file :=
      if Js.startsWith "./" file then Js.substringFrom 2 file else file in
    ignoreFilter file.

End Watch.

(** ** Array.prototype.filter with a callback that may throw *)

(** [files.filter((file) => !ignoreFilter(file))]: the callback runs on the
    files in order and the first exception ends the call. *)
Fixpoint filterNotIgnored (ignoreFilter : string -> completion bool)
  (files : list string) : completion (list string) :=
  match files with
  | [] => Return []
  | f :: rest =>
      match ignoreFilter f with
      | Throw e => Throw e
      | Return isIgnored =>
          match filterNotIgnored ignoreFilter rest with
          | Throw e => Throw e
          | Return kept => Return (if isIgnored then kept else f :: kept)
          end
      end
  end.

(** ** Async generators

    A generator that is drained by its consumer: the values it yielded, in
    order, and how it ended.  It returned ([Done]), it threw ([Thrown]), or
    the nesting of calls allowed to it was used up ([Pending], which belongs
    to the model only: see [getDirectoryTree]). *)

Inductive WalkEnd : Type :=
| Done
| Thrown (e : JsError)
| Pending.

Definition Walk : Type := (list string * WalkEnd)%type.

(** [yield s]. *)
Definition yield (s : string) : Walk := ([s], Done).

(** Nothing yielded, control goes on. *)
Definition skip : Walk := ([], Done).

(** [first] and then, when it has returned, [next]. *)
Definition andThen (first next : Walk) : Walk :=
  match snd first with
  | Done => ((fst first ++ fst next)%list, snd next)
  | _ => first
  end.

(** ** The directory walk *)

(** An entry as [fs.readdir(dir, {withFileTypes: true})] reports it:
    [item.name] and [item.isDirectory()]. *)
Record Dirent : Type := mkDirent {
  name : string;
  isDirectory : bool
}.

(** Calling the predicate of the options; calling an absent one is a
    [TypeError]. *)
Definition callFilter (ignoreFilter : option (string -> completion bool))
  (p : string) : completion bool :=
  match ignoreFilter with
  | Some ig => ig p
  | None => Throw (Error "ignoreFilter is not a function")
  end.

Section Traversal.

Variable cwd : string.
Variable rootDirectory : string.

(** [fs.readdir(absoluteDir, {withFileTypes: true})]: the entries of the
    directory in the order they are reported, or the error the call rejects
    with (a missing or unreadable directory, a path that is no directory). *)
Variable fs_readdir : string -> completion (list Dirent).

Section Loop.

Variable ignoreFilter : option (string -> completion bool).
Variable recursive : bool.
(** The recursive call [this.getDirectoryTree(relPath, {ignoreFilter})]. *)
Variable descend : string -> Walk.
Variable absoluteDir : string.

(** One iteration of the loop of [getDirectoryTree]. *)
Definition walkItem (item : Dirent) : Walk :=
  let itemPath := Path.join [absoluteDir; name item] in
  let relPath := Path.relative cwd rootDirectory itemPath in
  match callFilter ignoreFilter relPath with
  | Throw e => ([], Thrown e)
  | Return true => skip
  | Return false =>
      if isDirectory item then
        andThen (yield (relPath ++ "/"))
                (if recursive then descend relPath else skip)
      else yield relPath
  end.

(** [for (const item of items) { ... }]. *)
Fixpoint walkItems (items : list Dirent) : Walk :=
  match items with
  | [] => skip
  | item :: rest => andThen (walkItem item) (walkItems rest)
  end.

End Loop.

(** [getDirectoryTree(dir, {ignoreFilter, recursive})], drained.  The
    generator calls itself for every sub-directory, each call reading its
    directory with [fs.readdir]; [depth] bounds the nesting of these calls,
    and a walk that would need more ends [Pending].  The recursive call
    passes only the predicate, so [recursive] is [true] from the second level
    on. *)
Fixpoint getDirectoryTree (depth : nat) (dir : string)
  (ignoreFilter : option (string -> completion bool)) (recursive : bool)
  : Walk :=
  match depth with
  | O => ([], Pending)
  | S depth' =>
      let absoluteDir := Path.resolve cwd [rootDirectory; dir] in
      match fs_readdir absoluteDir with
      | Throw e => ([], Thrown e)
      | Return items =>
          walkItems ignoreFilter recursive
            (fun relPath => getDirectoryTree depth' relPath ignoreFilter true)
            absoluteDir items
      end
  end.

(** *** grep *)

Record GrepResult : Type := mkGrepResult {
  file : string;
  line : Z;
  matchText : string;
  content : option string
}.

Record IncludeContent : Type := {
  linesBefore : option Z;
  linesAfter : option Z
}.

Record GrepOptions : Type := {
  ignoreFilter : option (string -> completion bool);
  includeContent : option IncludeContent
}.

(** [lines.slice(start, end)], negative indices counting from the end. *)
Definition slice {A : Type} (l : list A) (start finish : Z) : list A :=
  let len := Z.of_nat (length l) in
  let k := if (start <? 0)%Z then Z.max (len + start) 0 else Z.min start len in
  let final :=
    if (finish <? 0)%Z then Z.max (len + finish) 0 else Z.min finish len in
  firstn (Z.to_nat (final - k)) (skipn (Z.to_nat k) l).

(** The body of the loop over the lines of one file. *)
Definition grepLine (searchString : string) (before after : Z)
  (relFile : string) (lines : list string) (lineNum : nat)
  : list GrepResult :=
  let line := nth lineNum lines "" in
  if Js.includes searchString line then
    let startLine := Z.max 0 (Z.of_nat lineNum - before) in
    let endLine :=
      Z.min (Z.of_nat (length lines) - 1) (Z.of_nat lineNum + after) in
    let contextContent :=
      if (before >? 0)%Z || (after >? 0)%Z then
        Some (Js.join (String "010" "") (slice lines startLine (endLine + 1)))
      else None in
    [mkGrepResult relFile (Z.of_nat lineNum + 1) line contextContent]
  else [].

(** The results pushed for a file whose content was read. *)
Definition grepContent (searchString : string) (before after : Z)
  (relFile : string) (text : string) : list GrepResult :=
  let lines := Js.split "010" text in
  flat_map (grepLine searchString before after relFile lines)
           (seq 0 (length lines)).

(** [this.getFile(path)]: reading may fail. *)
Variable getFile : string -> completion string.

(** The body of the loop over the files to search; a failed read and an
    empty file contribute nothing. *)
Definition grepFile (searchString : string) (before after : Z)
  (absFile : string) : list GrepResult :=
  let relFile := Path.relative cwd rootDirectory absFile in
  match getFile relFile with
  | Throw _ => []
  | Return text =>
      if negb (Js.truthy text) then []
      else grepContent searchString before after relFile text
  end.

Definition optZ (o : option Z) : Z :=
  match o with Some z => z | None => 0%Z end.

(** [ignoreFilter ? allFiles.filter((file) => !ignoreFilter(file)) :
    allFiles]. *)
Definition filesToSearch (ig : option (string -> completion bool))
  (allFiles : list string) : completion (list string) :=
  match ig with
  | Some ig => filterNotIgnored ig allFiles
  | None => Return allFiles
  end.

(** [linesBefore] and [linesAfter] after the defaults of the two
    destructurings. *)
Definition linesBeforeOf (options : GrepOptions) : Z :=
  match includeContent options with
  | Some ic => optZ (linesBefore ic)
  | None => 0%Z
  end.

Definition linesAfterOf (options : GrepOptions) : Z :=
  match includeContent options with
  | Some ic => optZ (linesAfter ic)
  | None => 0%Z
  end.

(** [grep(searchString, options)].  The loop that drains the walk and the
    second filter stand outside the [try]: an error of the walk or of the
    predicate is an error of [grep].  [None] when the walk is [Pending]. *)
Definition grep (depth : nat) (searchString : string) (options : GrepOptions)
  : option (completion (list GrepResult)) :=
  if negb (Js.truthy searchString) then
    Some (Throw (Error "Search string is required"))
  else
    let walk := getDirectoryTree depth "" (ignoreFilter options) true in
    match snd walk with
    | Pending => None
    | Thrown e => Some (Throw e)
    | Done =>
        let allFiles :=
          map (fun file => Path.join [rootDirectory; file]) (fst walk) in
        match filesToSearch (ignoreFilter options) allFiles with
        | Throw e => Some (Throw e)
        | Return files =>
            Some (Return (flat_map
                            (grepFile searchString (linesBeforeOf options)
                               (linesAfterOf options))
                            files))
        end
    end.

End Traversal.

(** ** The operations that touch the filesystem

    [World] is the state of the filesystem and of the processes the provider
    starts; an operation takes a world and gives a completion and the world
    after it. *)

Section Provider.

Variable World : Type.

Definition IO (A : Type) : Type := World -> completion A * World.

Definition ret {A : Type} (a : A) : IO A := fun w => (Return a, w).

Definition throw {A : Type} (e : JsError) : IO A := fun w => (Throw e, w).

Definition lift {A : Type} (c : completion A) : IO A := fun w => (c, w).

Definition bind {A B : Type} (m : IO A) (k : A -> IO B) : IO B :=
  fun w =>
    match m w with
    | (Return a, w') => k a w'
    | (Throw e, w') => (Throw e, w')
    end.

(** [try { m } catch (e) { h e }]. *)
Definition tryCatch {A : Type} (m : IO A) (h : JsError -> IO A) : IO A :=
  fun w =>
    match m w with
    | (Return a, w') => (Return a, w')
    | (Throw e, w') => h e w'
    end.

Notation "x <- m ;; k" := (bind m (fun x => k))
  (at level 61, m at next level, right associativity).
Notation "m ;;; k" := (bind m (fun _ => k))
  (at level 61, right associativity).

Variable cwd : string.
Variable rootDirectory : string.

#[local] Abbreviation resolvePath :=
  (relativeOrAbsolutePathToAbsolutePath cwd rootDirectory).

(** *** The calls into [fs-extra] *)

Record Stats : Type := {
  st_isFile : bool;
  st_isDirectory : bool;
  st_isSymbolicLink : bool;
  st_size : Z;
  st_birthtime : Z;
  st_mtime : Z;
  st_atime : Z
}.

(** [fs.pathExists] resolves to a boolean whatever its argument. *)
Variable fs_pathExists : string -> World -> bool.
Variable fs_stat : string -> IO Stats.
Variable fs_ensureDir : string -> IO unit.
Variable fs_writeFile : string -> string -> IO unit.
Variable fs_appendFile : string -> string -> IO unit.
Variable fs_remove : string -> IO unit.
Variable fs_readFileSync : string -> option string -> IO string.
Variable fs_rename : string -> string -> IO unit.
Variable fs_mkdir : string -> IO unit.
Variable fs_copy : string -> string -> bool -> IO unit.
Variable fs_chmod : string -> Z -> IO unit.

Definition pathExists (p : string) : IO bool :=
  fun w => (Return (fs_pathExists p w), w).

(** *** File operations *)

Definition writeFile (filePath content : string) : IO bool :=
  absolutePath <- lift (resolvePath filePath) ;;
  fs_ensureDir (Path.dirname absolutePath) ;;;
  fs_writeFile absolutePath content ;;;
  ret true.

Definition appendFile (filePath finalContent : string) : IO bool :=
  absolutePath <- lift (resolvePath filePath) ;;
  fs_ensureDir (Path.dirname absolutePath) ;;;
  fs_appendFile absolutePath finalContent ;;;
  ret true.

Definition deleteFile (filePath : string) : IO bool :=
  absolutePath <- lift (resolvePath filePath) ;;
  found <- pathExists absolutePath ;;
  if negb found then throw (Error ("File " ++ filePath ++ " does not exist"))
  else
    stats <- fs_stat absolutePath ;;
    if negb (st_isFile stats) then
      throw (Error ("Path " ++ filePath ++ " is not a file"))
    else
      fs_remove absolutePath ;;;
      ret true.

Definition readFile (filePath : string) (encoding : option string)
  : IO string :=
  absolutePath <- lift (resolvePath filePath) ;;
  found <- pathExists absolutePath ;;
  if negb found then throw (Error ("File " ++ filePath ++ " does not exist"))
  else
    stats <- fs_stat absolutePath ;;
    if negb (st_isFile stats) then
      throw (Error ("Path " ++ filePath ++ " is not a file"))
    else fs_readFileSync absolutePath encoding.

Definition rename (oldPath newPath : string) : IO bool :=
  absoluteOldPath <- lift (resolvePath oldPath) ;;
  absoluteNewPath <- lift (resolvePath newPath) ;;
  foundOld <- pathExists absoluteOldPath ;;
  if negb foundOld then
    throw (Error ("Path " ++ oldPath ++ " does not exist"))
  else
    foundNew <- pathExists absoluteNewPath ;;
    if foundNew then throw (Error ("Path " ++ newPath ++ " already exists"))
    else
      fs_ensureDir (Path.dirname absoluteNewPath) ;;;
      fs_rename absoluteOldPath absoluteNewPath ;;;
      ret true.

(** [exists]: the resolver runs inside the [try]. *)
Definition exists_ (filePath : string) : IO bool :=
  tryCatch
    (absolutePath <- lift (resolvePath filePath) ;;
     pathExists absolutePath)
    (fun _error => ret false).

Record StatLike : Type := {
  sl_path : string;
  sl_absolutePath : string;
  sl_isFile : bool;
  sl_isDirectory : bool;
  sl_isSymbolicLink : bool;
  sl_size : Z;
  sl_created : Z;
  sl_modified : Z;
  sl_accessed : Z
}.

Definition stat (filePath : string) : IO StatLike :=
  absolutePath <- lift (resolvePath filePath) ;;
  found <- pathExists absolutePath ;;
  if negb found then throw (Error ("Path " ++ filePath ++ " does not exist"))
  else
    stats <- fs_stat absolutePath ;;
    ret {| sl_path := filePath;
           sl_absolutePath := absolutePath;
           sl_isFile := st_isFile stats;
           sl_isDirectory := st_isDirectory stats;
           sl_isSymbolicLink := st_isSymbolicLink stats;
           sl_size := st_size stats;
           sl_created := st_birthtime stats;
           sl_modified := st_mtime stats;
           sl_accessed := st_atime stats |}.

Definition isENOENT (e : JsError) : bool :=
  match err_code e with
  | Some c => c =? "ENOENT"
  | None => false
  end.

Definition createDirectory (dirPath : string) (recursive : bool) : IO bool :=
  absolutePath <- lift (resolvePath dirPath) ;;
  found <- pathExists absolutePath ;;
  if found then
    stats <- fs_stat absolutePath ;;
    if st_isDirectory stats then ret true
    else throw (Error ("Path " ++ dirPath ++ " exists but is not a directory"))
  else
    (if recursive then fs_ensureDir absolutePath
     else
       tryCatch (fs_mkdir absolutePath)
         (fun error =>
            if isENOENT error then
              throw (Error ("Parent directory for " ++ dirPath
                            ++ " does not exist"))
            else throw error)) ;;;
    ret true.

Definition copy (source destination : string) (overwrite : bool) : IO bool :=
  absoluteSource <- lift (resolvePath source) ;;
  absoluteDestination <- lift (resolvePath destination) ;;
  foundSource <- pathExists absoluteSource ;;
  if negb foundSource then
    throw (Error ("Source path " ++ source ++ " does not exist"))
  else
    foundDestination <-
      (if overwrite then ret false else pathExists absoluteDestination) ;;
    if negb overwrite && foundDestination then
      throw (Error ("Destination path " ++ destination ++ " already exists"))
    else
      fs_copy absoluteSource absoluteDestination overwrite ;;;
      ret true.

Definition chmod (filePath : string) (mode : Z) : IO bool :=
  absolutePath <- lift (resolvePath filePath) ;;
  found <- pathExists absolutePath ;;
  if negb found then throw (Error ("Path " ++ filePath ++ " does not exist"))
  else
    tryCatch (fs_chmod absolutePath mode ;;; ret true)
      (fun error =>
         throw (Error ("Failed to change permissions for " ++ filePath
                       ++ ": " ++ err_message error))).

(** *** watch *)

Record WatchConfig : Type := {
  wc_paths : string;
  wc_ignored : string -> completion bool;
  wc_cwd : string;
  wc_stabilityThreshold : Z;
  wc_pollInterval : Z
}.

(** [watch]: what is handed to [chokidar.watch] once the directory is known
    to exist. *)
Definition watch (dir : string) (ig : string -> completion bool)
  (pollInterval stabilityThreshold : option Z) : IO WatchConfig :=
  let absolutePath := Path.resolve cwd [rootDirectory; dir] in
  found <- pathExists absolutePath ;;
  if negb found then
    throw (Error ("Directory " ++ dir ++ " does not exist"))
  else
    ret {| wc_paths := "./";
           wc_ignored := ignored ig;
           wc_cwd := Path.relative cwd cwd rootDirectory;
           wc_stabilityThreshold :=
             match stabilityThreshold with Some t => t | None => 2000%Z end;
           wc_pollInterval :=
             match pollInterval with Some t => t | None => 1000%Z end |}.

(** *** executeCommand *)

(** The [command] argument: a string, an argument array, or nothing
    ([undefined] or [null]). *)
Inductive Command : Type :=
| CmdAbsent
| CmdString (s : string)
| CmdArray (argv : list string).

(** Truthiness of [command]: an array is truthy even when empty. *)
Definition commandTruthy (c : Command) : bool :=
  match c with
  | CmdAbsent => false
  | CmdString s => Js.truthy s
  | CmdArray _ => true
  end.

Record ExecuteCommandOptions : Type := {
  timeoutSeconds : option JsNumber;
  env : option (list (string * string));
  workingDirectory : option string
}.

Record ExecOpts : Type := {
  eo_cwd : string;
  eo_env : list (string * string);
  eo_timeout : JsNumber;
  eo_maxBuffer : Z;
  eo_shell : bool
}.

Record ExecaResult : Type := {
  res_stdout : option string;
  res_stderr : option string;
  res_exitCode : Z
}.

Record ExecuteCommandResult : Type := {
  ok : bool;
  exitCode : Z;
  stdout : string;
  stderr : string;
  error : option string
}.

(** [process.env]. *)
Variable processEnv : list (string * string).

(** [execa(file, args?, options)]: resolves with the result of the process
    or rejects. *)
Variable execa : string -> option (list string) -> ExecOpts -> IO ExecaResult.

(** [Math.max(5, Math.min(timeoutSeconds || 60, 600))], with the default
    [60] of the destructuring for an absent option. *)
Definition effectiveTimeout (opt : option JsNumber) : JsNumber :=
  let timeoutSeconds :=
    match opt with Some t => t | None => Finite 60 end in
  JsMath.max (Finite 5)
    (JsMath.min (JsMath.orElse timeoutSeconds (Finite 60)) (Finite 600)).

(** The [execOpts] object before the command form is looked at. *)
Definition execOptsFor (options : ExecuteCommandOptions) (dir : string)
  : ExecOpts :=
  {| eo_cwd := dir;
     eo_env :=
       (match env options with Some e => e | None => [] end
        ++ processEnv)%list;
     eo_timeout := JsMath.scale (effectiveTimeout (timeoutSeconds options)) 1000;
     eo_maxBuffer := 1024 * 1024;
     eo_shell := false |}.

Definition withShell (o : ExecOpts) : ExecOpts :=
  {| eo_cwd := eo_cwd o; eo_env := eo_env o; eo_timeout := eo_timeout o;
     eo_maxBuffer := eo_maxBuffer o; eo_shell := true |}.

(** [s?.trim?.() ?? ""]. *)
Definition trimmed (o : option string) : string :=
  match o with Some s => Js.trim s | None => "" end.

(** [a || b] where [a] may be absent. *)
Definition orString (a : option string) (b : string) : string :=
  match a with
  | Some s => if Js.truthy s then s else b
  | None => b
  end.

(** The call to [execa] for each form of [command]; the empty array throws
    before any call. *)
Definition spawn (command : Command) (execOpts : ExecOpts)
  : IO ExecaResult :=
  match command with
  | CmdArray [] => throw (Error "Command array cannot be empty")
  | CmdArray (cmd :: args) => execa cmd (Some args) execOpts
  | CmdString s => execa s None (withShell execOpts)
  | CmdAbsent => throw (Error "Command is required")
  end.

(** The statements inside the [try] of [executeCommand]. *)
Definition runCommand (command : Command) (execOpts : ExecOpts)
  : IO ExecuteCommandResult :=
  result <- spawn command execOpts ;;
  ret {| ok := true;
         exitCode := res_exitCode result;
         stdout := trimmed (res_stdout result);
         stderr := trimmed (res_stderr result);
         error := None |}.

Definition failureExitCode (err : JsError) : Z :=
  match err_exitCode err with Some n => n | None => 1%Z end.

Definition executeCommand (command : Command)
  (options : ExecuteCommandOptions) : IO ExecuteCommandResult :=
  let dir :=
    match workingDirectory options with Some d => d | None => "./" end in
  if negb (commandTruthy command) then throw (Error "Command is required")
  else
    dirAbs <- lift (resolvePath dir) ;;
    let execOpts := execOptsFor options dirAbs in
    tryCatch (runCommand command execOpts)
      (fun err =>
         ret {| ok := false;
                exitCode := failureExitCode err;
                stdout := trimmed (err_stdout err);
                stderr := trimmed (err_stderr err);
                error :=
                  Some (orString (err_shortMessage err)
                          (orString (Some (err_message err))
                             "Unknown error")) |}).

(** [executeCommand] of LocalFileSystemService.ts, whose [catch] has no last
    alternative for the message (the legacy service has the same [catch]). *)
Definition service_executeCommand (command : Command)
  (options : ExecuteCommandOptions) : IO ExecuteCommandResult :=
  let dir :=
    match workingDirectory options with Some d => d | None => "./" end in
  if negb (commandTruthy command) then throw (Error "Command is required")
  else
    dirAbs <- lift (resolvePath dir) ;;
    let execOpts := execOptsFor options dirAbs in
    tryCatch (runCommand command execOpts)
      (fun err =>
         ret {| ok := false;
                exitCode := failureExitCode err;
                stdout := trimmed (err_stdout err);
                stderr := trimmed (err_stderr err);
                error :=
                  Some (orString (err_shortMessage err) (err_message err)) |}).

End Provider.

(** ** glob *)

Section Glob.

Variable World : Type.
Variable rootDirectory : string.

Record GlobSyncOptions : Type := {
  gs_cwd : string;
  gs_dot : bool;
  gs_nodir : bool;
  gs_absolute : bool
}.

(** [glob.sync(pattern, options)]: reads the filesystem and returns the
    matches, or throws. *)
Variable globSync :
  string -> GlobSyncOptions -> World -> completion (list string).

(** [glob(pattern, {ignoreFilter})]: the pattern expansion and the filter
    stand in one [try], whose [catch] wraps the error. *)
Definition glob (pattern : string) (ignoreFilter : string -> completion bool)
  : IO World (list string) :=
  fun w =>
    let attempt :=
      match globSync pattern
              {| gs_cwd := rootDirectory; gs_dot := true; gs_nodir := true;
                 gs_absolute := false |} w with
      | Throw e => Throw e
      | Return files => filterNotIgnored ignoreFilter files
      end in
    match attempt with
    | Return kept => (Return kept, w)
    | Throw error =>
        (Throw (Error ("Glob operation failed: " ++ err_message error)), w)
    end.

End Glob.

(** ** Vocabulary of the statements *)

(** Lexical containment: every segment of the resolved root is a leading
    segment of the resolved path. *)
Fixpoint isPrefixOf (xs ys : list string) : bool :=
  match xs, ys with
  | [], _ => true
  | x :: xs', y :: ys' => (x =? y) && isPrefixOf xs' ys'
  | _ :: _, [] => false
  end.

Definition isDescendant (cwd root p : string) : bool :=
  isPrefixOf (Path.segments (Path.resolve cwd [root]))
             (Path.segments (Path.resolve cwd [p])).

(** [s] does not contain the character [sep]. *)
Fixpoint noSep (sep : ascii) (s : string) : bool :=
  match s with
  | EmptyString => true
  | String c s' => negb (Ascii.eqb c sep) && noSep sep s'
  end.

(** The name of a directory entry: not empty, no separator, and neither
    ["."] nor [".."]. *)
Definition isName (n : string) : bool :=
  noSep "/" n && negb (n =? "") && negb (n =? ".") && negb (n =? "..").

(** The absolute path with the segments [segs]. *)
Definition absPath (segs : list string) : string := "/" ++ Js.join "/" segs.

(** The root-relative path with the segments [segs]. *)
Definition relPath (segs : list string) : string := Js.join "/" segs.

(** [readdir] reports names. *)
Definition namesOnly (readdir : string -> completion (list Dirent)) : Prop :=
  forall dir items,
    readdir dir = Return items ->
    Forall (fun item => isName (name item) = true) items.

(** *** Trees: what a finite part of the filesystem holds

    The statements about a whole walk describe what lies below the walked
    directory by a tree.  A node is a file (anything that is not a
    directory), a directory with its entries in the order [readdir] reports
    them, or a directory whose [readdir] rejects with an error. *)

#[local] Set Warnings "-register-all".

Inductive Tree : Type :=
| FileEnt (n : string)
| DirEnt (n : string) (items : list Tree)
| LockedDir (n : string) (error : JsError).

Definition entName (t : Tree) : string :=
  match t with FileEnt n => n | DirEnt n _ => n | LockedDir n _ => n end.

(** Whether a node is a directory. *)
Definition isDirEnt (t : Tree) : bool :=
  match t with
  | FileEnt _ => false
  | DirEnt _ _ => true
  | LockedDir _ _ => true
  end.

(** The entry [readdir] reports for a node. *)
Definition entryOf (t : Tree) : Dirent :=
  {| name := entName t; isDirectory := isDirEnt t |}.

(** Every node of the tree has a name. *)
Fixpoint wfEnt (t : Tree) : bool :=
  match t with
  | FileEnt n => isName n
  | DirEnt n items => isName n && forallb wfEnt items
  | LockedDir n _ => isName n
  end.

(** The nesting of [readdir] calls below a node: none for a file, one for a
    directory that cannot be listed, one more than its entries need for a
    directory. *)
Fixpoint height (t : Tree) : nat :=
  match t with
  | FileEnt _ => 0
  | LockedDir _ _ => 1
  | DirEnt _ items => S (list_max (map height items))
  end.

(** [readdir] answers as the node [t] of the directory [segs] says, for the
    node and everything below it. *)
Fixpoint listedBelow (readdir : string -> completion (list Dirent))
  (segs : list string) (t : Tree) : Prop :=
  match t with
  | FileEnt _ => True
  | LockedDir n e => readdir (absPath (segs ++ [n])) = Throw e
  | DirEnt n items =>
      readdir (absPath (segs ++ [n])) = Return (map entryOf items)
      /\ (fix all (l : list Tree) : Prop :=
            match l with
            | [] => True
            | c :: l' => listedBelow readdir (segs ++ [n]) c /\ all l'
            end) items
  end.

(** The directory [segs] holds the nodes [items], and [readdir] answers
    accordingly there and below. *)
Definition listed (readdir : string -> completion (list Dirent))
  (segs : list string) (items : list Tree) : Prop :=
  readdir (absPath segs) = Return (map entryOf items)
  /\ Forall (listedBelow readdir segs) items.

(** The trailing separator that marks a yielded directory. *)
Definition dirMark (isDir : bool) : string := if isDir then "/" else "".

(** Every character of [s] is white space. *)
Fixpoint allWhiteSpace (s : string) : bool :=
  match s with
  | EmptyString => true
  | String c s' => Js.isWhiteSpace c && allWhiteSpace s'
  end.

(** [s] does not start with white space. *)
Definition startsClean (s : string) : bool :=
  match s with
  | EmptyString => true
  | String c _ => negb (Js.isWhiteSpace c)
  end.

(** [s] does not end with white space. *)
Fixpoint endsClean (s : string) : bool :=
  match s with
  | EmptyString => true
  | String c EmptyString => negb (Js.isWhiteSpace c)
  | String _ s' => endsClean s'
  end.

(** The clamp of [x] into [[lo, hi]]. *)
Definition clamp (lo hi x : Z) : Z := Z.max lo (Z.min x hi).

(** What a decision that treats an exception as "ignored" makes of a call
    of the predicate. *)
Definition failSafe (c : completion bool) : completion bool :=
  match c with
  | Return b => Return b
  | Throw _ => Return true
  end.

(** [executeCommand] called without options. *)
Definition noOptions : ExecuteCommandOptions :=
  {| timeoutSeconds := None; env := None; workingDirectory := None |}.

(** The working directory [executeCommand] resolves. *)
Definition workingDirectoryOf (options : ExecuteCommandOptions) : string :=
  match workingDirectory options with Some d => d | None => "./" end.

(** A command that passes the first check and is not the empty array. *)
Definition nonEmptyCommand (c : Command) : bool :=
  match c with
  | CmdAbsent => false
  | CmdString s => Js.truthy s
  | CmdArray [] => false
  | CmdArray (_ :: _) => true
  end.

(** A process runner for the examples: the world is the list of the commands
    started so far; ["false"] exits with code 1, anything else prints a
    greeting. *)
Definition demoExeca (file : string) (args : option (list string))
  (opts : ExecOpts) : IO (list string) ExecaResult :=
  fun started =>
    if file =? "false" then
      (Throw (mkJsError "Command failed with exit code 1: false" None
                (Some "Command failed with exit code 1: false") (Some 1%Z)
                (Some "") (Some "")),
       file :: started)
    else
      (Return {| res_stdout := Some ("hello" ++ String "010" "");
                 res_stderr := Some "";
                 res_exitCode := 0 |},
       file :: started).

(** The test [Path.segments] filters with. *)
Definition nonEmpty (s : string) : bool := negb (s =? "").

(** A segment list as [split] produces it from paths made of names: names
    and empty pieces. *)
Definition cleanSeg (s : string) : Prop := s = "" \/ isName s = true.

(** [t] is [s] without the white space at its two ends. *)
Definition isTrimOf (s t : string) : Prop :=
  exists pre post,
    s = pre ++ t ++ post
    /\ allWhiteSpace pre = true /\ allWhiteSpace post = true
    /\ startsClean t = true /\ endsClean t = true.

(** [t] is the trimmed form of a captured output, the empty string when
    nothing was captured. *)
Definition isTrimmedOutput (captured : option string) (t : string) : Prop :=
  match captured with
  | Some s => isTrimOf s t
  | None => t = ""
  end.


(** What the walk may yield below the directory [ds]: the path of an entry
    reached through the names [ns], marked when it is a directory, such that
    the predicate returns [false] on every path on the way. *)
Definition yieldedBelow (ig : string -> completion bool) (ds : list string)
  (e : string) : Prop :=
  exists (ns : list string) (isDir : bool),
    ns <> []
    /\ Forall (fun n => isName n = true) ns
    /\ e = relPath (ds ++ ns) ++ dirMark isDir
    /\ forall k, (1 <= k <= length ns)%nat ->
                 ig (relPath (ds ++ firstn k ns)) = Return false.

(** [reaches items ns t]: following the names [ns] from a directory that
    holds the nodes [items] leads to the node [t]. *)
Inductive reaches : list Tree -> list string -> Tree -> Prop :=
| reaches_here (items : list Tree) (t : Tree) :
    In t items -> reaches items [entName t] t
| reaches_below (items : list Tree) (n : string) (children : list Tree)
    (ns : list string) (t : Tree) :
    In (DirEnt n children) items -> reaches children ns t ->
    reaches items (n :: ns) t.

(** The predicate returns [false] on every path from below [ds] down to
    [ds ++ ns]. *)
Definition unignoredBelow (ig : string -> completion bool)
  (ds ns : list string) : Prop :=
  forall k, (1 <= k <= length ns)%nat ->
            ig (relPath (ds ++ firstn k ns)) = Return false.

(** The predicate never throws. *)
Definition totalFilter (ig : string -> completion bool) : Prop :=
  forall p, exists b, ig p = Return b.

(** [w] is a walk of the nodes [items] of the directory [ds] that has ended:
    what it yielded are entries reached without passing a path the predicate
    does not return [false] on; when it returned it yielded all of them and
    met no directory it could not list; when it threw, the error is that of
    such a directory, whose path is the last thing yielded. *)
Definition walksTree (ig : string -> completion bool) (ds : list string)
  (items : list Tree) (w : Walk) : Prop :=
  (forall e, In e (fst w) ->
     exists ns t,
       reaches items ns t /\ unignoredBelow ig ds ns
       /\ e = relPath (ds ++ ns) ++ dirMark (isDirEnt t))
  /\ (snd w = Done ->
      forall ns t,
        reaches items ns t -> unignoredBelow ig ds ns ->
        In (relPath (ds ++ ns) ++ dirMark (isDirEnt t)) (fst w)
        /\ forall n e, t <> LockedDir n e)
  /\ (forall e, snd w = Thrown e ->
        exists pre ns n,
          reaches items ns (LockedDir n e) /\ unignoredBelow ig ds ns
          /\ fst w = app pre [(relPath (ds ++ ns) ++ "/")%string])
  /\ snd w <> Pending.

(** What the walk yields for an entry of the directory [ds]. *)
Definition yieldOf (ds : list string) (item : Dirent) : string :=
  relPath (ds ++ [name item]) ++ dirMark (isDirectory item).

(** ** A small project, for the examples

    [readdirOf rs rootItems] is the [readdir] of a filesystem that holds the
    nodes [rootItems] in the directory [rs] and nothing else. *)

Fixpoint dropPrefix (xs ys : list string) : option (list string) :=
  match xs, ys with
  | [], _ => Some ys
  | x :: xs', y :: ys' => if x =? y then dropPrefix xs' ys' else None
  | _ :: _, [] => None
  end.

Definition scandirError (code text path : string) : JsError :=
  mkJsError (code ++ ": " ++ text ++ ", scandir '" ++ path ++ "'")
    (Some code) None None None None.

Fixpoint listingOf (path : string) (items : list Tree) (segs : list string)
  : completion (list Dirent) :=
  match segs with
  | [] => Return (map entryOf items)
  | s :: segs' =>
      (fix find (l : list Tree) : completion (list Dirent) :=
         match l with
         | [] => Throw (scandirError "ENOENT" "no such file or directory" path)
         | t :: l' =>
             if entName t =? s then
               match t with
               | DirEnt _ children => listingOf path children segs'
               | LockedDir _ e => Throw e
               | FileEnt _ =>
                   Throw (scandirError "ENOTDIR" "not a directory" path)
               end
             else find l'
         end) items
  end.

Definition readdirOf (rs : list string) (rootItems : list Tree)
  (dir : string) : completion (list Dirent) :=
  match dropPrefix rs (Path.segments dir) with
  | Some segs => listingOf dir rootItems segs
  | None => Throw (scandirError "ENOENT" "no such file or directory" dir)
  end.

Definition demoRoot : list string := ["home"; "user"; "project"].

Definition demoTree : list Tree :=
  [DirEnt "node_modules" [FileEnt "x.js"];
   DirEnt "src" [FileEnt "a.ts"; FileEnt "b.log"];
   FileEnt "README.md"].

Definition demoReaddir : string -> completion (list Dirent) :=
  readdirOf demoRoot demoTree.

(** The same project with a directory that may not be read. *)
Definition demoLockedTree : list Tree :=
  [DirEnt "src" [FileEnt "a.ts"];
   LockedDir "vault"
     (scandirError "EACCES" "permission denied" "/home/user/project/vault");
   FileEnt "README.md"].

Definition demoIgnores (p : string) : bool :=
  (p =? "node_modules") || (p =? "src/b.log").

Definition demoIgnore (p : string) : completion bool :=
  Return (demoIgnores p).

Definition demoText : string :=
  Js.join (String "010" "") ["alpha"; "beta alpha"; "gamma"; "delta"].

Definition demoGetFile (p : string) : completion string :=
  if p =? "src/a.ts" then Return demoText
  else Throw (Error ("File " ++ p ++ " does not exist")).

(** ** A small filesystem, for the examples

    The world is the list of the paths that exist; every path is a regular
    file, directories are created on demand, no parent is ever found by
    [mkdir] and nobody may change permissions. *)

Definition demoStats : Stats :=
  {| st_isFile := true; st_isDirectory := false; st_isSymbolicLink := false;
     st_size := 0; st_birthtime := 0; st_mtime := 0; st_atime := 0 |}.

Definition demoPathExists (p : string) (w : list string) : bool :=
  existsb (String.eqb p) w.

Definition demoStat (p : string) : IO (list string) Stats :=
  fun w => (Return demoStats, w).

Definition demoEnsureDir (p : string) : IO (list string) unit :=
  fun w => (Return tt, w).

Definition demoWriteFile (p text : string) : IO (list string) unit :=
  fun w => (Return tt, p :: w).

Definition demoRemove (p : string) : IO (list string) unit :=
  fun w => (Return tt, filter (fun q => negb (q =? p)) w).

Definition demoReadFileSync (p : string) (encoding : option string)
  : IO (list string) string :=
  fun w => (Return demoText, w).

Definition demoRename (a b : string) : IO (list string) unit :=
  fun w => (Return tt, map (fun q => if q =? a then b else q) w).

Definition demoMkdir (p : string) : IO (list string) unit :=
  fun w =>
    (Throw (mkJsError ("ENOENT: no such file or directory, mkdir '" ++ p
                       ++ "'") (Some "ENOENT") None None None None), w).

Definition demoCopy (a b : string) (overwrite : bool)
  : IO (list string) unit :=
  fun w => (Return tt, b :: w).

Definition demoChmod (p : string) (mode : Z) : IO (list string) unit :=
  fun w => (Throw (Error "EPERM: operation not permitted"), w).

(** A piece of a relative path as callers write it: empty, ["."], or a
    name. *)
Definition plainSeg (s : string) : Prop :=
  s = "" \/ s = "." \/ isName s = true.

(** The pieces [normalizeString] keeps. *)
Definition keptSeg (s : string) : bool :=
  negb (s =? "") && negb (s =? ".").

(** * Properties *)

(** ** Strings *)

Lemma append_nil_r (s : string) : s ++ "" = s.
Proof. induction s as [|c s IH]; simpl; [reflexivity | now rewrite IH]. Qed.

Lemma append_assoc (a b c : string) : (a ++ b) ++ c = a ++ (b ++ c).
Proof. induction a as [|x a IH]; simpl; [reflexivity | now rewrite IH]. Qed.

Lemma truthy_nonempty (s : string) : Js.truthy s = true <-> s <> "".
Proof.
  unfold Js.truthy. rewrite negb_true_iff. apply String.eqb_neq.
Qed.

(** *** [trim] *)

Lemma trimStart_spec (s : string) :
  exists pre, s = pre ++ Js.trimStart s /\ allWhiteSpace pre = true
              /\ startsClean (Js.trimStart s) = true.
Proof.
  induction s as [|c s IH]; simpl.
  - exists "". auto.
  - destruct (Js.isWhiteSpace c) eqn:Hc.
    + destruct IH as (pre & Hs & Hpre & Hclean).
      exists (String c pre). simpl. rewrite Hc, Hpre. repeat split; auto.
      now rewrite <- Hs.
    + exists "". simpl. rewrite Hc. auto.
Qed.

Lemma trimEnd_spec (s : string) :
  exists post, s = Js.trimEnd s ++ post /\ allWhiteSpace post = true
               /\ endsClean (Js.trimEnd s) = true.
Proof.
  induction s as [|c s IH]; simpl.
  - exists "". auto.
  - destruct IH as (post & Hs & Hpost & Hclean).
    destruct (Js.trimEnd s) as [|d t] eqn:Ht.
    + destruct (Js.isWhiteSpace c) eqn:Hc.
      * exists (String c s). simpl. rewrite Hc. simpl in Hs. subst post.
        auto.
      * exists post. simpl. rewrite Hc. simpl in Hs. subst post. auto.
    + exists post. repeat split; auto.
      change (String c (String d t) ++ post) with (String c (String d t ++ post)).
      now rewrite <- Hs.
Qed.

Lemma trimEnd_startsClean (s : string) :
  startsClean s = true -> startsClean (Js.trimEnd s) = true.
Proof.
  destruct s as [|c s]; simpl; auto.
  intros Hc. apply negb_true_iff in Hc.
  destruct (Js.trimEnd s); simpl; rewrite Hc; simpl; now rewrite ?Hc.
Qed.

(** [trim] removes a run of white space at each end and nothing else, and
    what is left neither starts nor ends with white space. *)
Lemma trim_spec (s : string) :
  exists pre post,
    s = pre ++ Js.trim s ++ post
    /\ allWhiteSpace pre = true /\ allWhiteSpace post = true
    /\ startsClean (Js.trim s) = true /\ endsClean (Js.trim s) = true.
Proof.
  unfold Js.trim.
  destruct (trimStart_spec s) as (pre & Hs & Hpre & Hclean).
  destruct (trimEnd_spec (Js.trimStart s)) as (post & Ht & Hpost & Hend).
  exists pre, post. repeat split; auto.
  - now rewrite <- Ht.
  - now apply trimEnd_startsClean.
Qed.

(** ** The timeout of [executeCommand] *)

(** C3, as stated, fails at [timeoutSeconds: 0]: the value is falsy, so
    [timeoutSeconds || 60] replaces it by the default and the effective
    timeout is 60 seconds, where the clamp of 0 into [[5, 600]] is 5. *)
Lemma C3_zero_timeout_is_sixty :
  effectiveTimeout (Some (Finite 0)) = Finite 60
  /\ clamp 5 600 0 = 5%Z
  /\ effectiveTimeout (Some (Finite 0)) <> Finite (clamp 5 600 0).
Proof. repeat split. discriminate. Qed.

(** C3, amended: the timeout handed to [execa] is a thousand times the
    effective timeout in seconds, which is the clamp of [timeoutSeconds] into
    [[5, 600]] for every non-zero integer value, and the default 60 when the
    option is absent, zero or [NaN]; it always lies in [[5, 600]], and 10000
    gives 600. *)
Theorem C3_effective_timeout :
  (forall processEnv options dir,
      eo_timeout (execOptsFor processEnv options dir)
      = JsMath.scale (effectiveTimeout (timeoutSeconds options)) 1000)
  /\ (forall t : Z,
         effectiveTimeout (Some (Finite t))
         = Finite (if (t =? 0)%Z then 60 else clamp 5 600 t))
  /\ effectiveTimeout None = Finite 60
  /\ effectiveTimeout (Some NaN) = Finite 60
  /\ effectiveTimeout (Some PosInfinity) = Finite 600
  /\ effectiveTimeout (Some NegInfinity) = Finite 5
  /\ effectiveTimeout (Some (Finite 10000)) = Finite 600
  /\ (forall o, exists z, effectiveTimeout o = Finite z /\ (5 <= z <= 600)%Z).
Proof.
  repeat split; try reflexivity.
  - intros t. unfold effectiveTimeout, JsMath.orElse, JsMath.truthy, clamp.
    destruct (t =? 0)%Z eqn:Ht; simpl; [reflexivity | ].
    f_equal.
  - intros [[z| | | ]|]; unfold effectiveTimeout, JsMath.orElse, JsMath.truthy.
    + destruct (z =? 0)%Z; simpl; eexists; split; try reflexivity; lia.
    + simpl. eexists; split; [reflexivity | lia].
    + simpl. eexists; split; [reflexivity | lia].
    + simpl. eexists; split; [reflexivity | lia].
    + simpl. eexists; split; [reflexivity | lia].
Qed.

(** ** The watcher's ignore decision *)

(** C9 for the legacy service of [src/unnamed/part_000]: its callback calls
    the predicate outside any [try], so an exception of the predicate reaches
    the caller instead of being read as "ignored". *)
Lemma C9_legacy_predicate_exception_propagates :
  legacy_ignored (fun _ => Throw (Error "boom")) "a.txt"
  = Throw (Error "boom")
  /\ legacy_ignored (fun _ => Throw (Error "boom")) "a.txt" <> Return true.
Proof. split; [reflexivity | discriminate]. Qed.

Lemma startsWith_dot_slash (rest : string) :
  Js.startsWith "./" ("./" ++ rest) = true.
Proof. destruct rest; reflexivity. Qed.

Lemma dot_slash_not_root (rest : string) :
  rest <> "" ->
  (("./" ++ rest =? ".") || ("./" ++ rest =? "./")) = false.
Proof.
  intros Hrest. destruct rest as [|c r]; [congruence | reflexivity].
Qed.

Lemma not_root_marker (file : string) :
  file <> "." -> Js.startsWith "./" file = false ->
  ((file =? ".") || (file =? "./")) = false.
Proof.
  intros Hdot Hpre. apply orb_false_iff. split.
  - now apply String.eqb_neq.
  - apply String.eqb_neq. intros ->. discriminate.
Qed.

(** C9, amended: in every copy of the service the root markers ["."] and
    ["./"] are never ignored and a leading ["./"] is stripped before the
    predicate is asked; the TypeScript provider and service read an exception
    of the predicate as "ignored", so their decision never throws, while the
    legacy service returns or throws whatever the predicate does. *)
Theorem C9_watch_ignore_decision (ig : string -> completion bool) :
  (ignored ig "." = Return false /\ ignored ig "./" = Return false)
  /\ (forall rest, rest <> "" ->
        ignored ig ("./" ++ rest) = failSafe (ig rest))
  /\ (forall file, file <> "." -> Js.startsWith "./" file = false ->
        ignored ig file = failSafe (ig file))
  /\ (forall file, exists b, ignored ig file = Return b)
  /\ (legacy_ignored ig "." = Return false
      /\ legacy_ignored ig "./" = Return false)
  /\ (forall rest, rest <> "" -> legacy_ignored ig ("./" ++ rest) = ig rest)
  /\ (forall file, file <> "." -> Js.startsWith "./" file = false ->
        legacy_ignored ig file = ig file).
Proof.
  repeat split.
  - intros rest Hrest. unfold ignored.
    rewrite (dot_slash_not_root rest Hrest), startsWith_dot_slash.
    reflexivity.
  - intros file Hdot Hpre. unfold ignored.
    rewrite (not_root_marker file Hdot Hpre), Hpre. reflexivity.
  - intros file. unfold ignored.
    destruct ((file =? ".") || (file =? "./")); [now exists false | ].
    destruct (ig _) as [b|e]; [now exists b | now exists true].
  - intros rest Hrest. unfold legacy_ignored.
    rewrite (dot_slash_not_root rest Hrest), startsWith_dot_slash.
    reflexivity.
  - intros file Hdot Hpre. unfold legacy_ignored.
    rewrite (not_root_marker file Hdot Hpre), Hpre. reflexivity.
Qed.

(** ** Operations on a filesystem *)

Section ProviderProperties.

Variable World : Type.
Variable cwd : string.
Variable rootDirectory : string.
Variable fs_pathExists : string -> World -> bool.
Variable fs_stat : string -> IO World Stats.
Variable fs_ensureDir : string -> IO World unit.
Variable fs_writeFile : string -> string -> IO World unit.
Variable fs_appendFile : string -> string -> IO World unit.
Variable fs_remove : string -> IO World unit.
Variable fs_readFileSync : string -> option string -> IO World string.
Variable fs_rename : string -> string -> IO World unit.
Variable fs_mkdir : string -> IO World unit.
Variable fs_copy : string -> string -> bool -> IO World unit.
Variable fs_chmod : string -> Z -> IO World unit.
Variable processEnv : list (string * string).
Variable execa :
  string -> option (list string) -> ExecOpts -> IO World ExecaResult.

#[local] Abbreviation resolvePath :=
  (relativeOrAbsolutePathToAbsolutePath cwd rootDirectory).

Lemma bind_lift_throw {A B : Type} (c : completion A) (k : A -> IO World B)
  (e : JsError) (w : World) :
  c = Throw e -> bind World (lift World c) k w = (Throw e, w).
Proof using Type. intros ->. reflexivity. Qed.

Lemma bind_lift_return {A B : Type} (c : completion A) (k : A -> IO World B)
  (a : A) (w : World) :
  c = Return a -> bind World (lift World c) k w = k a w.
Proof using Type. intros ->. reflexivity. Qed.

(** [exists] returns in every world, with the world unchanged. *)
Lemma exists_total (filePath : string) (w : World) :
  exists_ World cwd rootDirectory fs_pathExists filePath w
  = (Return match resolvePath filePath with
            | Return absolutePath => fs_pathExists absolutePath w
            | Throw _ => false
            end, w).
Proof using Type.
  unfold exists_, tryCatch, bind, lift, pathExists, ret.
  destruct (resolvePath filePath); reflexivity.
Qed.

(** C6: [exists] never raises.  In every world and for every path string it
    returns a boolean and leaves the world as it was; the boolean is [false]
    when the resolver throws and the answer of [fs.pathExists] for the
    resolved path otherwise.  Every other operation that resolves a path
    (writeFile, appendFile, deleteFile, readFile, rename, stat,
    createDirectory, copy, chmod, and executeCommand for its working
    directory) raises the resolver's error instead. *)
Theorem C6_exists_never_raises (filePath : string) (w : World) :
  (exists b : bool,
      exists_ World cwd rootDirectory fs_pathExists filePath w = (Return b, w)
      /\ (forall e, resolvePath filePath = Throw e -> b = false)
      /\ (forall a, resolvePath filePath = Return a -> b = fs_pathExists a w))
  /\ (forall e, resolvePath filePath = Throw e ->
      (forall text,
          writeFile World cwd rootDirectory fs_ensureDir fs_writeFile
            filePath text w = (Throw e, w))
      /\ (forall text,
          appendFile World cwd rootDirectory fs_ensureDir fs_appendFile
            filePath text w = (Throw e, w))
      /\ deleteFile World cwd rootDirectory fs_pathExists fs_stat fs_remove
           filePath w = (Throw e, w)
      /\ (forall encoding,
          readFile World cwd rootDirectory fs_pathExists fs_stat
            fs_readFileSync filePath encoding w = (Throw e, w))
      /\ (forall newPath,
          rename World cwd rootDirectory fs_pathExists fs_ensureDir fs_rename
            filePath newPath w = (Throw e, w))
      /\ (forall oldPath a, resolvePath oldPath = Return a ->
          rename World cwd rootDirectory fs_pathExists fs_ensureDir fs_rename
            oldPath filePath w = (Throw e, w))
      /\ stat World cwd rootDirectory fs_pathExists fs_stat filePath w
         = (Throw e, w)
      /\ (forall recursive,
          createDirectory World cwd rootDirectory fs_pathExists fs_stat
            fs_ensureDir fs_mkdir filePath recursive w = (Throw e, w))
      /\ (forall destination overwrite,
          copy World cwd rootDirectory fs_pathExists fs_copy
            filePath destination overwrite w = (Throw e, w))
      /\ (forall source a overwrite, resolvePath source = Return a ->
          copy World cwd rootDirectory fs_pathExists fs_copy
            source filePath overwrite w = (Throw e, w))
      /\ (forall mode,
          chmod World cwd rootDirectory fs_pathExists fs_chmod filePath mode w
          = (Throw e, w))
      /\ (forall command timeout environment,
          commandTruthy command = true ->
          executeCommand World cwd rootDirectory processEnv execa command
            {| timeoutSeconds := timeout; env := environment;
               workingDirectory := Some filePath |} w
          = (Throw e, w))).
Proof using Type.
  split.
  - eexists. split; [apply exists_total | ].
    split; [intros e -> | intros a ->]; reflexivity.
  - intros e He.
    repeat split; intros;
      unfold writeFile, appendFile, deleteFile, readFile, rename, stat,
        createDirectory, copy, chmod, executeCommand;
      try (now apply bind_lift_throw).
    + erewrite bind_lift_return by eassumption. now apply bind_lift_throw.
    + erewrite bind_lift_return by eassumption. now apply bind_lift_throw.
    + rewrite H. simpl. now apply bind_lift_throw.
Qed.

(** *** executeCommand *)

Lemma orString_nonempty (a : option string) (b : string) :
  b <> "" -> orString a b <> "".
Proof using Type.
  intros Hb. unfold orString. destruct a as [s|]; auto.
  destruct (Js.truthy s) eqn:Hs; auto. now apply truthy_nonempty.
Qed.

Lemma diagnostic_nonempty (err : JsError) :
  orString (err_shortMessage err)
    (orString (Some (err_message err)) "Unknown error") <> "".
Proof using Type. apply orString_nonempty, orString_nonempty. discriminate. Qed.

Lemma trimmed_clean (o : option string) :
  startsClean (trimmed o) = true /\ endsClean (trimmed o) = true.
Proof using Type.
  destruct o as [s|]; simpl; [ | auto].
  destruct (trim_spec s) as (pre & post & _ & _ & _ & H1 & H2). auto.
Qed.

(** C4, amended: [executeCommand] raises, rather than returning a result,
    exactly when the command is empty or absent, with the error "Command is
    required", or the working directory fails path resolution, with the
    error of the resolver; the statement leaves the empty argument array
    out. *)
Theorem C4_executeCommand_raises
  (command : Command) (options : ExecuteCommandOptions) (w : World)
  (Hcommand : command <> CmdArray []) :
  (raises (fst (executeCommand World cwd rootDirectory processEnv execa
                  command options w)) = true
   <-> (commandTruthy command = false
        \/ raises (resolvePath (workingDirectoryOf options)) = true))
  /\ (commandTruthy command = false ->
      executeCommand World cwd rootDirectory processEnv execa command
        options w = (Throw (Error "Command is required"), w))
  /\ (forall e,
        commandTruthy command = true ->
        resolvePath (workingDirectoryOf options) = Throw e ->
        executeCommand World cwd rootDirectory processEnv execa command
          options w = (Throw e, w)).
Proof using Type.
  unfold executeCommand. fold (workingDirectoryOf options).
  destruct (commandTruthy command) eqn:Hc; simpl.
  - destruct (resolvePath _) as [d|e] eqn:Hd.
    + erewrite bind_lift_return by reflexivity.
      unfold tryCatch, runCommand, bind, spawn, ret.
      repeat split; try discriminate.
      * destruct command as [|s|[|c args]];
          [discriminate | | now contradiction Hcommand | ];
          simpl; destruct (execa _ _ _ w) as [[r|err] w']; discriminate.
      * intros [H|H]; discriminate.
    + erewrite bind_lift_throw by reflexivity. simpl.
      repeat split; auto; try discriminate.
      intros e' _ H. now injection H as ->.
  - unfold throw. simpl. repeat split; auto; discriminate.
Qed.

Lemma trimmed_spec (o : option string) : isTrimmedOutput o (trimmed o).
Proof using Type.
  destruct o as [s|]; simpl; [ | reflexivity].
  destruct (trim_spec s) as (pre & post & H). now exists pre, post.
Qed.

(** The message of a failure result: the first of [shortMessage], [message]
    and "Unknown error" that is not empty. *)
Lemma diagnostic_cases (err : JsError) :
  let message :=
    orString (err_shortMessage err)
      (orString (Some (err_message err)) "Unknown error") in
  (forall s, err_shortMessage err = Some s -> s <> "" -> message = s)
  /\ ((err_shortMessage err = None \/ err_shortMessage err = Some "") ->
      (err_message err <> "" -> message = err_message err)
      /\ (err_message err = "" -> message = "Unknown error")).
Proof using Type.
  cbv zeta. unfold orString. split.
  - intros s -> Hs. apply truthy_nonempty in Hs. now rewrite Hs.
  - intros Hshort.
    assert (Hrest : match err_shortMessage err with
                    | Some s => if Js.truthy s then s
                                else (if Js.truthy (err_message err)
                                      then err_message err
                                      else "Unknown error")
                    | None => if Js.truthy (err_message err)
                              then err_message err else "Unknown error"
                    end
                    = if Js.truthy (err_message err) then err_message err
                      else "Unknown error").
    { destruct Hshort as [-> | ->]; reflexivity. }
    rewrite Hrest. split.
    + intros Hm. apply truthy_nonempty in Hm. now rewrite Hm.
    + intros ->. reflexivity.
Qed.

(** C5: for a non-empty command and a working directory that resolves,
    [executeCommand] never raises.  When [execa] resolves, the result has
    [ok = true], the exit code of the process, no error, and as [stdout] and
    [stderr] the captured output without the white space at its two ends
    (the empty string when nothing was captured).  When [execa] rejects
    (non-zero exit, timeout, spawn error), the result has [ok = false], the
    exit code of the error when it carries one and 1 otherwise, the output
    captured so far trimmed in the same way, and a message that is not empty:
    the [shortMessage] of the error, else its [message], else "Unknown
    error".  The legacy service (and LocalFileSystemService.ts) returns the
    same result in both cases, with the same message whenever the error
    carries a [shortMessage] or a [message], as the errors of [execa] do. *)
Theorem C5_executeCommand_never_raises_on_failure
  (command : Command) (options : ExecuteCommandOptions) (dir : string)
  (w : World)
  (Hcommand : nonEmptyCommand command = true)
  (Hdir : resolvePath (workingDirectoryOf options) = Return dir) :
  match spawn World execa command (execOptsFor processEnv options dir) w with
  | (Return result, w') =>
      exists r,
        executeCommand World cwd rootDirectory processEnv execa command
          options w = (Return r, w')
        /\ ok r = true
        /\ exitCode r = res_exitCode result
        /\ isTrimmedOutput (res_stdout result) (stdout r)
        /\ isTrimmedOutput (res_stderr result) (stderr r)
        /\ error r = None
        /\ service_executeCommand World cwd rootDirectory processEnv execa
             command options w = (Return r, w')
  | (Throw err, w') =>
      exists r message,
        executeCommand World cwd rootDirectory processEnv execa command
          options w = (Return r, w')
        /\ ok r = false
        /\ exitCode r = match err_exitCode err with
                        | Some n => n
                        | None => 1%Z
                        end
        /\ isTrimmedOutput (err_stdout err) (stdout r)
        /\ isTrimmedOutput (err_stderr err) (stderr r)
        /\ error r = Some message /\ message <> ""
        /\ (forall s, err_shortMessage err = Some s -> s <> "" ->
            message = s)
        /\ ((err_shortMessage err = None \/ err_shortMessage err = Some "") ->
            (err_message err <> "" -> message = err_message err)
            /\ (err_message err = "" -> message = "Unknown error"))
        /\ exists r',
             service_executeCommand World cwd rootDirectory processEnv execa
               command options w = (Return r', w')
             /\ ok r' = false /\ exitCode r' = exitCode r
             /\ stdout r' = stdout r /\ stderr r' = stderr r
             /\ (((exists s, err_shortMessage err = Some s /\ s <> "")
                  \/ err_message err <> "") ->
                 error r' = Some message)
  end.
Proof using Type.
  assert (Htruthy : commandTruthy command = true).
  { destruct command as [|s|[|c args]]; simpl in *; congruence. }
  unfold executeCommand, service_executeCommand.
  fold (workingDirectoryOf options).
  rewrite Htruthy. simpl.
  erewrite !bind_lift_return by exact Hdir.
  unfold tryCatch, runCommand, bind, ret.
  destruct (spawn World execa command _ w) as [[result|err] w'].
  - eexists. split; [reflexivity | ]. simpl.
    split; [reflexivity | ]. split; [reflexivity | ].
    split; [apply trimmed_spec | ]. split; [apply trimmed_spec | ].
    split; reflexivity.
  - eexists. eexists. split; [reflexivity | ]. simpl.
    split; [reflexivity | ]. split; [reflexivity | ].
    split; [apply trimmed_spec | ]. split; [apply trimmed_spec | ].
    split; [reflexivity | ]. split; [apply diagnostic_nonempty | ].
    destruct (diagnostic_cases err) as [Hshort Hrest].
    split; [exact Hshort | ]. split; [exact Hrest | ].
    eexists. split; [reflexivity | ]. simpl.
    split; [reflexivity | ]. split; [reflexivity | ].
    split; [reflexivity | ]. split; [reflexivity | ].
    intros Hcarries. f_equal. unfold orString.
    destruct (err_shortMessage err) as [s|] eqn:Hs.
    + destruct (Js.truthy s) eqn:Hts; [reflexivity | ].
      destruct Hcarries as [(s' & Hs' & Hne) | Hm].
      * injection Hs' as <-. apply truthy_nonempty in Hne. congruence.
      * apply truthy_nonempty in Hm. now rewrite Hm.
    + destruct Hcarries as [(s' & Hs' & _) | Hm]; [discriminate | ].
      apply truthy_nonempty in Hm. now rewrite Hm.
Qed.

(** The same for [executeCommand] of LocalFileSystemService.ts and of the
    legacy service, whose message has no last alternative: it is not empty
    when the rejection carries a [shortMessage] or a [message], as the errors
    of [execa] do. *)
Lemma service_executeCommand_failure
  (command : Command) (options : ExecuteCommandOptions) (dir : string)
  (w w' : World) (err : JsError)
  (Hcommand : nonEmptyCommand command = true)
  (Hdir : resolvePath (workingDirectoryOf options) = Return dir)
  (Hspawn : spawn World execa command (execOptsFor processEnv options dir) w
            = (Throw err, w'))
  (Hmessage : orString (err_shortMessage err) (err_message err) <> "") :
  exists r message,
    service_executeCommand World cwd rootDirectory processEnv execa command
      options w = (Return r, w')
    /\ ok r = false
    /\ exitCode r = failureExitCode err
    /\ error r = Some message /\ message <> "".
Proof using Type.
  assert (Htruthy : commandTruthy command = true).
  { destruct command as [|s|[|c args]]; simpl in *; congruence. }
  unfold service_executeCommand. fold (workingDirectoryOf options).
  rewrite Htruthy. simpl.
  erewrite bind_lift_return by exact Hdir.
  unfold tryCatch, runCommand, bind, ret. rewrite Hspawn.
  eexists. eexists. split; [reflexivity | ]. simpl. auto.
Qed.

End ProviderProperties.

Example executeCommand_echo :
  executeCommand (list string) "/w" "/home/user/project" [] demoExeca
    (CmdString "echo hello") noOptions []
  = (Return {| ok := true; exitCode := 0; stdout := "hello"; stderr := "";
               error := None |}, ["echo hello"]).
Proof. reflexivity. Qed.

(** C4, as stated, fails in both directions: an empty argument array passes
    the first check (an array is truthy), and the error thrown for it inside
    the [try] is caught and turned into a failure result; and a non-empty
    command whose working directory lies outside the root raises. *)
Lemma C4_empty_array_returns_bad_cwd_raises :
  executeCommand (list string) "/w" "/home/user/project" [] demoExeca
    (CmdArray []) noOptions []
  = (Return {| ok := false; exitCode := 1; stdout := ""; stderr := "";
               error := Some "Command array cannot be empty" |}, [])
  /\ executeCommand (list string) "/w" "/home/user/project" [] demoExeca
       (CmdString "ls")
       {| timeoutSeconds := None; env := None;
          workingDirectory := Some "/etc" |} []
     = (Throw (Error "Path /etc is outside the root directory"), []).
Proof. split; reflexivity. Qed.

(** The statement of C4 at the command ["ls"] run in [/etc], outside the
    root. *)
Lemma C4_executeCommand_raises_witness :
  CmdString "ls" <> CmdArray []
  /\ (raises (fst (executeCommand (list string) "/w" "/home/user/project" []
                     demoExeca (CmdString "ls")
                     {| timeoutSeconds := None; env := None;
                        workingDirectory := Some "/etc" |} [])) = true
      <-> (commandTruthy (CmdString "ls") = false
           \/ raises (relativeOrAbsolutePathToAbsolutePath "/w"
                        "/home/user/project"
                        (workingDirectoryOf
                           {| timeoutSeconds := None; env := None;
                              workingDirectory := Some "/etc" |})) = true)).
Proof.
  split; [discriminate | ].
  apply (C4_executeCommand_raises (list string) "/w" "/home/user/project" []
           demoExeca (CmdString "ls")).
  discriminate.
Defined.

(** The statement of C5 at the command ["false"], which exits with code 1. *)
Lemma C5_executeCommand_never_raises_on_failure_witness :
  nonEmptyCommand (CmdString "false") = true
  /\ relativeOrAbsolutePathToAbsolutePath "/w" "/home/user/project"
       (workingDirectoryOf noOptions) = Return "/home/user/project"
  /\ exists r message,
      executeCommand (list string) "/w" "/home/user/project" [] demoExeca
        (CmdString "false") noOptions [] = (Return r, ["false"])
      /\ ok r = false /\ exitCode r = 1%Z
      /\ error r = Some message /\ message <> "".
Proof.
  split; [reflexivity | split; [reflexivity | ]].
  destruct (C5_executeCommand_never_raises_on_failure (list string) "/w"
              "/home/user/project" [] demoExeca (CmdString "false") noOptions
              "/home/user/project" [] eq_refl eq_refl)
    as (r & message & H1 & H2 & H3 & _ & _ & H4 & H5 & _).
  exists r, message. repeat split; assumption.
Defined.

(** ** The path resolver *)

Example resolve_normalizes :
  Path.resolve "/w" ["/home/user/project"; "a/./b/../c.txt"]
  = "/home/user/project/a/c.txt".
Proof. reflexivity. Qed.

Example relative_up : Path.relative "/w" "/home/user/project" "/home/user/x" = "../x".
Proof. reflexivity. Qed.

Example relative_down :
  Path.relative "/w" "/home/user/project" "/home/user/project/a/b" = "a/b".
Proof. reflexivity. Qed.

Example join_keeps_trailing_separator : Path.join ["/r/a"; "b/"] = "/r/a/b/".
Proof. reflexivity. Qed.

Example dirname_of_file : Path.dirname "/r/a/b.txt" = "/r/a".
Proof. reflexivity. Qed.

Example resolver_rejects_outside :
  relativeOrAbsolutePathToAbsolutePath "/w" "/home/user/project" "/etc/passwd"
  = Throw (Error "Path /etc/passwd is outside the root directory").
Proof. reflexivity. Qed.

Example resolver_accepts_inside :
  relativeOrAbsolutePathToAbsolutePath "/w" "/home/user/project"
    "/home/user/project/src/a.ts"
  = Return "/home/user/project/src/a.ts".
Proof. reflexivity. Qed.

(** C1 fails on the code at a relative path with a parent segment: the
    relative branch resolves against the root without the containment check
    of the absolute branch, so ["../x"] under [/home/user/project] resolves to
    [/home/user/x], which is not below the root. *)
Theorem C1_relative_parent_escapes_root :
  relativeOrAbsolutePathToAbsolutePath "/w" "/home/user/project" "../x"
  = Return "/home/user/x"
  /\ isDescendant "/w" "/home/user/project" "/home/user/x" = false
  /\ relativeOrAbsolutePathToAbsolutePath "/w" "/home/user/project"
       "/home/user/x"
     = Throw (Error "Path /home/user/x is outside the root directory").
Proof. repeat split. Qed.

Lemma prefix_dotdot_join (rest : list string) :
  Js.startsWith ".." (Js.join "/" (".." :: rest)) = true.
Proof. destruct rest as [|x rest]; [reflexivity | ]. simpl. now destruct x. Qed.

Lemma dropCommon_no_ups (from to downs : list string) :
  Path.dropCommon from to = ([], downs) -> isPrefixOf from to = true.
Proof.
  revert to. induction from as [|f from IH]; intros [|t to] H; simpl in *;
    try reflexivity; try discriminate.
  destruct (f =? t) eqn:Hft; [simpl; now apply IH | discriminate].
Qed.

Lemma isPrefixOf_refl (xs : list string) : isPrefixOf xs xs = true.
Proof.
  induction xs as [|x xs IH]; simpl; [reflexivity | ].
  now rewrite String.eqb_refl.
Qed.

(** The part of C1 that holds: an absolute path the resolver accepts is
    returned as it is and lies below the root. *)
Lemma absolute_accepted_is_descendant (cwd root p q : string) :
  Path.isAbsolute p = true ->
  relativeOrAbsolutePathToAbsolutePath cwd root p = Return q ->
  q = p /\ isDescendant cwd root p = true.
Proof.
  intros Habs. unfold relativeOrAbsolutePathToAbsolutePath. rewrite Habs.
  destruct (Js.startsWith ".." (Path.relative cwd root p)
            || Path.isAbsolute (Path.relative cwd root p)) eqn:Hout;
    [discriminate | ].
  intros H. injection H as <-. split; [reflexivity | ].
  apply orb_false_iff in Hout. destruct Hout as [Hup _].
  unfold isDescendant. unfold Path.relative in Hup.
  destruct (root =? p) eqn:Hrp.
  { apply String.eqb_eq in Hrp. subst p. apply isPrefixOf_refl. }
  destruct (Path.resolve cwd [root] =? Path.resolve cwd [p]) eqn:Hres.
  { apply String.eqb_eq in Hres. rewrite Hres. apply isPrefixOf_refl. }
  destruct (Path.dropCommon _ _) as [ups downs] eqn:Hdrop.
  destruct ups as [|u ups].
  - eapply dropCommon_no_ups; eassumption.
  - simpl map in Hup. change ((".." :: map (fun _ => "..") ups) ++ downs)%list
      with (".." :: (map (fun _ : string => "..") ups ++ downs))%list in Hup.
    rewrite prefix_dotdot_join in Hup. discriminate.
Qed.

(** *** Dependence on the state outside the arguments *)

Lemma resolveLoop_absolute_last (cwd1 cwd2 root : string) (args : list string)
  (acc : string) :
  Path.isAbsolute root = true ->
  Path.resolveLoop cwd1 (args ++ [root])%list acc
  = Path.resolveLoop cwd2 (args ++ [root])%list acc.
Proof.
  intros Habs. revert acc.
  induction args as [|a args IH]; intros acc; simpl.
  - destruct (root =? "") eqn:Hr.
    + apply String.eqb_eq in Hr. subst root. discriminate.
    + now rewrite Habs.
  - destruct (a =? ""); [apply IH | ].
    destruct (Path.isAbsolute a); [reflexivity | apply IH].
Qed.

Lemma resolve_absolute_first (cwd1 cwd2 root : string) (rest : list string) :
  Path.isAbsolute root = true ->
  Path.resolve cwd1 (root :: rest) = Path.resolve cwd2 (root :: rest).
Proof.
  intros Habs. unfold Path.resolve. simpl rev.
  now rewrite (resolveLoop_absolute_last cwd1 cwd2 root (rev rest) "" Habs).
Qed.

Lemma relative_absolute (cwd1 cwd2 from to : string) :
  Path.isAbsolute from = true -> Path.isAbsolute to = true ->
  Path.relative cwd1 from to = Path.relative cwd2 from to.
Proof.
  intros Hf Ht. unfold Path.relative.
  rewrite (resolve_absolute_first cwd1 cwd2 from [] Hf),
    (resolve_absolute_first cwd1 cwd2 to [] Ht).
  reflexivity.
Qed.

(** C2 for the legacy service of [src/unnamed/part_000]: its resolver asks
    the filesystem whether the path exists, and for [/etc/passwd] under the
    root [/home/user/project] it returns the path when the file exists and
    throws when it does not. *)
Lemma C2_legacy_resolver_reads_filesystem :
  Legacy.relativeOrAbsolutePathToAbsolutePath
    (fun path => path =? "/etc/passwd") "/w" "/home/user/project" "/etc/passwd"
  = (Return "/etc/passwd", ["/etc/passwd"])
  /\ Legacy.relativeOrAbsolutePathToAbsolutePath
       (fun _ => false) "/w" "/home/user/project" "/etc/passwd"
     = (Throw (Error "Path /etc/passwd is outside the root directory"),
        ["/etc/passwd"; "/etc/passwd"]).
Proof. split; reflexivity. Qed.

(** C2, amended: for an absolute root, the resolver of the TypeScript provider
    and service is a function of the root and the input path alone: it takes
    no filesystem state, its result does not depend on the working directory
    of the process, and as a step of an operation it gives the same
    completion in every world and leaves the world as it was.  The resolver
    of the legacy service is such a function on relative inputs only, for
    which it probes nothing. *)
Theorem C2_resolver_is_pure (root p : string)
  (Hroot : Path.isAbsolute root = true) :
  (forall cwd1 cwd2,
      relativeOrAbsolutePathToAbsolutePath cwd1 root p
      = relativeOrAbsolutePathToAbsolutePath cwd2 root p)
  /\ (forall (World : Type) (w1 w2 : World) cwd1 cwd2,
         fst (lift World (relativeOrAbsolutePathToAbsolutePath cwd1 root p) w1)
         = fst (lift World (relativeOrAbsolutePathToAbsolutePath cwd2 root p)
                  w2)
         /\ snd (lift World (relativeOrAbsolutePathToAbsolutePath cwd1 root p)
                   w1) = w1)
  /\ (Path.isAbsolute p = false ->
      forall existsSync1 existsSync2 cwd1 cwd2,
        Legacy.relativeOrAbsolutePathToAbsolutePath existsSync1 cwd1 root p
        = Legacy.relativeOrAbsolutePathToAbsolutePath existsSync2 cwd2 root p
        /\ Legacy.relativeOrAbsolutePathToAbsolutePath existsSync1 cwd1 root p
           = (relativeOrAbsolutePathToAbsolutePath cwd1 root p, [])).
Proof.
  assert (Hcwd : forall cwd1 cwd2,
             relativeOrAbsolutePathToAbsolutePath cwd1 root p
             = relativeOrAbsolutePathToAbsolutePath cwd2 root p).
  { intros cwd1 cwd2. unfold relativeOrAbsolutePathToAbsolutePath.
    destruct (Path.isAbsolute p) eqn:Hp.
    - now rewrite (relative_absolute cwd1 cwd2 root p Hroot Hp).
    - now rewrite (resolve_absolute_first cwd1 cwd2 root [p] Hroot). }
  split; [exact Hcwd | split].
  - intros World w1 w2 cwd1 cwd2. unfold lift. simpl.
    split; [apply Hcwd | reflexivity].
  - intros Hp existsSync1 existsSync2 cwd1 cwd2.
    unfold Legacy.relativeOrAbsolutePathToAbsolutePath,
      relativeOrAbsolutePathToAbsolutePath.
    rewrite Hp. simpl.
    now rewrite (resolve_absolute_first cwd1 cwd2 root [p] Hroot).
Qed.

(** The statement of C2 at a relative path, resolved from two working
    directories. *)
Lemma C2_resolver_is_pure_witness :
  Path.isAbsolute "/home/user/project" = true
  /\ relativeOrAbsolutePathToAbsolutePath "/w" "/home/user/project" "src/a.ts"
     = relativeOrAbsolutePathToAbsolutePath "/tmp" "/home/user/project"
         "src/a.ts".
Proof.
  split; [reflexivity | ].
  apply (C2_resolver_is_pure "/home/user/project" "src/a.ts" eq_refl).
Defined.

(** ** Splitting and joining *)

Lemma split_nonempty (sep : ascii) (s : string) : Js.split sep s <> [].
Proof.
  destruct s as [|c s]; simpl; [discriminate | ].
  destruct (Ascii.eqb c sep); [discriminate | ].
  destruct (Js.split sep s); discriminate.
Qed.

Lemma split_cons (sep c : ascii) (s : string) :
  Ascii.eqb c sep = false ->
  exists seg rest,
    Js.split sep s = seg :: rest
    /\ Js.split sep (String c s) = String c seg :: rest.
Proof.
  intros Hc. simpl. rewrite Hc.
  destruct (Js.split sep s) as [|seg rest] eqn:Hs.
  - now apply split_nonempty in Hs.
  - now exists seg, rest.
Qed.

(** Splitting distributes over a separator. *)
Lemma split_app (sep : ascii) (a b : string) :
  Js.split sep (a ++ String sep b) = (Js.split sep a ++ Js.split sep b)%list.
Proof.
  induction a as [|c a IH].
  - simpl. now rewrite Ascii.eqb_refl.
  - destruct (Ascii.eqb c sep) eqn:Hc.
    + simpl. rewrite Hc. simpl. now rewrite IH.
    + destruct (split_cons sep c a Hc) as (seg & rest & Ha & Hca).
      rewrite Hca.
      change (String c a ++ String sep b) with (String c (a ++ String sep b)).
      destruct (split_cons sep c (a ++ String sep b) Hc)
        as (seg' & rest' & Hab & Hcab).
      rewrite Hcab. rewrite IH, Ha in Hab. simpl in Hab.
      injection Hab as <- <-. reflexivity.
Qed.

Lemma split_noSep (sep : ascii) (s : string) :
  noSep sep s = true -> Js.split sep s = [s].
Proof.
  induction s as [|c s IH]; simpl; [reflexivity | ].
  intros H. apply andb_true_iff in H. destruct H as [Hc Hs].
  apply negb_true_iff in Hc. rewrite Hc, (IH Hs). reflexivity.
Qed.

Lemma join_cons (sep x : string) (xs : list string) :
  xs <> [] -> Js.join sep (x :: xs) = x ++ sep ++ Js.join sep xs.
Proof. destruct xs; [congruence | reflexivity]. Qed.

(** Joining pieces that hold no separator and splitting again gives the
    pieces back. *)
Lemma split_join (sep : ascii) (parts : list string) :
  parts <> [] ->
  Forall (fun s => noSep sep s = true) parts ->
  Js.split sep (Js.join (String sep "") parts) = parts.
Proof.
  induction parts as [|x xs IH]; [congruence | ].
  intros _ Hall. inversion Hall as [|? ? Hx Hxs]; subst.
  destruct xs as [|y ys].
  - simpl. now apply split_noSep.
  - rewrite join_cons by discriminate.
    change (x ++ String sep "" ++ Js.join (String sep "") (y :: ys))
      with (x ++ String sep (Js.join (String sep "") (y :: ys))).
    rewrite split_app, (split_noSep sep x Hx), IH; auto. discriminate.
Qed.

Lemma join_app (sep : string) (xs ys : list string) :
  xs <> [] -> ys <> [] ->
  Js.join sep (xs ++ ys)%list = Js.join sep xs ++ sep ++ Js.join sep ys.
Proof.
  intros Hxs Hys. induction xs as [|x xs IH]; [congruence | ].
  destruct xs as [|x' xs'].
  - simpl app. now rewrite join_cons.
  - change ((x :: x' :: xs') ++ ys)%list with (x :: ((x' :: xs') ++ ys))%list.
    rewrite join_cons by discriminate. rewrite IH by discriminate.
    rewrite (join_cons sep x (x' :: xs')) by discriminate.
    now rewrite !append_assoc.
Qed.

(** *** Names and paths made of names *)

Lemma isName_spec (n : string) :
  isName n = true ->
  noSep "/" n = true /\ (n =? "") = false /\ (n =? ".") = false
  /\ (n =? "..") = false.
Proof.
  unfold isName. rewrite !andb_true_iff, !negb_true_iff. tauto.
Qed.

Lemma normalizeSegs_clean (allow : bool) (segs acc : list string) :
  Forall cleanSeg segs ->
  Path.normalizeSegs allow acc segs = (rev acc ++ filter nonEmpty segs)%list.
Proof.
  intros Hall. revert acc.
  induction Hall as [|s segs Hs _ IH]; intros acc; simpl.
  - now rewrite app_nil_r.
  - destruct Hs as [-> | Hs].
    + simpl. apply IH.
    + destruct (isName_spec s Hs) as (_ & H0 & H1 & H2).
      unfold nonEmpty at 1. rewrite H0, H1, H2. simpl.
      rewrite IH. simpl. now rewrite <- app_assoc.
Qed.

Lemma names_clean (ns : list string) :
  Forall (fun n => isName n = true) ns -> Forall cleanSeg ns.
Proof. apply Forall_impl. intros n H. now right. Qed.

Lemma names_noSep (ns : list string) :
  Forall (fun n => isName n = true) ns ->
  Forall (fun n => noSep "/" n = true) ns.
Proof. apply Forall_impl. intros n H. now apply isName_spec in H. Qed.

Lemma filter_names (ns : list string) :
  Forall (fun n => isName n = true) ns -> filter nonEmpty ns = ns.
Proof.
  induction 1 as [|n ns Hn _ IH]; simpl; [reflexivity | ].
  destruct (isName_spec n Hn) as (_ & H0 & _). unfold nonEmpty at 1.
  now rewrite H0, IH.
Qed.

(** The pieces of a relative path made of names. *)
Lemma split_relPath (ns : list string) :
  Forall (fun n => isName n = true) ns ->
  Forall cleanSeg (Js.split "/" (relPath ns))
  /\ filter nonEmpty (Js.split "/" (relPath ns)) = ns.
Proof.
  intros Hns. destruct ns as [|n ns].
  - simpl. split; [repeat constructor; now left | reflexivity].
  - unfold relPath. rewrite (split_join "/" (n :: ns)).
    + split; [now apply names_clean | now apply filter_names].
    + discriminate.
    + now apply names_noSep.
Qed.

(** The pieces of an absolute path made of names. *)
Lemma split_absPath (ns : list string) :
  Forall (fun n => isName n = true) ns ->
  Forall cleanSeg (Js.split "/" (absPath ns))
  /\ filter nonEmpty (Js.split "/" (absPath ns)) = ns.
Proof.
  intros Hns. destruct (split_relPath ns Hns) as [Hc Hf].
  unfold absPath. change ("/" ++ Js.join "/" ns) with (String "/" (relPath ns)).
  simpl Js.split. split; [constructor; [now left | exact Hc] | exact Hf].
Qed.

Lemma segments_absPath (ns : list string) :
  Forall (fun n => isName n = true) ns -> Path.segments (absPath ns) = ns.
Proof. intros Hns. now destruct (split_absPath ns Hns). Qed.

(** *** [path] on paths made of names *)

Lemma normalizeString_clean (p : string) (allow : bool) :
  Forall cleanSeg (Js.split "/" p) ->
  Path.normalizeString p allow
  = Js.join "/" (filter nonEmpty (Js.split "/" p)).
Proof.
  intros H. unfold Path.normalizeString.
  now rewrite (normalizeSegs_clean allow _ [] H).
Qed.

Lemma split_abs_mark (xs : list string) (isDir : bool) :
  Forall (fun n => isName n = true) xs ->
  Forall cleanSeg (Js.split "/" (absPath xs ++ dirMark isDir))
  /\ filter nonEmpty (Js.split "/" (absPath xs ++ dirMark isDir)) = xs.
Proof.
  intros Hxs. destruct (split_absPath xs Hxs) as [Hc Hf].
  destruct isDir; simpl dirMark.
  - change (absPath xs ++ "/") with (absPath xs ++ String "/" "").
    rewrite split_app. simpl (Js.split "/" ""). split.
    + apply Forall_app. split; [exact Hc | repeat constructor; now left].
    + rewrite filter_app, Hf. simpl. apply app_nil_r.
  - now rewrite append_nil_r.
Qed.

Lemma name_first_char (n : string) :
  isName n = true -> exists c t, n = String c t /\ Ascii.eqb c "/" = false.
Proof.
  intros Hn. destruct (isName_spec n Hn) as (Hsep & H0 & _).
  destruct n as [|c t]; [discriminate | ].
  simpl in Hsep. apply andb_true_iff in Hsep. destruct Hsep as [Hc _].
  apply negb_true_iff in Hc. now exists c, t.
Qed.

Lemma relPath_first_char (n : string) (ns : list string) :
  isName n = true ->
  exists c t, relPath (n :: ns) = String c t /\ Ascii.eqb c "/" = false.
Proof.
  intros Hn. destruct (name_first_char n Hn) as (c & t & -> & Hc).
  destruct ns as [|m ns]; [now exists c, t | ].
  exists c. eexists. split; [ | exact Hc].
  unfold relPath. rewrite join_cons by discriminate. reflexivity.
Qed.

Lemma append_first_char (c : ascii) (t s : string) :
  String c t ++ s = String c (t ++ s).
Proof. reflexivity. Qed.

Arguments absPath : simpl never.
Arguments relPath : simpl never.
Arguments dirMark : simpl never.

Lemma resolve_of_loop (cwd resolvedPath : string) (args : list string) :
  Path.resolveLoop cwd (rev args) "" = (resolvedPath, true) ->
  Path.resolve cwd args = "/" ++ Path.normalizeString resolvedPath false.
Proof. intros H. unfold Path.resolve. now rewrite H. Qed.

Lemma resolveLoop_abs (cwd p acc : string) (rest : list string) :
  Path.isAbsolute p = true ->
  Path.resolveLoop cwd (p :: rest) acc = (p ++ "/" ++ acc, true).
Proof.
  intros Hp. destruct p as [|c t]; [discriminate | ].
  simpl in *. now rewrite Hp.
Qed.

Lemma resolveLoop_rel (cwd p acc : string) (rest : list string) (c : ascii)
  (t : string) :
  p = String c t -> Ascii.eqb c "/" = false ->
  Path.resolveLoop cwd (p :: rest) acc
  = Path.resolveLoop cwd rest (p ++ "/" ++ acc).
Proof. intros -> Hc. simpl. now rewrite Hc. Qed.

Lemma absPath_mark_absolute (xs : list string) (isDir : bool) :
  Path.isAbsolute (absPath xs ++ dirMark isDir) = true.
Proof. reflexivity. Qed.

Lemma clean_empty : Forall cleanSeg (Js.split "/" "").
Proof. repeat constructor. Qed.

Lemma normalize_abs_slash (xs : list string) (isDir : bool) :
  Forall (fun n => isName n = true) xs ->
  "/" ++ Path.normalizeString ((absPath xs ++ dirMark isDir) ++ "/" ++ "") false
  = absPath xs.
Proof.
  intros Hxs.
  change ((absPath xs ++ dirMark isDir) ++ "/" ++ "")
    with ((absPath xs ++ dirMark isDir) ++ String "/" "").
  destruct (split_abs_mark xs isDir Hxs) as [Hc Hf].
  rewrite normalizeString_clean; rewrite split_app.
  - now rewrite filter_app, Hf, app_nil_r.
  - apply Forall_app. split; [exact Hc | exact clean_empty].
Qed.

(** [resolve] of a path made of names, with or without a trailing
    separator, gives the path without it. *)
Lemma resolve_abs (cwd : string) (xs : list string) (isDir : bool) :
  Forall (fun n => isName n = true) xs ->
  Path.resolve cwd [absPath xs ++ dirMark isDir] = absPath xs.
Proof.
  intros Hxs.
  rewrite (resolve_of_loop cwd ((absPath xs ++ dirMark isDir) ++ "/" ++ "")).
  - now apply normalize_abs_slash.
  - apply resolveLoop_abs, absPath_mark_absolute.
Qed.

Lemma resolve_abs_plain (cwd : string) (xs : list string) :
  Forall (fun n => isName n = true) xs ->
  Path.resolve cwd [absPath xs] = absPath xs.
Proof.
  intros Hxs. pose proof (resolve_abs cwd xs false Hxs) as H.
  unfold dirMark in H. now rewrite append_nil_r in H.
Qed.

(** [resolve(root, dir)] for a root and a root-relative directory made of
    names. *)
Lemma resolve_root_rel (cwd : string) (rs ds : list string) :
  Forall (fun n => isName n = true) rs ->
  Forall (fun n => isName n = true) ds ->
  Path.resolve cwd [absPath rs; relPath ds] = absPath (rs ++ ds).
Proof.
  intros Hrs Hds. destruct ds as [|d ds].
  - rewrite app_nil_r.
    rewrite (resolve_of_loop cwd ((absPath rs ++ dirMark false) ++ "/" ++ "")).
    + now apply normalize_abs_slash.
    + unfold dirMark. rewrite append_nil_r. reflexivity.
  - inversion Hds as [|? ? Hd Hds']; subst.
    destruct (relPath_first_char d ds Hd) as (c & t & Hrel & Hc).
    rewrite (resolve_of_loop cwd
               (absPath rs ++ "/" ++ relPath (d :: ds) ++ "/" ++ "")).
    + change (absPath rs ++ "/" ++ relPath (d :: ds) ++ "/" ++ "")
        with (absPath rs ++ String "/" (relPath (d :: ds) ++ String "/" "")).
      destruct (split_absPath rs Hrs) as [Hc1 Hf1].
      destruct (split_relPath (d :: ds) Hds) as [Hc2 Hf2].
      rewrite normalizeString_clean; rewrite !split_app.
      * now rewrite !filter_app, Hf1, Hf2, app_nil_r.
      * repeat (apply Forall_app; split); auto using clean_empty.
    + simpl rev. simpl app.
      rewrite (resolveLoop_rel cwd _ "" [absPath rs] c t Hrel Hc).
      apply resolveLoop_abs. reflexivity.
Qed.

Lemma noSep_endsWithSlash (s : string) :
  noSep "/" s = true -> Path.endsWithSlash s = false.
Proof.
  induction s as [|c s IH]; simpl; [reflexivity | ].
  intros H. apply andb_true_iff in H. destruct H as [Hc Hs].
  apply negb_true_iff in Hc. destruct s; [exact Hc | now apply IH].
Qed.

Lemma endsWithSlash_app (a b : string) :
  b <> "" -> Path.endsWithSlash (a ++ b) = Path.endsWithSlash b.
Proof.
  intros Hb. induction a as [|c a IH]; [reflexivity | ].
  change (String c a ++ b) with (String c (a ++ b)).
  simpl. destruct (a ++ b) eqn:Hab; [ | exact IH].
  destruct a; [simpl in Hab; congruence | discriminate].
Qed.

Lemma relPath_nonempty (n : string) (ns : list string) :
  isName n = true -> relPath (n :: ns) <> "".
Proof.
  intros Hn. destruct (relPath_first_char n ns Hn) as (c & t & -> & _).
  discriminate.
Qed.

Lemma relPath_endsWithSlash (ns : list string) :
  Forall (fun n => isName n = true) ns ->
  Path.endsWithSlash (relPath ns) = false.
Proof.
  induction 1 as [|n ns Hn Hns IH]; [reflexivity | ].
  destruct ns as [|m ns].
  - apply noSep_endsWithSlash. now apply isName_spec in Hn.
  - unfold relPath. rewrite join_cons by discriminate.
    rewrite endsWithSlash_app by discriminate.
    inversion Hns; subst.
    rewrite (endsWithSlash_app "/") by now apply relPath_nonempty.
    exact IH.
Qed.

Lemma endsWithSlash_mark (s : string) (isDir : bool) :
  s <> "" -> Path.endsWithSlash s = false ->
  Path.endsWithSlash (s ++ dirMark isDir) = isDir.
Proof.
  intros Hs He. destruct isDir; unfold dirMark.
  - now rewrite endsWithSlash_app.
  - now rewrite append_nil_r.
Qed.

Lemma append_nonempty_l (a b : string) : a <> "" -> a ++ b <> "".
Proof. destruct a; [congruence | discriminate]. Qed.

Lemma absPath_app (xs : list string) (n : string) (ns : list string) :
  xs <> [] ->
  absPath (xs ++ n :: ns) = absPath xs ++ "/" ++ relPath (n :: ns).
Proof.
  intros Hxs. unfold absPath, relPath.
  rewrite join_app by (auto; discriminate). now rewrite append_assoc.
Qed.

Lemma join_two (a b : string) :
  a <> "" -> b <> "" -> Path.join [a; b] = Path.normalize (a ++ "/" ++ b).
Proof.
  intros Ha Hb. apply String.eqb_neq in Ha, Hb.
  unfold Path.join. simpl filter. now rewrite Ha, Hb.
Qed.

(** [join(dir, rel)] for a directory made of names and a relative path made
    of names, with or without a trailing separator. *)
Lemma join_abs_rel (xs : list string) (n : string) (ns : list string)
  (isDir : bool) :
  Forall (fun m => isName m = true) xs ->
  Forall (fun m => isName m = true) (n :: ns) ->
  Path.join [absPath xs; relPath (n :: ns) ++ dirMark isDir]
  = absPath (xs ++ n :: ns) ++ dirMark isDir.
Proof.
  intros Hxs Hns. inversion Hns as [|? ? Hn Hns']; subst.
  pose proof (relPath_nonempty n ns Hn) as Hne.
  assert (Hne' : relPath (n :: ns) ++ dirMark isDir <> "")
    by now apply append_nonempty_l.
  rewrite join_two by (auto; discriminate).
  set (joined := absPath xs ++ "/" ++ relPath (n :: ns) ++ dirMark isDir).
  assert (Hsplit : Forall cleanSeg (Js.split "/" joined)
                   /\ filter nonEmpty (Js.split "/" joined)
                      = (xs ++ n :: ns)%list).
  { subst joined.
    change (absPath xs ++ "/" ++ relPath (n :: ns) ++ dirMark isDir)
      with (absPath xs ++ String "/" (relPath (n :: ns) ++ dirMark isDir)).
    rewrite split_app.
    destruct (split_absPath xs Hxs) as [Hc1 Hf1].
    destruct (split_relPath (n :: ns) Hns) as [Hc2 Hf2].
    destruct isDir; unfold dirMark.
    - change (relPath (n :: ns) ++ "/")
        with (relPath (n :: ns) ++ String "/" "").
      rewrite split_app. split.
      + repeat (apply Forall_app; split); auto using clean_empty.
      + now rewrite !filter_app, Hf1, Hf2, app_nil_r.
    - rewrite append_nil_r. split.
      + apply Forall_app; auto.
      + now rewrite filter_app, Hf1, Hf2. }
  destruct Hsplit as [Hc Hf].
  unfold Path.normalize.
  assert (Hj : (joined =? "") = false) by (apply String.eqb_neq; discriminate).
  rewrite Hj. change (Path.isAbsolute joined) with true. simpl negb.
  rewrite (normalizeString_clean joined false Hc), Hf.
  assert (Hend : Path.endsWithSlash joined = isDir).
  { subst joined.
    rewrite endsWithSlash_app by (apply append_nonempty_l; discriminate).
    rewrite (endsWithSlash_app "/") by exact Hne'.
    apply endsWithSlash_mark; [exact Hne | now apply relPath_endsWithSlash]. }
  rewrite Hend.
  assert (Hn0 : (Js.join "/" (xs ++ n :: ns) =? "") = false).
  { apply String.eqb_neq. destruct xs as [|x xs].
    - exact Hne.
    - inversion Hxs as [|? ? Hx Hxs'].
      now apply (relPath_nonempty x (xs ++ n :: ns)). }
  rewrite Hn0. destruct isDir; unfold dirMark, absPath.
  - now rewrite append_assoc.
  - now rewrite !append_nil_r.
Qed.

Lemma dropCommon_app (xs ys : list string) :
  Path.dropCommon xs (xs ++ ys) = ([], ys).
Proof.
  induction xs as [|x xs IH]; simpl.
  - now destruct ys.
  - now rewrite String.eqb_refl.
Qed.

Lemma absPath_mark_inj (xs ys : list string) (b1 b2 : bool) :
  Forall (fun m => isName m = true) xs ->
  Forall (fun m => isName m = true) ys ->
  absPath xs ++ dirMark b1 = absPath ys ++ dirMark b2 -> xs = ys.
Proof.
  intros Hxs Hys H.
  destruct (split_abs_mark xs b1 Hxs) as [_ <-].
  destruct (split_abs_mark ys b2 Hys) as [_ <-].
  now rewrite H.
Qed.

(** [relative(root, p)] for a path below the root, both made of names. *)
Lemma relative_root_abs (cwd : string) (rs : list string) (n : string)
  (ns : list string) (isDir : bool) :
  Forall (fun m => isName m = true) rs ->
  Forall (fun m => isName m = true) (n :: ns) ->
  Path.relative cwd (absPath rs) (absPath (rs ++ n :: ns) ++ dirMark isDir)
  = relPath (n :: ns).
Proof.
  intros Hrs Hns.
  assert (Hall : Forall (fun m => isName m = true) (rs ++ n :: ns))
    by (apply Forall_app; auto).
  assert (Hneq : forall b, absPath rs
                           <> absPath (rs ++ n :: ns) ++ dirMark b).
  { intros b H. rewrite <- (append_nil_r (absPath rs)) in H.
    apply (absPath_mark_inj rs (rs ++ n :: ns) false b Hrs Hall) in H.
    apply (f_equal (@List.length string)) in H.
    rewrite length_app in H. simpl in H. lia. }
  unfold Path.relative.
  destruct (String.eqb_spec (absPath rs)
              (absPath (rs ++ n :: ns) ++ dirMark isDir)) as [E|_];
    [now apply Hneq in E | ].
  rewrite (resolve_abs_plain cwd rs Hrs), (resolve_abs cwd _ isDir Hall).
  destruct (String.eqb_spec (absPath rs) (absPath (rs ++ n :: ns))) as [E|_].
  { rewrite <- (append_nil_r (absPath (rs ++ n :: ns))) in E.
    now apply (Hneq false) in E. }
  rewrite (segments_absPath rs Hrs), (segments_absPath _ Hall).
  now rewrite dropCommon_app.
Qed.

(** ** Filtering with a predicate that may throw *)

Lemma filterNotIgnored_total (p : string -> bool) (files : list string) :
  filterNotIgnored (fun f => Return (p f)) files
  = Return (filter (fun f => negb (p f)) files).
Proof.
  induction files as [|f files IH]; simpl; [reflexivity | ].
  rewrite IH. now destruct (p f).
Qed.

Lemma filterNotIgnored_kept (ig : string -> completion bool)
  (files kept : list string) :
  filterNotIgnored ig files = Return kept ->
  forall f, In f kept -> In f files /\ ig f = Return false.
Proof.
  revert kept. induction files as [|x files IH]; simpl; intros kept H f Hf.
  - injection H as <-. contradiction.
  - destruct (ig x) as [b|e] eqn:Hx; [ | discriminate].
    destruct (filterNotIgnored ig files) as [l|e]; [ | discriminate].
    injection H as <-. destruct b.
    + destruct (IH l eq_refl f Hf). auto.
    + destruct Hf as [<- | Hf]; [auto | ].
      destruct (IH l eq_refl f Hf). auto.
Qed.

Lemma filterNotIgnored_throws (ig : string -> completion bool)
  (files : list string) (e : JsError) :
  filterNotIgnored ig files = Throw e -> exists f, In f files /\ ig f = Throw e.
Proof.
  induction files as [|x files IH]; simpl; [discriminate | ].
  destruct (ig x) as [b|e'] eqn:Hx.
  - destruct (filterNotIgnored ig files) as [l|e'']; [discriminate | ].
    intros H. injection H as ->. destruct (IH eq_refl) as (f & Hf & Hig).
    exists f. auto.
  - intros H. injection H as ->. exists x. auto.
Qed.

Lemma filterNotIgnored_pointwise (ig : string -> completion bool)
  (p : string -> bool) (files : list string) :
  (forall f, ig f = Return (p f)) ->
  filterNotIgnored ig files = Return (filter (fun f => negb (p f)) files).
Proof.
  intros Hp. induction files as [|f files IH]; simpl; [reflexivity | ].
  rewrite Hp, IH. now destruct (p f).
Qed.

Lemma filterNotIgnored_keeps (ig : string -> completion bool)
  (files kept : list string) :
  filterNotIgnored ig files = Return kept ->
  forall f, In f files -> ig f = Return false -> In f kept.
Proof.
  revert kept. induction files as [|x files IH]; simpl; intros kept H f Hf Hig.
  - contradiction.
  - destruct (ig x) as [b|e] eqn:Hx; [ | discriminate].
    destruct (filterNotIgnored ig files) as [l|e]; [ | discriminate].
    injection H as <-. destruct Hf as [<- | Hf].
    + rewrite Hig in Hx. injection Hx as <-. now left.
    + destruct b; [ | right]; now apply (IH l eq_refl).
Qed.

Lemma filterNotIgnored_returns (ig : string -> completion bool)
  (files : list string) :
  totalFilter ig -> exists kept, filterNotIgnored ig files = Return kept.
Proof.
  intros Htotal. induction files as [|x files (kept & IH)]; simpl.
  - now exists [].
  - destruct (Htotal x) as [b ->]. rewrite IH. eexists. reflexivity.
Qed.

(** ** Generators *)

Lemma andThen_in (a b : Walk) (e : string) :
  In e (fst (andThen a b)) -> In e (fst a) \/ In e (fst b).
Proof.
  unfold andThen. destruct a as [ys [|err|]]; simpl; auto.
  intros H. now apply in_app_or in H.
Qed.

Lemma andThen_done (a b : Walk) :
  snd a = Done -> andThen a b = ((fst a ++ fst b)%list, snd b).
Proof. unfold andThen. now intros ->. Qed.

Lemma andThen_stop (a b : Walk) : snd a <> Done -> andThen a b = a.
Proof.
  unfold andThen. destruct a as [ys [|err|]]; simpl; [congruence | | ];
    reflexivity.
Qed.

Lemma andThen_snd_done (a b : Walk) :
  snd (andThen a b) = Done <-> snd a = Done /\ snd b = Done.
Proof.
  unfold andThen. destruct a as [ys [|err|]]; simpl; split;
    try (intros [H _]; discriminate); try discriminate; auto.
  now intros [_ H].
Qed.

Lemma andThen_skip (w : Walk) : andThen skip w = w.
Proof. now destruct w. Qed.

Lemma andThen_assoc (a b c : Walk) :
  andThen (andThen a b) c = andThen a (andThen b c).
Proof.
  unfold andThen. destruct a as [xs [|e|]]; simpl; try reflexivity.
  destruct b as [ys [|e|]]; simpl; try reflexivity.
  now rewrite app_assoc.
Qed.

Lemma andThen_yield (s : string) (w : Walk) :
  andThen (yield s) w = (s :: fst w, snd w).
Proof. reflexivity. Qed.

(** ** The directory walk *)

Section TreeInduction.

Variable P : Tree -> Prop.
Hypothesis P_file : forall n, P (FileEnt n).
Hypothesis P_dir : forall n items, Forall P items -> P (DirEnt n items).
Hypothesis P_locked : forall n e, P (LockedDir n e).

(** Induction over a tree, with the hypothesis for every entry of a
    directory. *)
Fixpoint Tree_nested_ind (t : Tree) : P t :=
  match t with
  | FileEnt n => P_file n
  | DirEnt n items =>
      P_dir n items
        ((fix all (l : list Tree) : Forall P l :=
            match l with
            | [] => Forall_nil P
            | x :: l' => Forall_cons x (Tree_nested_ind x) (all l')
            end) items)
  | LockedDir n e => P_locked n e
  end.

End TreeInduction.

Lemma listedBelow_dir (readdir : string -> completion (list Dirent))
  (segs : list string) (n : string) (items : list Tree) :
  listedBelow readdir segs (DirEnt n items) <-> listed readdir (segs ++ [n]) items.
Proof.
  unfold listed. cbn [listedBelow].
  assert (Hall : forall l,
             (fix all (l : list Tree) : Prop :=
                match l with
                | [] => True
                | c :: l' => listedBelow readdir (segs ++ [n]) c /\ all l'
                end) l
             <-> Forall (listedBelow readdir (segs ++ [n])) l).
  { induction l as [|c l IH]; split; intros H.
    - constructor.
    - exact I.
    - destruct H as [Hc Hl]. constructor; [exact Hc | now apply IH].
    - inversion H as [|? ? Hc Hl]; subst. split; [exact Hc | now apply IH]. }
  now rewrite Hall.
Qed.

Lemma height_in (items : list Tree) (t : Tree) :
  In t items -> (height t <= list_max (map height items))%nat.
Proof.
  intros Hin. pose proof (list_max_le (map height items)
                            (list_max (map height items))) as [H _].
  specialize (H (Nat.le_refl _)). rewrite Forall_forall in H.
  apply H. now apply in_map.
Qed.

Lemma reaches_incl (items items' : list Tree) (ns : list string) (t : Tree) :
  (forall x, In x items -> In x items') ->
  reaches items ns t -> reaches items' ns t.
Proof.
  intros Hincl Hreach.
  inversion Hreach as [l d Hd | l n children ns' d Hd Hsub]; subst.
  - apply reaches_here. auto.
  - apply reaches_below with children; auto.
Qed.

Lemma reaches_cons (item : Tree) (items : list Tree) (ns : list string)
  (t : Tree) :
  reaches (item :: items) ns t -> reaches [item] ns t \/ reaches items ns t.
Proof.
  intros Hreach.
  inversion Hreach as [l d Hd | l n children ns' d Hd Hsub]; subst.
  - destruct Hd as [<- | Hd].
    + left. apply reaches_here. now left.
    + right. now apply reaches_here.
  - destruct Hd as [-> | Hd].
    + left. apply reaches_below with children; [now left | exact Hsub].
    + right. now apply reaches_below with children.
Qed.

Lemma reaches_nil (ns : list string) (t : Tree) : ~ reaches [] ns t.
Proof.
  intros Hreach.
  inversion Hreach as [l d Hd | l n children ns' d Hd Hsub]; contradiction.
Qed.

(** A chain from a single node starts with its name, and either ends at the
    node or goes on below it. *)
Lemma reaches_single (item : Tree) (ns : list string) (t : Tree) :
  reaches [item] ns t ->
  (ns = [entName item] /\ t = item)
  \/ exists n children ns',
       item = DirEnt n children /\ ns = n :: ns'
       /\ reaches children ns' t.
Proof.
  intros Hreach.
  inversion Hreach as [l d Hd | l n children ns' d Hd Hsub]; subst.
  - destruct Hd as [<- | []]. now left.
  - destruct Hd as [-> | []]. right. now exists n, children, ns'.
Qed.

Lemma reaches_names (items : list Tree) (ns : list string) (t : Tree) :
  reaches items ns t -> forallb wfEnt items = true ->
  ns <> [] /\ Forall (fun n => isName n = true) ns.
Proof.
  induction 1 as [items d Hd | items n children ns d Hd _ IH];
    intros Hwf; rewrite forallb_forall in Hwf; pose proof (Hwf _ Hd) as Hitem.
  - split; [discriminate | ]. constructor; [ | constructor].
    destruct d; simpl in *; [exact Hitem | | exact Hitem].
    now apply andb_true_iff in Hitem.
  - simpl in Hitem. apply andb_true_iff in Hitem.
    destruct Hitem as [Hname Hchildren].
    split; [discriminate | ]. constructor; [exact Hname | ].
    now apply IH.
Qed.

Lemma wfEnt_name (t : Tree) : wfEnt t = true -> isName (entName t) = true.
Proof.
  destruct t; simpl; auto. intros H. now apply andb_true_iff in H.
Qed.

Section WalkProperties.

Variable cwd : string.
(** The segments of the root directory. *)
Variable rs : list string.
Hypothesis rs_names : Forall (fun n => isName n = true) rs.
Variable fs_readdir : string -> completion (list Dirent).

#[local] Abbreviation walk := (getDirectoryTree cwd (absPath rs) fs_readdir).

Lemma relative_root_below (ns : list string) (isDir : bool) :
  ns <> [] ->
  Forall (fun m => isName m = true) ns ->
  Path.relative cwd (absPath rs) (absPath (rs ++ ns) ++ dirMark isDir)
  = relPath ns.
Proof using rs_names.
  intros Hne Hns. destruct ns as [|n ns]; [congruence | ].
  now apply relative_root_abs.
Qed.

Lemma join_abs_below (xs ns : list string) (isDir : bool) :
  ns <> [] ->
  Forall (fun m => isName m = true) xs ->
  Forall (fun m => isName m = true) ns ->
  Path.join [absPath xs; relPath ns ++ dirMark isDir]
  = absPath (xs ++ ns) ++ dirMark isDir.
Proof using Type.
  intros Hne Hxs Hns. destruct ns as [|n ns]; [congruence | ].
  now apply join_abs_rel.
Qed.

(** The root-relative path the loop computes for an entry [n] of the
    directory [ds]. *)
Lemma entry_relPath (ds : list string) (n : string) :
  Forall (fun m => isName m = true) ds ->
  isName n = true ->
  Path.relative cwd (absPath rs) (Path.join [absPath (rs ++ ds); n])
  = relPath (ds ++ [n]).
Proof using rs_names.
  intros Hds Hname.
  assert (Hall : Forall (fun m => isName m = true) (rs ++ ds))
    by (apply Forall_app; auto).
  pose proof (join_abs_below (rs ++ ds) [n] false) as Hj.
  unfold dirMark in Hj. rewrite !append_nil_r in Hj.
  change (relPath [n]) with n in Hj.
  rewrite Hj by (auto; discriminate).
  rewrite <- app_assoc.
  pose proof (relative_root_below (ds ++ [n]) false) as Hr.
  unfold dirMark in Hr. rewrite append_nil_r in Hr.
  apply Hr.
  - intros H. apply (f_equal (@List.length string)) in H.
    rewrite length_app in H. simpl in H. lia.
  - apply Forall_app. auto.
Qed.

(** One call of the generator: it reads the directory and runs the loop, the
    recursive calls having one level less. *)
Lemma getDirectoryTree_S (depth : nat) (ds : list string)
  (ig : option (string -> completion bool)) (recursive : bool) :
  Forall (fun n => isName n = true) ds ->
  walk (S depth) (relPath ds) ig recursive
  = match fs_readdir (absPath (rs ++ ds)) with
    | Throw e => ([], Thrown e)
    | Return items =>
        walkItems cwd (absPath rs) ig recursive
          (fun rel => walk depth rel ig true) (absPath (rs ++ ds)) items
    end.
Proof using rs_names.
  intros Hds. cbn [getDirectoryTree].
  now rewrite (resolve_root_rel cwd rs ds rs_names Hds).
Qed.

(** One iteration of the loop for an entry with a name. *)
Lemma walkItem_name (ig : option (string -> completion bool))
  (recursive : bool) (descend : string -> Walk) (ds : list string)
  (item : Dirent) :
  Forall (fun n => isName n = true) ds ->
  isName (name item) = true ->
  walkItem cwd (absPath rs) ig recursive descend (absPath (rs ++ ds)) item
  = match callFilter ig (relPath (ds ++ [name item])) with
    | Throw e => ([], Thrown e)
    | Return true => skip
    | Return false =>
        if isDirectory item then
          andThen (yield (relPath (ds ++ [name item]) ++ "/"))
            (if recursive then descend (relPath (ds ++ [name item]))
             else skip)
        else yield (relPath (ds ++ [name item]))
    end.
Proof using rs_names.
  intros Hds Hname. unfold walkItem.
  now rewrite (entry_relPath ds (name item) Hds Hname).
Qed.

Lemma walkItems_app (ig : option (string -> completion bool))
  (recursive : bool) (descend : string -> Walk) (dir : string)
  (xs ys : list Dirent) :
  walkItems cwd (absPath rs) ig recursive descend dir (xs ++ ys)
  = andThen (walkItems cwd (absPath rs) ig recursive descend dir xs)
      (walkItems cwd (absPath rs) ig recursive descend dir ys).
Proof using Type.
  induction xs as [|x xs IH]; cbn [walkItems app].
  - now rewrite andThen_skip.
  - now rewrite IH, andThen_assoc.
Qed.

Lemma yieldedBelow_here (ig : string -> completion bool) (ds : list string)
  (n : string) (isDir : bool) :
  isName n = true ->
  ig (relPath (ds ++ [n])) = Return false ->
  yieldedBelow ig ds (relPath (ds ++ [n]) ++ dirMark isDir).
Proof using Type.
  intros Hname Hig. exists [n], isDir. repeat split; auto.
  - discriminate.
  - intros k [Hk1 Hk2]. simpl in Hk2.
    assert (k = 1%nat) as -> by lia. exact Hig.
Qed.

Lemma yieldedBelow_child (ig : string -> completion bool) (ds : list string)
  (n e : string) :
  isName n = true ->
  ig (relPath (ds ++ [n])) = Return false ->
  yieldedBelow ig (ds ++ [n]) e -> yieldedBelow ig ds e.
Proof using Type.
  intros Hname Hig (ns & isDir & Hne & Hns & He & Hk).
  exists (n :: ns), isDir. repeat split.
  - discriminate.
  - now constructor.
  - rewrite He. now rewrite <- app_assoc.
  - intros k [Hk1 Hk2]. destruct k as [|k]; [lia | ].
    simpl in Hk2. simpl firstn. destruct k as [|k].
    + simpl. exact Hig.
    + change (ds ++ n :: firstn (S k) ns)%list
        with (ds ++ [n] ++ firstn (S k) ns)%list.
      rewrite app_assoc. apply Hk. lia.
Qed.

(** Whatever a walk has yielded, however it ended, was reached through paths
    on which the predicate returned [false]. *)
Lemma walk_yields (ig : string -> completion bool) :
  namesOnly fs_readdir ->
  forall (depth : nat) (recursive : bool) (ds : list string),
    Forall (fun n => isName n = true) ds ->
    forall e,
      In e (fst (walk depth (relPath ds) (Some ig) recursive)) ->
      yieldedBelow ig ds e.
Proof using rs_names.
  intros Hnames. induction depth as [|depth IH]; intros recursive ds Hds e Hin.
  - contradiction.
  - rewrite (getDirectoryTree_S depth ds (Some ig) recursive Hds) in Hin.
    destruct (fs_readdir (absPath (rs ++ ds))) as [items|err] eqn:Hread;
      [ | contradiction].
    pose proof (Hnames _ _ Hread) as Hitems. clear Hread.
    induction Hitems as [|item items Hitem _ IHitems]; [contradiction | ].
    cbn [walkItems] in Hin. apply andThen_in in Hin.
    destruct Hin as [Hin | Hin]; [ | now apply IHitems].
    rewrite (walkItem_name (Some ig) recursive _ ds item Hds Hitem) in Hin.
    cbn [callFilter] in Hin.
    destruct (ig (relPath (ds ++ [name item]))) as [[|]|err] eqn:Hig;
      try contradiction.
    destruct (isDirectory item).
    + apply andThen_in in Hin. destruct Hin as [[<- | []] | Hin].
      * now apply (yieldedBelow_here ig ds (name item) true).
      * destruct recursive; [ | contradiction].
        apply (yieldedBelow_child ig ds (name item) e Hitem Hig).
        apply (IH true); [ | exact Hin]. apply Forall_app. auto.
    + destruct Hin as [<- | []].
      rewrite <- (append_nil_r (relPath (ds ++ [name item]))).
      now apply (yieldedBelow_here ig ds (name item) false).
Qed.

(** *** The walk of one level *)

Lemma walkItems_flat (ig : string -> completion bool) (f : string -> bool)
  (descend : string -> Walk) (ds : list string) (items : list Dirent) :
  (forall p, ig p = Return (f p)) ->
  Forall (fun n => isName n = true) ds ->
  Forall (fun item => isName (name item) = true) items ->
  walkItems cwd (absPath rs) (Some ig) false descend (absPath (rs ++ ds)) items
  = (map (yieldOf ds)
       (filter (fun item => negb (f (relPath (ds ++ [name item])))) items),
     Done).
Proof using rs_names.
  intros Hf Hds Hitems.
  induction Hitems as [|item items Hitem _ IH]; [reflexivity | ].
  cbn [walkItems filter]. rewrite IH.
  rewrite (walkItem_name (Some ig) false descend ds item Hds Hitem).
  cbn [callFilter]. rewrite Hf.
  destruct (f (relPath (ds ++ [name item]))); cbn [negb]; [reflexivity | ].
  cbn [map].
  change (yieldOf ds item)
    with (relPath (ds ++ [name item]) ++ dirMark (isDirectory item)).
  destruct (isDirectory item); cbn [dirMark]; [reflexivity | ].
  now rewrite append_nil_r.
Qed.

Lemma walk_flat_listing (ig : string -> completion bool) (f : string -> bool)
  (depth : nat) (ds : list string) (items : list Dirent) :
  (forall p, ig p = Return (f p)) ->
  Forall (fun n => isName n = true) ds ->
  fs_readdir (absPath (rs ++ ds)) = Return items ->
  Forall (fun item => isName (name item) = true) items ->
  walk (S depth) (relPath ds) (Some ig) false
  = (map (yieldOf ds)
       (filter (fun item => negb (f (relPath (ds ++ [name item])))) items),
     Done).
Proof using rs_names.
  intros Hf Hds Hread Hitems.
  rewrite (getDirectoryTree_S depth ds (Some ig) false Hds), Hread.
  now apply walkItems_flat.
Qed.

(** *** The walk of a tree *)

Lemma unignoredBelow_one (ig : string -> completion bool) (ds : list string)
  (n : string) :
  ig (relPath (ds ++ [n])) = Return false -> unignoredBelow ig ds [n].
Proof using Type.
  intros Hig k [Hk1 Hk2]. simpl in Hk2.
  assert (k = 1%nat) as -> by lia. exact Hig.
Qed.

Lemma unignoredBelow_cons (ig : string -> completion bool) (ds : list string)
  (n : string) (ns : list string) :
  unignoredBelow ig ds (n :: ns)
  <-> ig (relPath (ds ++ [n])) = Return false
      /\ unignoredBelow ig (ds ++ [n]) ns.
Proof using Type.
  split.
  - intros H. split.
    + apply (H 1%nat). simpl. lia.
    + intros k Hk. rewrite <- app_assoc. apply (H (S k)). simpl. lia.
  - intros [Hig H] k [Hk1 Hk2]. destruct k as [|k]; [lia | ].
    simpl in Hk2. destruct k as [|k]; [exact Hig | ].
    change (ds ++ firstn (S (S k)) (n :: ns))%list
      with (ds ++ [n] ++ firstn (S k) ns)%list.
    rewrite app_assoc. apply H. lia.
Qed.

Lemma walksTree_nil (ig : string -> completion bool) (ds : list string) :
  walksTree ig ds [] skip.
Proof using Type.
  repeat split; try discriminate.
  - intros e [].
  - now apply reaches_nil in H0.
  - intros n e ->. now apply reaches_nil in H0.
Qed.

Lemma walksTree_cons (ig : string -> completion bool) (ds : list string)
  (item : Tree) (items : list Tree) (a b : Walk) :
  walksTree ig ds [item] a -> walksTree ig ds items b ->
  walksTree ig ds (item :: items) (andThen a b).
Proof using Type.
  intros (A1 & A2 & A3 & A4) (B1 & B2 & B3 & B4).
  assert (Hleft : forall x, In x [item] -> In x (item :: items)).
  { intros x [<- | []]. now left. }
  assert (Hright : forall x, In x items -> In x (item :: items)).
  { intros x Hx. now right. }
  destruct a as [ys [|err|]]; cbn [fst snd] in *; [ | | congruence];
    unfold andThen; cbn [fst snd].
  - split; [ | split; [ | split; [ | exact B4]]]; cbn [fst snd].
    + intros e He. apply in_app_or in He. destruct He as [He | He].
      * destruct (A1 e He) as (ns & t & Hreach & Hrest).
        exists ns, t. split; [now apply (reaches_incl [item]) | exact Hrest].
      * destruct (B1 e He) as (ns & t & Hreach & Hrest).
        exists ns, t. split; [now apply (reaches_incl items) | exact Hrest].
    + intros Hb ns t Hreach Hun.
      destruct (reaches_cons item items ns t Hreach) as [Hr | Hr].
      * destruct (A2 eq_refl ns t Hr Hun) as [Hin Hlocked].
        split; [apply in_or_app; now left | exact Hlocked].
      * destruct (B2 Hb ns t Hr Hun) as [Hin Hlocked].
        split; [apply in_or_app; now right | exact Hlocked].
    + intros e Hb. destruct (B3 e Hb) as (pre & ns & n & Hreach & Hun & Hfst).
      exists (ys ++ pre)%list, ns, n.
      split; [now apply (reaches_incl items) | ].
      split; [exact Hun | ]. now rewrite Hfst, app_assoc.
  - split; [ | split; [ | split; [ | exact A4]]]; cbn [fst snd].
    + intros e He. destruct (A1 e He) as (ns & t & Hreach & Hrest).
      exists ns, t. split; [now apply (reaches_incl [item]) | exact Hrest].
    + discriminate.
    + intros e He. destruct (A3 e He) as (pre & ns & n & Hreach & Hrest).
      exists pre, ns, n.
      split; [now apply (reaches_incl [item]) | exact Hrest].
Qed.

(** An ignored node contributes nothing, and nothing below it is reached
    without passing it. *)
Lemma walksTree_ignored (ig : string -> completion bool) (ds : list string)
  (item : Tree) :
  ig (relPath (ds ++ [entName item])) = Return true ->
  walksTree ig ds [item] skip.
Proof using Type.
  intros Hig.
  assert (Hnone : forall ns t,
             reaches [item] ns t -> ~ unignoredBelow ig ds ns).
  { intros ns t Hreach Hun.
    assert (Hhead : exists ns', ns = entName item :: ns').
    { destruct (reaches_single item ns t Hreach)
        as [[-> _] | (n & children & ns' & -> & -> & _)]; eexists;
        reflexivity. }
    destruct Hhead as (ns' & ->).
    apply unignoredBelow_cons in Hun. destruct Hun as [Hun _]. congruence. }
  repeat split; try discriminate.
  - intros e [].
  - now apply Hnone in H0.
  - intros n e ->. now apply Hnone in H0.
Qed.

Lemma walksTree_file (ig : string -> completion bool) (ds : list string)
  (n : string) :
  ig (relPath (ds ++ [n])) = Return false ->
  walksTree ig ds [FileEnt n] (yield (relPath (ds ++ [n]))).
Proof using Type.
  intros Hig. unfold yield.
  split; [ | split; [ | split]]; cbn [fst snd]; try discriminate.
  - intros e [<- | []]. exists [n], (FileEnt n).
    split; [apply (reaches_here [FileEnt n] (FileEnt n)); now left | ].
    split; [now apply unignoredBelow_one | ].
    cbn [isDirEnt dirMark]. now rewrite append_nil_r.
  - intros _ ns t Hreach Hun.
    destruct (reaches_single _ ns t Hreach)
      as [[-> ->] | (m & children & ns' & Heq & _)]; [ | discriminate].
    cbn [entName isDirEnt dirMark]. rewrite append_nil_r.
    split; [now left | discriminate].
Qed.

Lemma walksTree_locked (ig : string -> completion bool) (ds : list string)
  (n : string) (error : JsError) :
  ig (relPath (ds ++ [n])) = Return false ->
  walksTree ig ds [LockedDir n error]
    ([relPath (ds ++ [n]) ++ "/"], Thrown error).
Proof using Type.
  intros Hig.
  split; [ | split; [ | split]]; cbn [fst snd]; try discriminate.
  - intros e [<- | []]. exists [n], (LockedDir n error).
    split; [apply (reaches_here [LockedDir n error] (LockedDir n error));
            now left | ].
    split; [now apply unignoredBelow_one | reflexivity].
  - intros e He. injection He as <-. exists [], [n], n.
    split; [apply (reaches_here [LockedDir n error] (LockedDir n error));
            now left | ].
    split; [now apply unignoredBelow_one | reflexivity].
Qed.

Lemma walksTree_dir (ig : string -> completion bool) (ds : list string)
  (n : string) (children : list Tree) (sub : Walk) :
  ig (relPath (ds ++ [n])) = Return false ->
  walksTree ig (ds ++ [n]) children sub ->
  walksTree ig ds [DirEnt n children]
    (andThen (yield (relPath (ds ++ [n]) ++ "/")) sub).
Proof using Type.
  intros Hig (S1 & S2 & S3 & S4). rewrite andThen_yield.
  assert (Hself : reaches [DirEnt n children] [n] (DirEnt n children)).
  { apply (reaches_here [DirEnt n children] (DirEnt n children)). now left. }
  assert (Hsub : forall ns t, reaches children ns t ->
                              reaches [DirEnt n children] (n :: ns) t).
  { intros ns t Hreach. apply reaches_below with children; [now left | ].
    exact Hreach. }
  split; [ | split; [ | split; [ | exact S4]]]; cbn [fst snd].
  - intros e [<- | He].
    + exists [n], (DirEnt n children).
      split; [exact Hself | ].
      split; [now apply unignoredBelow_one | reflexivity].
    + destruct (S1 e He) as (ns & t & Hreach & Hun & ->).
      exists (n :: ns), t. split; [now apply Hsub | ].
      split; [now apply unignoredBelow_cons | ].
      now rewrite <- app_assoc.
  - intros Hdone ns t Hreach Hun.
    destruct (reaches_single _ ns t Hreach)
      as [[-> ->] | (m & children' & ns' & Heq & -> & Hbelow)].
    + split; [now left | discriminate].
    + injection Heq as <- <-.
      apply unignoredBelow_cons in Hun. destruct Hun as [_ Hun].
      destruct (S2 Hdone ns' t Hbelow Hun) as [Hin Hlocked].
      split; [ | exact Hlocked]. right.
      change (ds ++ n :: ns')%list with (ds ++ [n] ++ ns')%list.
      now rewrite app_assoc.
  - intros e He. destruct (S3 e He) as (pre & ns & m & Hreach & Hun & Hfst).
    exists ((relPath (ds ++ [n]) ++ "/") :: pre), (n :: ns), m.
    split; [now apply Hsub | ].
    split; [now apply unignoredBelow_cons | ].
    rewrite Hfst. cbn [app]. now rewrite <- app_assoc.
Qed.

Lemma walkItems_nodes (ig : string -> completion bool)
  (descend : string -> Walk) (ds : list string) (items : list Tree) :
  Forall (fun t =>
            walksTree ig ds [t]
              (walkItem cwd (absPath rs) (Some ig) true descend
                 (absPath (rs ++ ds)) (entryOf t))) items ->
  walksTree ig ds items
    (walkItems cwd (absPath rs) (Some ig) true descend (absPath (rs ++ ds))
       (map entryOf items)).
Proof using Type.
  induction 1 as [|t items Ht _ IH]; cbn [map walkItems].
  - apply walksTree_nil.
  - now apply walksTree_cons.
Qed.

(** The loop body on a node of a tree that [readdir] answers for, given
    enough levels for what lies below the node. *)
Lemma walkItem_node (ig : string -> completion bool) (t : Tree) :
  totalFilter ig ->
  wfEnt t = true ->
  forall (ds : list string) (depth : nat),
    Forall (fun n => isName n = true) ds ->
    listedBelow fs_readdir (rs ++ ds) t ->
    (height t <= depth)%nat ->
    walksTree ig ds [t]
      (walkItem cwd (absPath rs) (Some ig) true
         (fun rel => walk depth rel (Some ig) true) (absPath (rs ++ ds))
         (entryOf t)).
Proof using rs_names.
  intros Htotal.
  induction t as [n | n children IH | n error] using Tree_nested_ind;
    intros Hwf ds depth Hds Hlisted Hdepth;
    pose proof (wfEnt_name _ Hwf) as Hname;
    match goal with
    | |- context [entryOf ?t] =>
        rewrite (walkItem_name (Some ig) true _ ds (entryOf t) Hds Hname)
    end;
    cbn [entryOf name isDirectory entName isDirEnt callFilter] in *;
    destruct (Htotal (relPath (ds ++ [n]))) as [[|] Hig]; rewrite Hig;
    try (now apply walksTree_ignored).
  - now apply walksTree_file.
  - apply walksTree_dir; [exact Hig | ].
    assert (Hds' : Forall (fun m => isName m = true) (ds ++ [n]))
      by (apply Forall_app; auto).
    apply listedBelow_dir in Hlisted. destruct Hlisted as [Hread Hbelow].
    cbn [height] in Hdepth. destruct depth as [|depth]; [lia | ].
    rewrite (getDirectoryTree_S depth (ds ++ [n]) (Some ig) true Hds').
    rewrite app_assoc, Hread. rewrite <- app_assoc.
    apply walkItems_nodes.
    cbn [wfEnt] in Hwf. apply andb_true_iff in Hwf.
    destruct Hwf as [_ Hchildren]. rewrite forallb_forall in Hchildren.
    rewrite Forall_forall in IH, Hbelow. apply Forall_forall.
    intros c Hc. apply IH; auto.
    + rewrite app_assoc. now apply Hbelow.
    + pose proof (height_in children c Hc). lia.
  - cbn [height] in Hdepth. destruct depth as [|depth]; [lia | ].
    assert (Hds' : Forall (fun m => isName m = true) (ds ++ [n]))
      by (apply Forall_app; auto).
    rewrite (getDirectoryTree_S depth (ds ++ [n]) (Some ig) true Hds').
    cbn [listedBelow] in Hlisted. rewrite app_assoc, Hlisted.
    now apply walksTree_locked.
Qed.

(** The walk of a directory that holds a tree. *)
Lemma walk_tree (ig : string -> completion bool) (items : list Tree)
  (ds : list string) (depth : nat) :
  totalFilter ig ->
  forallb wfEnt items = true ->
  Forall (fun n => isName n = true) ds ->
  listed fs_readdir (rs ++ ds) items ->
  (list_max (map height items) < depth)%nat ->
  walksTree ig ds items (walk depth (relPath ds) (Some ig) true).
Proof using rs_names.
  intros Htotal Hwf Hds [Hread Hbelow] Hdepth.
  destruct depth as [|depth]; [lia | ].
  rewrite (getDirectoryTree_S depth ds (Some ig) true Hds), Hread.
  apply walkItems_nodes.
  rewrite forallb_forall in Hwf. rewrite Forall_forall in Hbelow.
  apply Forall_forall. intros t Ht.
  apply walkItem_node; auto.
  pose proof (height_in items t Ht). lia.
Qed.

(** A walk of a tree in which every directory that is reached can be listed
    returns. *)
Lemma walk_finishes (ig : string -> completion bool) (items : list Tree)
  (ds : list string) (depth : nat) (recursive : bool) :
  totalFilter ig ->
  forallb wfEnt items = true ->
  Forall (fun n => isName n = true) ds ->
  listed fs_readdir (rs ++ ds) items ->
  (forall ns n e, reaches items ns (LockedDir n e) ->
                  ~ unignoredBelow ig ds ns) ->
  (list_max (map height items) < depth)%nat ->
  snd (walk depth (relPath ds) (Some ig) recursive) = Done.
Proof using rs_names.
  intros Htotal Hwf Hds Hlisted Hlocked Hdepth. destruct recursive.
  - destruct (walk_tree ig items ds depth Htotal Hwf Hds Hlisted Hdepth)
      as (_ & _ & S3 & S4).
    destruct (snd (walk depth (relPath ds) (Some ig) true)) as [|e|];
      [reflexivity | | congruence].
    destruct (S3 e eq_refl) as (pre & ns & n & Hreach & Hun & _).
    now destruct (Hlocked ns n e Hreach).
  - destruct depth as [|depth]; [lia | ].
    destruct Hlisted as [Hread _].
    rewrite (getDirectoryTree_S depth ds (Some ig) false Hds), Hread.
    clear Hread Hlocked Hdepth.
    induction items as [|t items IH]; [reflexivity | ].
    cbn [forallb] in Hwf. apply andb_true_iff in Hwf.
    destruct Hwf as [Ht Hitems].
    cbn [map walkItems]. apply andThen_snd_done. split; [ | now apply IH].
    rewrite (walkItem_name (Some ig) false _ ds (entryOf t) Hds
               (wfEnt_name t Ht)).
    cbn [callFilter entryOf name isDirectory].
    destruct (Htotal (relPath (ds ++ [entName t]))) as [[|] ->];
      [reflexivity | ].
    now destruct (isDirEnt t).
Qed.

(** C7: whatever the walk of a directory has yielded, for either value of
    the recursion flag and however far the walk got, is the path of an entry
    reached from the walked directory through a chain of names, marked with a
    trailing separator when it is a directory, such that the ignore predicate
    returned [false] on the root-relative path of the entry itself and of
    every directory of the chain: nothing at or below an ignored path is
    yielded.  And the walk of a finite tree in which every directory that is
    reached can be listed, with a predicate that does not throw, returns. *)
Theorem C7_walk_never_yields_ignored
  (ig : string -> completion bool) (ds : list string) (recursive : bool)
  (Hnames : namesOnly fs_readdir)
  (Hds : Forall (fun n => isName n = true) ds) :
  (forall depth e,
      In e (fst (walk depth (relPath ds) (Some ig) recursive)) ->
      exists (ns : list string) (isDir : bool),
        ns <> []
        /\ Forall (fun n => isName n = true) ns
        /\ e = relPath (ds ++ ns) ++ dirMark isDir
        /\ forall k, (1 <= k <= length ns)%nat ->
                     ig (relPath (ds ++ firstn k ns)) = Return false)
  /\ (forall items depth,
        totalFilter ig ->
        forallb wfEnt items = true ->
        listed fs_readdir (rs ++ ds) items ->
        (forall ns n e, reaches items ns (LockedDir n e) ->
                        ~ unignoredBelow ig ds ns) ->
        (list_max (map height items) < depth)%nat ->
        snd (walk depth (relPath ds) (Some ig) recursive) = Done).
Proof using rs_names.
  split.
  - intros depth e He.
    exact (walk_yields ig Hnames depth recursive ds Hds e He).
  - intros items depth Htotal Hwf Hlisted Hlocked Hdepth.
    now apply (walk_finishes ig items ds depth recursive).
Qed.

End WalkProperties.

(** ** grep *)

(** [grep] once the search string is known not to be empty. *)
Lemma grep_searching (cwd rootDirectory : string)
  (fs_readdir : string -> completion (list Dirent))
  (getFile : string -> completion string) (depth : nat)
  (searchString : string) (options : GrepOptions) :
  searchString <> "" ->
  grep cwd rootDirectory fs_readdir getFile depth searchString options
  = let walk := getDirectoryTree cwd rootDirectory fs_readdir depth ""
                  (ignoreFilter options) true in
    match snd walk with
    | Pending => None
    | Thrown e => Some (Throw e)
    | Done =>
        match filesToSearch (ignoreFilter options)
                (map (fun file => Path.join [rootDirectory; file]) (fst walk))
        with
        | Throw e => Some (Throw e)
        | Return files =>
            Some (Return (flat_map
                            (grepFile cwd rootDirectory getFile searchString
                               (linesBeforeOf options) (linesAfterOf options))
                            files))
        end
    end.
Proof.
  intros Hsearch. unfold grep. apply truthy_nonempty in Hsearch.
  now rewrite Hsearch.
Qed.

Section GrepProperties.

Variable cwd : string.
Variable rs : list string.
Hypothesis rs_names : Forall (fun n => isName n = true) rs.
Variable fs_readdir : string -> completion (list Dirent).
Variable getFile : string -> completion string.

(** On a finite tree whose reached directories can be listed, with a
    predicate that does not throw and enough depth, the walk of [grep]
    returns and so does [grep]. *)
Lemma grep_returns
  (ig : string -> completion bool)
  (searchString : string) (ic : option IncludeContent)
  (items : list Tree) (depth : nat) :
  searchString <> "" ->
  totalFilter ig ->
  forallb wfEnt items = true ->
  listed fs_readdir rs items ->
  (forall ns n e, reaches items ns (LockedDir n e) ->
                  ~ unignoredBelow ig [] ns) ->
  (list_max (map height items) < depth)%nat ->
  exists entries results,
    getDirectoryTree cwd (absPath rs) fs_readdir depth "" (Some ig) true
    = (entries, Done)
    /\ grep cwd (absPath rs) fs_readdir getFile depth searchString
         {| ignoreFilter := Some ig; includeContent := ic |}
       = Some (Return results).
Proof using rs_names.
  intros Hsearch Htotal Hwf Hlisted Hlocked Hdepth.
  rewrite (grep_searching cwd (absPath rs) fs_readdir getFile depth
             searchString _ Hsearch).
  cbn [ignoreFilter]. cbv zeta.
  rewrite <- (app_nil_r rs) in Hlisted.
  pose proof (walk_finishes cwd rs rs_names fs_readdir ig items [] depth
                true Htotal Hwf (Forall_nil _) Hlisted Hlocked Hdepth)
    as Hdone.
  change (relPath []) with "" in Hdone.
  destruct (getDirectoryTree cwd (absPath rs) fs_readdir depth "" (Some ig)
              true) as [entries ending].
  cbn [fst snd] in *. subst ending.
  destruct (filterNotIgnored_returns ig
              (map (fun file => Path.join [absPath rs; file]) entries)
              Htotal) as (files & Hfiles).
  cbn [filesToSearch]. rewrite Hfiles.
  eexists. eexists. split; reflexivity.
Qed.

(** C10: with an ignore predicate, [grep] searches the files that pass the
    predicate twice.  The walk from the root applies it to root-relative
    paths; when the walk has returned, the walked entries are joined to the
    root and filtered again with the predicate applied to the absolute path,
    and the results are those of the files that are left.  So every path
    [grep] reads is the absolute form of a walked entry on which the
    predicate returned [false], and on whose root-relative form, the path
    handed to [getFile], it returned [false] too.  An error of the walk or of
    the second filter is an error of [grep]; on a finite tree whose reached
    directories can be listed, with a predicate that does not throw, [grep]
    returns. *)
Theorem C10_grep_filters_twice
  (ig : string -> completion bool)
  (searchString : string) (ic : option IncludeContent)
  (Hsearch : searchString <> "")
  (Hnames : namesOnly fs_readdir) :
  let options := {| ignoreFilter := Some ig; includeContent := ic |} in
  (forall depth entries,
      getDirectoryTree cwd (absPath rs) fs_readdir depth "" (Some ig) true
      = (entries, Done) ->
      let allFiles := map (fun e => Path.join [absPath rs; e]) entries in
      grep cwd (absPath rs) fs_readdir getFile depth searchString options
      = Some match filesToSearch (Some ig) allFiles with
             | Return files =>
                 Return (flat_map
                           (grepFile cwd (absPath rs) getFile searchString
                              (linesBeforeOf options) (linesAfterOf options))
                           files)
             | Throw e => Throw e
             end
      /\ (forall p : string -> bool,
            (forall f, ig f = Return (p f)) ->
            filesToSearch (Some ig) allFiles
            = Return (filter (fun f => negb (p f)) allFiles))
      /\ forall files,
           filesToSearch (Some ig) allFiles = Return files ->
           forall f, In f files ->
             exists (ns : list string) (isDir : bool),
               ns <> []
               /\ In (relPath ns ++ dirMark isDir) entries
               /\ f = absPath (rs ++ ns) ++ dirMark isDir
               /\ ig f = Return false
               /\ ig (relPath ns) = Return false
               /\ Path.relative cwd (absPath rs) f = relPath ns)
  /\ (forall depth e,
        snd (getDirectoryTree cwd (absPath rs) fs_readdir depth ""
               (Some ig) true) = Thrown e ->
        grep cwd (absPath rs) fs_readdir getFile depth searchString options
        = Some (Throw e))
  /\ (forall items depth,
        totalFilter ig ->
        forallb wfEnt items = true ->
        listed fs_readdir rs items ->
        (forall ns n e, reaches items ns (LockedDir n e) ->
                        ~ unignoredBelow ig [] ns) ->
        (list_max (map height items) < depth)%nat ->
        exists entries results,
          getDirectoryTree cwd (absPath rs) fs_readdir depth "" (Some ig) true
          = (entries, Done)
          /\ grep cwd (absPath rs) fs_readdir getFile depth searchString
               options
             = Some (Return results)).
Proof using rs_names.
  intros options. split; [ | split].
  - intros depth entries Hwalk allFiles.
    split; [ | split].
    + rewrite (grep_searching cwd (absPath rs) fs_readdir getFile depth
               searchString options Hsearch).
      cbn [options ignoreFilter]. cbv zeta. rewrite Hwalk. cbn [fst snd].
      fold allFiles. now destruct (filesToSearch (Some ig) allFiles).
    + intros p Hp. now apply filterNotIgnored_pointwise.
    + intros files Hfiles f Hf.
      destruct (filterNotIgnored_kept ig allFiles files Hfiles f Hf)
        as [Hin Hig].
      apply in_map_iff in Hin. destruct Hin as (e & <- & He).
      assert (Hyield : yieldedBelow ig [] e).
      { apply (walk_yields cwd rs rs_names fs_readdir ig Hnames depth true []
                 (Forall_nil _)).
        change (relPath []) with "". now rewrite Hwalk. }
      destruct Hyield as (ns & isDir & Hne & Hns & -> & Hk).
      simpl app in *.
      exists ns, isDir.
      rewrite (join_abs_below rs ns isDir Hne rs_names Hns) in *.
      repeat split; auto.
      * specialize (Hk (length ns)). rewrite firstn_all in Hk. apply Hk.
        destruct ns; [congruence | simpl; lia].
      * now apply relative_root_below.
  - intros depth e Hthrown.
    rewrite (grep_searching cwd (absPath rs) fs_readdir getFile depth
               searchString options Hsearch).
    cbn [options ignoreFilter]. cbv zeta. now rewrite Hthrown.
  - intros items depth Htotal Hwf Hlisted Hlocked Hdepth.
    now apply (grep_returns ig searchString ic items depth).
Qed.

End GrepProperties.

(** *** Substring search *)





(** *** Lines and windows *)







Section GrepLines.

Variable cwd : string.
Variable rootDirectory : string.
Variable getFile : string -> completion string.


End GrepLines.

Section GrepResults.

Variable cwd : string.
Variable rs : list string.
Hypothesis rs_names : Forall (fun n => isName n = true) rs.
Variable fs_readdir : string -> completion (list Dirent).
Variable getFile : string -> completion string.


End GrepResults.

(** ** The small project *)

Lemma listingOf_names (path : string) (segs : list string) :
  forall items,
    forallb wfEnt items = true ->
    forall l,
      listingOf path items segs = Return l ->
      Forall (fun item => isName (name item) = true) l.
Proof.
  induction segs as [|s segs IH]; intros items Hwf l H.
  - injection H as <-. apply Forall_forall. intros item Hin.
    apply in_map_iff in Hin. destruct Hin as (t & <- & Ht).
    rewrite forallb_forall in Hwf. apply wfEnt_name. auto.
  - induction items as [|t items IHitems]; [discriminate | ].
    cbn [forallb] in Hwf. apply andb_true_iff in Hwf.
    destruct Hwf as [Ht Hitems]. cbn [listingOf] in H.
    destruct (entName t =? s); [ | now apply IHitems].
    destruct t as [n | n children | n e]; try discriminate.
    apply (IH children); [ | exact H].
    cbn [wfEnt] in Ht. now apply andb_true_iff in Ht.
Qed.

(** The [readdir] of a tree of names reports names. *)
Lemma readdirOf_names (rs : list string) (rootItems : list Tree) :
  forallb wfEnt rootItems = true -> namesOnly (readdirOf rs rootItems).
Proof.
  intros Hwf dir items H. unfold readdirOf in H.
  destruct (dropPrefix rs (Path.segments dir)) as [segs|]; [ | discriminate].
  now apply (listingOf_names dir segs rootItems).
Qed.

Lemma demoRoot_names : Forall (fun n => isName n = true) demoRoot.
Proof. repeat constructor. Qed.

Lemma demoReaddir_names : namesOnly demoReaddir.
Proof. now apply readdirOf_names. Qed.

Lemma demoReaddir_listed : listed demoReaddir demoRoot demoTree.
Proof. split; [reflexivity | ]. repeat constructor. Qed.

Lemma demoIgnore_total : totalFilter demoIgnore.
Proof. intros p. now exists (demoIgnores p). Qed.

Example walk_prunes_node_modules :
  getDirectoryTree "/w" (absPath demoRoot) demoReaddir 3 ""
    (Some demoIgnore) true
  = (["src/"; "src/a.ts"; "README.md"], Done).
Proof. reflexivity. Qed.

Example walk_one_level :
  getDirectoryTree "/w" (absPath demoRoot) demoReaddir 1 ""
    (Some demoIgnore) false
  = (["src/"; "README.md"], Done).
Proof. reflexivity. Qed.

(** A walk that is allowed one call only stops where it would call itself. *)
Example walk_needs_depth :
  getDirectoryTree "/w" (absPath demoRoot) demoReaddir 1 ""
    (Some demoIgnore) true
  = (["src/"], Pending).
Proof. reflexivity. Qed.

(** A directory that cannot be listed ends the walk with the error of
    [readdir], after its own path has been yielded; what stands after it is
    not reached. *)
Example walk_stops_at_unlistable_directory :
  getDirectoryTree "/w" (absPath demoRoot) (readdirOf demoRoot demoLockedTree)
    3 "" (Some demoIgnore) true
  = (["src/"; "src/a.ts"; "vault/"],
     Thrown (scandirError "EACCES" "permission denied"
               "/home/user/project/vault")).
Proof. reflexivity. Qed.

(** Reading a file as a directory, and a directory that does not exist. *)
Example walk_of_a_file_or_a_missing_directory :
  getDirectoryTree "/w" (absPath demoRoot) demoReaddir 3 "README.md"
    (Some demoIgnore) true
  = ([], Thrown (scandirError "ENOTDIR" "not a directory"
                   "/home/user/project/README.md"))
  /\ getDirectoryTree "/w" (absPath demoRoot) demoReaddir 3 "lib"
       (Some demoIgnore) true
     = ([], Thrown (scandirError "ENOENT" "no such file or directory"
                      "/home/user/project/lib")).
Proof. split; reflexivity. Qed.

Example grep_with_context :
  grep "/w" (absPath demoRoot) demoReaddir demoGetFile 3 "alpha"
    {| ignoreFilter := Some demoIgnore;
       includeContent :=
         Some {| linesBefore := Some 1%Z; linesAfter := None |} |}
  = Some (Return
      [mkGrepResult "src/a.ts" 1 "alpha" (Some "alpha");
       mkGrepResult "src/a.ts" 2 "beta alpha"
         (Some (Js.join (String "010" "") ["alpha"; "beta alpha"]))]).
Proof. reflexivity. Qed.

(** The second filter sees absolute paths: a predicate that rejects the
    absolute form of a file keeps it out of the search although the walk
    yielded it. *)
Example grep_second_filter_on_absolute_path :
  grep "/w" (absPath demoRoot) demoReaddir demoGetFile 3 "gamma"
    {| ignoreFilter :=
         Some (fun p => Return (p =? "/home/user/project/src/a.ts"));
       includeContent := None |}
  = Some (Return [])
  /\ grep "/w" (absPath demoRoot) demoReaddir demoGetFile 3 "gamma"
       {| ignoreFilter := Some (fun _ => Return false);
          includeContent := None |}
     = Some (Return [mkGrepResult "src/a.ts" 3 "gamma" None]).
Proof. split; reflexivity. Qed.

(** An error of the walk is an error of [grep]: the results found before it
    are lost. *)
Example grep_fails_with_the_walk :
  grep "/w" (absPath demoRoot) (readdirOf demoRoot demoLockedTree)
    demoGetFile 3 "alpha"
    {| ignoreFilter := Some demoIgnore; includeContent := None |}
  = Some (Throw (scandirError "EACCES" "permission denied"
                   "/home/user/project/vault")).
Proof. reflexivity. Qed.


(** The statement of C7 for the walk of the small project from its root. *)
Lemma C7_walk_never_yields_ignored_witness :
  namesOnly demoReaddir
  /\ forall e,
       In e (fst (getDirectoryTree "/w" (absPath demoRoot) demoReaddir 3
                    (relPath []) (Some demoIgnore) true)) ->
       exists (ns : list string) (isDir : bool),
         ns <> []
         /\ Forall (fun n => isName n = true) ns
         /\ e = relPath ([] ++ ns) ++ dirMark isDir
         /\ forall k, (1 <= k <= length ns)%nat ->
                      demoIgnore (relPath ([] ++ firstn k ns)) = Return false.
Proof.
  split; [exact demoReaddir_names | ].
  destruct (C7_walk_never_yields_ignored "/w" demoRoot demoRoot_names
              demoReaddir demoIgnore [] true demoReaddir_names
              (Forall_nil _)) as [Hyields _].
  exact (Hyields 3%nat).
Defined.

(** The statement of C10 for a search of the small project. *)
Lemma C10_grep_filters_twice_witness :
  exists files,
    filesToSearch (Some demoIgnore)
      (map (fun e => Path.join [absPath demoRoot; e])
         ["src/"; "src/a.ts"; "README.md"]) = Return files
    /\ forall f, In f files ->
         exists (ns : list string) (isDir : bool),
           f = absPath (demoRoot ++ ns) ++ dirMark isDir
           /\ demoIgnore f = Return false
           /\ demoIgnore (relPath ns) = Return false.
Proof.
  destruct (C10_grep_filters_twice "/w" demoRoot demoRoot_names demoReaddir
              demoGetFile demoIgnore "alpha" None)
    as [Hfiles _].
  - discriminate.
  - exact demoReaddir_names.
  - destruct (Hfiles 3%nat ["src/"; "src/a.ts"; "README.md"] eq_refl)
      as (_ & _ & Hread).
    eexists. split; [reflexivity | ].
    intros f Hf.
    destruct (Hread _ eq_refl f Hf) as (ns & isDir & _ & _ & H1 & H2 & H3 & _).
    now exists ns, isDir.
Defined.


(** * Further properties of the provider *)

(** ** glob *)

(** X1: [glob] leaves the filesystem as it was and either returns or raises
    an error whose message starts with "Glob operation failed: ".  It returns
    exactly when the pattern expansion returns and the ignore predicate
    returns on every match; the result then holds only matches on which the
    predicate is false, and for a predicate that never throws it is the list
    of the matches, in their order, without the ignored ones.  An error of
    the expansion or of the predicate is wrapped: only its message is
    kept. *)
Theorem X1_glob_filters_and_wraps
  (World : Type) (root : string)
  (globSync : string -> GlobSyncOptions -> World -> completion (list string))
  (pattern : string) (ig : string -> completion bool) (w : World) :
  let options := {| gs_cwd := root; gs_dot := true; gs_nodir := true;
                    gs_absolute := false |} in
  snd (glob World root globSync pattern ig w) = w
  /\ (forall kept,
        fst (glob World root globSync pattern ig w) = Return kept ->
        exists files,
          globSync pattern options w = Return files
          /\ forall f, In f kept -> In f files /\ ig f = Return false)
  /\ (forall e,
        fst (glob World root globSync pattern ig w) = Throw e ->
        exists cause,
          e = Error ("Glob operation failed: " ++ err_message cause)
          /\ (globSync pattern options w = Throw cause
              \/ exists files f,
                   globSync pattern options w = Return files
                   /\ In f files /\ ig f = Throw cause))
  /\ (forall (p : string -> bool) files,
        globSync pattern options w = Return files ->
        glob World root globSync pattern (fun f => Return (p f)) w
        = (Return (filter (fun f => negb (p f)) files), w)).
Proof.
  intros options. unfold glob. fold options.
  destruct (globSync pattern options w) as [files|cause] eqn:Hglob.
  - destruct (filterNotIgnored ig files) as [kept|cause] eqn:Hfilter; simpl.
    + repeat split; try discriminate.
      * intros kept' H. injection H as <-. exists files.
        split; [reflexivity | ].
        now apply filterNotIgnored_kept.
      * intros p files' H. injection H as <-.
        now rewrite filterNotIgnored_total.
    + repeat split; try discriminate.
      * intros e H. injection H as <-. exists cause. split; [reflexivity | ].
        right. destruct (filterNotIgnored_throws ig files cause Hfilter)
          as (f & Hf & Hig).
        now exists files, f.
      * intros p files' H. injection H as <-.
        now rewrite filterNotIgnored_total.
  - simpl. repeat split; try discriminate.
    intros e H. injection H as <-. exists cause. auto.
Qed.

(** ** Operations on a filesystem, continued *)

Section MoreProviderProperties.

Variable World : Type.
Variable cwd : string.
Variable rootDirectory : string.
Variable fs_pathExists : string -> World -> bool.
Variable fs_stat : string -> IO World Stats.
Variable fs_ensureDir : string -> IO World unit.
Variable fs_writeFile : string -> string -> IO World unit.
Variable fs_appendFile : string -> string -> IO World unit.
Variable fs_remove : string -> IO World unit.
Variable fs_readFileSync : string -> option string -> IO World string.
Variable fs_rename : string -> string -> IO World unit.
Variable fs_mkdir : string -> IO World unit.
Variable fs_copy : string -> string -> bool -> IO World unit.
Variable fs_chmod : string -> Z -> IO World unit.

#[local] Abbreviation resolvePath :=
  (relativeOrAbsolutePathToAbsolutePath cwd rootDirectory).

(** X2: [watch] raises "Directory ... does not exist" exactly when the
    directory, resolved against the root, does not exist, and never changes
    the filesystem.  Otherwise it starts one watcher, and what it hands to
    chokidar does not depend on the directory asked for: the watched path is
    always ["./"] under the root (given relative to the working directory of
    the process), the ignore decision is the one built from the predicate,
    and the thresholds default to 2000 and 1000 milliseconds. *)
Theorem X2_watch_always_watches_the_root
  (dir : string) (ig : string -> completion bool)
  (pollInterval stabilityThreshold : option Z) (w : World) :
  snd (watch World cwd rootDirectory fs_pathExists dir ig pollInterval
         stabilityThreshold w) = w
  /\ (fs_pathExists (Path.resolve cwd [rootDirectory; dir]) w = false <->
      fst (watch World cwd rootDirectory fs_pathExists dir ig pollInterval
             stabilityThreshold w)
      = Throw (Error ("Directory " ++ dir ++ " does not exist")))
  /\ (fs_pathExists (Path.resolve cwd [rootDirectory; dir]) w = true <->
      exists config,
        fst (watch World cwd rootDirectory fs_pathExists dir ig pollInterval
               stabilityThreshold w) = Return config)
  /\ (forall config,
        fst (watch World cwd rootDirectory fs_pathExists dir ig pollInterval
               stabilityThreshold w) = Return config ->
        wc_paths config = "./"
        /\ wc_cwd config = Path.relative cwd cwd rootDirectory
        /\ wc_ignored config = ignored ig
        /\ wc_stabilityThreshold config
           = match stabilityThreshold with Some t => t | None => 2000%Z end
        /\ wc_pollInterval config
           = match pollInterval with Some t => t | None => 1000%Z end
        /\ forall other,
             fs_pathExists (Path.resolve cwd [rootDirectory; other]) w = true ->
             watch World cwd rootDirectory fs_pathExists other ig pollInterval
               stabilityThreshold w = (Return config, w)).
Proof using Type.
  unfold watch, bind, pathExists, throw, ret.
  destruct (fs_pathExists (Path.resolve cwd [rootDirectory; dir]) w) eqn:Hdir;
    simpl.
  - split; [reflexivity | ].
    split; [split; discriminate | ].
    split; [split; [intros _; eexists; reflexivity | reflexivity] | ].
    intros config Hconfig. injection Hconfig as <-. simpl.
    repeat split.
    intros other Hother. now rewrite Hother.
  - split; [reflexivity | ].
    split; [split; reflexivity | ].
    split; [split; [discriminate | intros (config & H); discriminate] | ].
    discriminate.
Qed.

(** X3: [deleteFile] and [readFile] guard the call they make.  For a path
    that resolves, a missing path raises "File ... does not exist" with the
    filesystem untouched, and a path that [fs.stat] does not report as a
    regular file raises "Path ... is not a file" without [fs.remove] or
    [fs.readFileSync] being called; [deleteFile] returns, with [true], only
    when the path existed, was a regular file and [fs.remove] succeeded, and
    [readFile] returns only what [fs.readFileSync] returned for such a
    file. *)
Theorem X3_delete_and_read_guard_their_target
  (filePath absolutePath : string) (encoding : option string) (w : World)
  (Hresolve : resolvePath filePath = Return absolutePath) :
  (fs_pathExists absolutePath w = false ->
   deleteFile World cwd rootDirectory fs_pathExists fs_stat fs_remove
     filePath w
   = (Throw (Error ("File " ++ filePath ++ " does not exist")), w)
   /\ readFile World cwd rootDirectory fs_pathExists fs_stat fs_readFileSync
        filePath encoding w
      = (Throw (Error ("File " ++ filePath ++ " does not exist")), w))
  /\ (forall stats w1,
        fs_pathExists absolutePath w = true ->
        fs_stat absolutePath w = (Return stats, w1) ->
        st_isFile stats = false ->
        deleteFile World cwd rootDirectory fs_pathExists fs_stat fs_remove
          filePath w
        = (Throw (Error ("Path " ++ filePath ++ " is not a file")), w1)
        /\ readFile World cwd rootDirectory fs_pathExists fs_stat
             fs_readFileSync filePath encoding w
           = (Throw (Error ("Path " ++ filePath ++ " is not a file")), w1))
  /\ (forall b w2,
        deleteFile World cwd rootDirectory fs_pathExists fs_stat fs_remove
          filePath w = (Return b, w2) ->
        b = true
        /\ fs_pathExists absolutePath w = true
        /\ exists stats w1,
             fs_stat absolutePath w = (Return stats, w1)
             /\ st_isFile stats = true
             /\ fs_remove absolutePath w1 = (Return tt, w2))
  /\ (forall text w2,
        readFile World cwd rootDirectory fs_pathExists fs_stat
          fs_readFileSync filePath encoding w = (Return text, w2) ->
        fs_pathExists absolutePath w = true
        /\ exists stats w1,
             fs_stat absolutePath w = (Return stats, w1)
             /\ st_isFile stats = true
             /\ fs_readFileSync absolutePath encoding w1 = (Return text, w2)).
Proof using Type.
  unfold deleteFile, readFile.
  rewrite !(bind_lift_return World _ _ absolutePath w Hresolve).
  unfold bind, pathExists, throw, ret.
  destruct (fs_pathExists absolutePath w) eqn:Hexists; simpl.
  - split; [discriminate | ].
    destruct (fs_stat absolutePath w) as [[stats|e] w1] eqn:Hstat.
    + destruct (st_isFile stats) eqn:Hfile; simpl.
      * split.
        { intros stats' w1' _ H. injection H as <- <-. congruence. }
        split.
        { intros b w2 H.
          destruct (fs_remove absolutePath w1) as [[[]|e] w2'] eqn:Hremove;
            [ | discriminate].
          injection H as <- <-. repeat split.
          exists stats, w1. auto. }
        intros text w2 H. split; [reflexivity | ].
        exists stats, w1. auto.
      * split.
        { intros stats' w1' _ H. injection H as <- <-. auto. }
        split; discriminate.
    + split; [discriminate | split; discriminate].
  - split; [auto | ].
    split; [discriminate | split; discriminate].
Qed.

(** X4: [rename] never overwrites.  For paths that resolve, a missing source
    raises "Path ... does not exist" and an existing destination raises
    "Path ... already exists", both with the filesystem untouched; the source
    is checked first.  So renaming an existing path onto itself always
    fails.  When [rename] returns, the source existed, the destination did
    not, and the parent directory of the destination was ensured before the
    one call of [fs.rename]. *)
Theorem X4_rename_never_overwrites
  (oldPath newPath absoluteOldPath absoluteNewPath : string) (w : World)
  (Hold : resolvePath oldPath = Return absoluteOldPath)
  (Hnew : resolvePath newPath = Return absoluteNewPath) :
  (fs_pathExists absoluteOldPath w = false ->
   rename World cwd rootDirectory fs_pathExists fs_ensureDir fs_rename
     oldPath newPath w
   = (Throw (Error ("Path " ++ oldPath ++ " does not exist")), w))
  /\ (fs_pathExists absoluteOldPath w = true ->
      fs_pathExists absoluteNewPath w = true ->
      rename World cwd rootDirectory fs_pathExists fs_ensureDir fs_rename
        oldPath newPath w
      = (Throw (Error ("Path " ++ newPath ++ " already exists")), w))
  /\ (fs_pathExists absoluteOldPath w = true ->
      rename World cwd rootDirectory fs_pathExists fs_ensureDir fs_rename
        oldPath oldPath w
      = (Throw (Error ("Path " ++ oldPath ++ " already exists")), w))
  /\ (forall b w2,
        rename World cwd rootDirectory fs_pathExists fs_ensureDir fs_rename
          oldPath newPath w = (Return b, w2) ->
        b = true
        /\ fs_pathExists absoluteOldPath w = true
        /\ fs_pathExists absoluteNewPath w = false
        /\ exists w1,
             fs_ensureDir (Path.dirname absoluteNewPath) w = (Return tt, w1)
             /\ fs_rename absoluteOldPath absoluteNewPath w1 = (Return tt, w2)).
Proof using Type.
  split; [ | split; [ | split]].
  - intros Hmissing. unfold rename.
    rewrite (bind_lift_return World _ _ absoluteOldPath w Hold).
    rewrite (bind_lift_return World _ _ absoluteNewPath w Hnew).
    unfold bind, pathExists, throw. now rewrite Hmissing.
  - intros HoldExists HnewExists. unfold rename.
    rewrite (bind_lift_return World _ _ absoluteOldPath w Hold).
    rewrite (bind_lift_return World _ _ absoluteNewPath w Hnew).
    unfold bind, pathExists, throw. rewrite HoldExists. simpl.
    now rewrite HnewExists.
  - intros HoldExists. unfold rename.
    rewrite (bind_lift_return World _ _ absoluteOldPath w Hold).
    rewrite (bind_lift_return World _ _ absoluteOldPath w Hold).
    unfold bind, pathExists, throw. rewrite HoldExists. simpl.
    now rewrite HoldExists.
  - intros b w2. unfold rename.
    rewrite (bind_lift_return World _ _ absoluteOldPath w Hold).
    rewrite (bind_lift_return World _ _ absoluteNewPath w Hnew).
    unfold bind, pathExists, throw, ret.
    destruct (fs_pathExists absoluteOldPath w); simpl; [ | discriminate].
    destruct (fs_pathExists absoluteNewPath w); simpl; [discriminate | ].
    destruct (fs_ensureDir (Path.dirname absoluteNewPath) w)
      as [[[]|e] w1] eqn:Hensure; [ | discriminate].
    destruct (fs_rename absoluteOldPath absoluteNewPath w1)
      as [[[]|e] w2'] eqn:Hrename; [ | discriminate].
    intros H. injection H as <- <-. repeat split. exists w1. auto.
Qed.

(** X5: [copy] overwrites only when asked.  For paths that resolve, a
    missing source raises "Source path ... does not exist"; with [overwrite]
    false, an existing destination raises "Destination path ... already
    exists"; in both cases nothing is copied and the filesystem is
    untouched.  With [overwrite] true the destination is not looked at: for
    an existing source the outcome is that of [fs.copy] called with
    [overwrite] true. *)
Theorem X5_copy_overwrites_only_on_request
  (source destination absoluteSource absoluteDestination : string)
  (w : World)
  (Hsource : resolvePath source = Return absoluteSource)
  (Hdestination : resolvePath destination = Return absoluteDestination) :
  (forall overwrite,
      fs_pathExists absoluteSource w = false ->
      copy World cwd rootDirectory fs_pathExists fs_copy source destination
        overwrite w
      = (Throw (Error ("Source path " ++ source ++ " does not exist")), w))
  /\ (fs_pathExists absoluteSource w = true ->
      fs_pathExists absoluteDestination w = true ->
      copy World cwd rootDirectory fs_pathExists fs_copy source destination
        false w
      = (Throw (Error ("Destination path " ++ destination
                       ++ " already exists")), w))
  /\ (fs_pathExists absoluteSource w = true ->
      fs_pathExists absoluteDestination w = false ->
      copy World cwd rootDirectory fs_pathExists fs_copy source destination
        false w
      = match fs_copy absoluteSource absoluteDestination false w with
        | (Return _, w1) => (Return true, w1)
        | (Throw e, w1) => (Throw e, w1)
        end)
  /\ (fs_pathExists absoluteSource w = true ->
      copy World cwd rootDirectory fs_pathExists fs_copy source destination
        true w
      = match fs_copy absoluteSource absoluteDestination true w with
        | (Return _, w1) => (Return true, w1)
        | (Throw e, w1) => (Throw e, w1)
        end).
Proof using Type.
  unfold copy.
  split; [ | split; [ | split]].
  - intros overwrite Hmissing.
    rewrite (bind_lift_return World _ _ absoluteSource w Hsource).
    rewrite (bind_lift_return World _ _ absoluteDestination w Hdestination).
    unfold bind, pathExists, throw. now rewrite Hmissing.
  - intros Hs Hd.
    rewrite (bind_lift_return World _ _ absoluteSource w Hsource).
    rewrite (bind_lift_return World _ _ absoluteDestination w Hdestination).
    unfold bind, pathExists, throw. rewrite Hs. simpl. now rewrite Hd.
  - intros Hs Hd.
    rewrite (bind_lift_return World _ _ absoluteSource w Hsource).
    rewrite (bind_lift_return World _ _ absoluteDestination w Hdestination).
    unfold bind, pathExists, throw, ret. rewrite Hs. simpl. rewrite Hd. simpl.
    now destruct (fs_copy absoluteSource absoluteDestination false w)
      as [[[]|e] w1].
  - intros Hs.
    rewrite (bind_lift_return World _ _ absoluteSource w Hsource).
    rewrite (bind_lift_return World _ _ absoluteDestination w Hdestination).
    unfold bind, pathExists, throw, ret. rewrite Hs. simpl.
    now destruct (fs_copy absoluteSource absoluteDestination true w)
      as [[[]|e] w1].
Qed.

(** X6: [createDirectory] is idempotent and tells a missing parent apart.
    For a path that resolves: when the path exists and is a directory it
    returns [true] without creating anything, whatever the [recursive] flag;
    when it exists and is not a directory it raises "... exists but is not a
    directory".  When the path is missing and [recursive] is false, an
    [ENOENT] of [fs.mkdir] is raised as "Parent directory for ... does not
    exist" and any other error of [fs.mkdir] is raised as it is. *)
Theorem X6_createDirectory_idempotent_and_parent_missing
  (dirPath absolutePath : string) (w : World)
  (Hresolve : resolvePath dirPath = Return absolutePath) :
  (forall recursive stats w1,
      fs_pathExists absolutePath w = true ->
      fs_stat absolutePath w = (Return stats, w1) ->
      createDirectory World cwd rootDirectory fs_pathExists fs_stat
        fs_ensureDir fs_mkdir dirPath recursive w
      = if st_isDirectory stats then (Return true, w1)
        else (Throw (Error ("Path " ++ dirPath
                            ++ " exists but is not a directory")), w1))
  /\ (forall error w1,
        fs_pathExists absolutePath w = false ->
        fs_mkdir absolutePath w = (Throw error, w1) ->
        createDirectory World cwd rootDirectory fs_pathExists fs_stat
          fs_ensureDir fs_mkdir dirPath false w
        = if isENOENT error
          then (Throw (Error ("Parent directory for " ++ dirPath
                              ++ " does not exist")), w1)
          else (Throw error, w1))
  /\ (forall w1,
        fs_pathExists absolutePath w = false ->
        fs_mkdir absolutePath w = (Return tt, w1) ->
        createDirectory World cwd rootDirectory fs_pathExists fs_stat
          fs_ensureDir fs_mkdir dirPath false w = (Return true, w1))
  /\ (fs_pathExists absolutePath w = false ->
      createDirectory World cwd rootDirectory fs_pathExists fs_stat
        fs_ensureDir fs_mkdir dirPath true w
      = match fs_ensureDir absolutePath w with
        | (Return _, w1) => (Return true, w1)
        | (Throw e, w1) => (Throw e, w1)
        end).
Proof using Type.
  split; [ | split; [ | split]].
  - intros recursive stats w1 Hexists Hstat. unfold createDirectory.
    rewrite (bind_lift_return World _ _ absolutePath w Hresolve).
    unfold bind, pathExists, throw, ret. rewrite Hexists. simpl.
    rewrite Hstat. now destruct (st_isDirectory stats).
  - intros error w1 Hmissing Hmkdir. unfold createDirectory.
    rewrite (bind_lift_return World _ _ absolutePath w Hresolve).
    unfold bind, pathExists, throw, ret, tryCatch. rewrite Hmissing. simpl.
    rewrite Hmkdir. now destruct (isENOENT error).
  - intros w1 Hmissing Hmkdir. unfold createDirectory.
    rewrite (bind_lift_return World _ _ absolutePath w Hresolve).
    unfold bind, pathExists, throw, ret, tryCatch. rewrite Hmissing. simpl.
    now rewrite Hmkdir.
  - intros Hmissing. unfold createDirectory.
    rewrite (bind_lift_return World _ _ absolutePath w Hresolve).
    unfold bind, pathExists, throw, ret. rewrite Hmissing. simpl.
    now destruct (fs_ensureDir absolutePath w) as [[[]|e] w1].
Qed.

(** X7: [chmod] reports a missing path before it calls [fs.chmod], and wraps
    every error of [fs.chmod] with the path: for a path that resolves, a
    missing path raises "Path ... does not exist" with the filesystem
    untouched, and an error of [fs.chmod] with message [m] is raised as
    "Failed to change permissions for ...: m", its code dropped. *)
Theorem X7_chmod_wraps_errors
  (filePath absolutePath : string) (mode : Z) (w : World)
  (Hresolve : resolvePath filePath = Return absolutePath) :
  (fs_pathExists absolutePath w = false ->
   chmod World cwd rootDirectory fs_pathExists fs_chmod filePath mode w
   = (Throw (Error ("Path " ++ filePath ++ " does not exist")), w))
  /\ (forall error w1,
        fs_pathExists absolutePath w = true ->
        fs_chmod absolutePath mode w = (Throw error, w1) ->
        chmod World cwd rootDirectory fs_pathExists fs_chmod filePath mode w
        = (Throw (Error ("Failed to change permissions for " ++ filePath
                         ++ ": " ++ err_message error)), w1))
  /\ (forall w1,
        fs_pathExists absolutePath w = true ->
        fs_chmod absolutePath mode w = (Return tt, w1) ->
        chmod World cwd rootDirectory fs_pathExists fs_chmod filePath mode w
        = (Return true, w1)).
Proof using Type.
  split; [ | split].
  - intros Hmissing. unfold chmod.
    rewrite (bind_lift_return World _ _ absolutePath w Hresolve).
    unfold bind, pathExists, throw. now rewrite Hmissing.
  - intros error w1 Hexists Hchmod. unfold chmod.
    rewrite (bind_lift_return World _ _ absolutePath w Hresolve).
    unfold bind, pathExists, throw, ret, tryCatch. rewrite Hexists. simpl.
    now rewrite Hchmod.
  - intros w1 Hexists Hchmod. unfold chmod.
    rewrite (bind_lift_return World _ _ absolutePath w Hresolve).
    unfold bind, pathExists, throw, ret, tryCatch. rewrite Hexists. simpl.
    now rewrite Hchmod.
Qed.

(** *** The parent directory of a written file *)

Lemma list_ascii_app (a b : string) :
  list_ascii_of_string (a ++ b)
  = (list_ascii_of_string a ++ list_ascii_of_string b)%list.
Proof using Type.
  induction a as [|c a IH]; simpl; [reflexivity | now rewrite IH].
Qed.

Lemma noSep_chars (n : string) :
  noSep "/" n = true ->
  Forall (fun c => Ascii.eqb c "/" = false) (list_ascii_of_string n).
Proof using Type.
  induction n as [|c n IH]; simpl; [constructor | ].
  intros H. apply andb_true_iff in H. destruct H as [Hc Hn].
  apply negb_true_iff in Hc. constructor; auto.
Qed.

Lemma dirnameScan_segment (seg rest : list ascii) (matchedSlash : bool) :
  Forall (fun c => Ascii.eqb c "/" = false) seg -> seg <> [] ->
  Path.dirnameScan (seg ++ rest) matchedSlash = Path.dirnameScan rest false.
Proof using Type.
  intros Hseg. revert matchedSlash.
  induction Hseg as [|c seg Hc _ IH]; intros matchedSlash Hne;
    [congruence | ].
  simpl. rewrite Hc. destruct seg as [|d seg]; [reflexivity | ].
  apply IH. discriminate.
Qed.

(** [dirname] of a path made of names is the path of the names before the
    last one. *)
Lemma dirname_absPath (xs : list string) (n : string) :
  Forall (fun m => isName m = true) xs -> isName n = true ->
  Path.dirname (absPath (xs ++ [n])) = absPath xs.
Proof using Type.
  intros Hxs Hn.
  pose proof (isName_spec n Hn) as (Hsep & Hne & _).
  assert (Hchars : Forall (fun c => Ascii.eqb c "/" = false)
                     (rev (list_ascii_of_string n))).
  { apply Forall_rev. now apply noSep_chars. }
  assert (Hrev : rev (list_ascii_of_string n) <> []).
  { destruct n as [|c n]; [discriminate | ]. simpl.
    intros H. apply (f_equal (@List.length ascii)) in H.
    rewrite length_app in H. simpl in H. lia. }
  destruct xs as [|x xs].
  - change (absPath ([] ++ [n])) with (String "/" n).
    unfold Path.dirname.
    rewrite <- (app_nil_r (rev (list_ascii_of_string n))).
    now rewrite (dirnameScan_segment _ [] true Hchars Hrev).
  - rewrite absPath_app by discriminate.
    change (relPath [n]) with n.
    inversion Hxs as [|? ? Hx Hxs']; subst.
    destruct (relPath_first_char x xs Hx) as (c & t & Hrel & _).
    change (absPath (x :: xs)) with (String "/" (relPath (x :: xs))).
    rewrite Hrel.
    change (String "/" (String c t) ++ "/" ++ n)
      with (String "/" (String c t ++ String "/" n)).
    unfold Path.dirname.
    rewrite list_ascii_app.
    change (list_ascii_of_string (String "/" n))
      with ("/"%char :: list_ascii_of_string n).
    rewrite rev_app_distr.
    change (rev ("/"%char :: list_ascii_of_string n))
      with (rev (list_ascii_of_string n) ++ ["/"%char])%list.
    rewrite <- app_assoc.
    rewrite (dirnameScan_segment _ _ true Hchars Hrev).
    change (Path.dirnameScan
              (["/"%char] ++ rev (list_ascii_of_string (String c t))) false)
      with (Some (rev (list_ascii_of_string (String c t)))).
    cbv iota beta.
    destruct (rev (list_ascii_of_string (String c t))) as [|d r] eqn:Hr.
    { apply (f_equal (@List.length ascii)) in Hr.
      simpl in Hr. rewrite length_app in Hr. simpl in Hr. lia. }
    rewrite <- Hr, rev_involutive.
    now rewrite string_of_list_ascii_of_string.
Qed.

End MoreProviderProperties.

(** ** The path resolver on paths made of names *)

Lemma normalizeSegs_plain (allow : bool) (segs acc : list string) :
  Forall plainSeg segs ->
  Path.normalizeSegs allow acc segs = (rev acc ++ filter keptSeg segs)%list.
Proof.
  intros Hall. revert acc.
  induction Hall as [|s segs Hs _ IH]; intros acc; simpl.
  - now rewrite app_nil_r.
  - destruct Hs as [-> | [-> | Hs]].
    + simpl. apply IH.
    + simpl. apply IH.
    + destruct (isName_spec s Hs) as (_ & H0 & H1 & H2).
      unfold keptSeg at 1. rewrite H0, H1, H2. simpl.
      rewrite IH. simpl. now rewrite <- app_assoc.
Qed.

Lemma cleanSeg_plain (segs : list string) :
  Forall cleanSeg segs -> Forall plainSeg segs.
Proof.
  apply Forall_impl. intros s [H | H]; [now left | now right; right].
Qed.

Lemma filter_kept_clean (segs : list string) :
  Forall cleanSeg segs -> filter keptSeg segs = filter nonEmpty segs.
Proof.
  induction 1 as [|s segs Hs _ IH]; simpl; [reflexivity | ].
  rewrite IH. destruct Hs as [-> | Hs]; [reflexivity | ].
  destruct (isName_spec s Hs) as (_ & H0 & H1 & _).
  unfold keptSeg, nonEmpty. now rewrite H0, H1.
Qed.

Section ResolverProperties.

Variable cwd : string.
Variable rs : list string.
Hypothesis rs_names : Forall (fun n => isName n = true) rs.

#[local] Abbreviation toAbsolute :=
  (relativeOrAbsolutePathToAbsolutePath cwd (absPath rs)).
#[local] Abbreviation toRelative :=
  (relativeOrAbsolutePathToRelativePath cwd (absPath rs)).

Lemma relPath_not_absolute (ns : list string) :
  Forall (fun n => isName n = true) ns ->
  Path.isAbsolute (relPath ns) = false.
Proof using Type.
  intros Hns. destruct ns as [|n ns]; [reflexivity | ].
  inversion Hns as [|? ? Hn _]; subst.
  destruct (relPath_first_char n ns Hn) as (c & t & -> & Hc). exact Hc.
Qed.

(** A relative path made of names resolves to the root followed by the
    names. *)
Lemma resolver_relative (ns : list string) :
  Forall (fun n => isName n = true) ns ->
  toAbsolute (relPath ns) = Return (absPath (rs ++ ns)).
Proof using rs_names.
  intros Hns. unfold relativeOrAbsolutePathToAbsolutePath.
  rewrite (relPath_not_absolute ns Hns).
  now rewrite (resolve_root_rel cwd rs ns rs_names Hns).
Qed.

Lemma prefix_cons (a b : ascii) (s1 s2 : string) :
  String.prefix (String a s1) (String b s2)
  = Ascii.eqb a b && String.prefix s1 s2.
Proof using Type.
  cbn [String.prefix]. destruct (ascii_dec a b) as [-> | H].
  - now rewrite Ascii.eqb_refl.
  - apply Ascii.eqb_neq in H. now rewrite H.
Qed.

Lemma prefix_nil (s : string) : String.prefix "" s = true.
Proof using Type. now destruct s. Qed.

Lemma startsWith_dotdot_relPath (n : string) (ns : list string) :
  isName n = true ->
  Js.startsWith ".." (relPath (n :: ns)) = Js.startsWith ".." n.
Proof using Type.
  intros Hn. destruct ns as [|m ns]; [reflexivity | ].
  unfold relPath. rewrite join_cons by discriminate.
  unfold Js.startsWith.
  destruct n as [|c1 [|c2 t]]; [discriminate | | ]; cbn [append].
  - rewrite !prefix_cons. cbn [String.prefix]. now rewrite !andb_false_r.
  - now rewrite !prefix_cons, !prefix_nil.
Qed.

(** An absolute path below the root, made of names, is accepted unless the
    first name below the root starts with two dots, and is returned as it was
    given. *)
Lemma resolver_absolute (n : string) (ns : list string) (isDir : bool) :
  Forall (fun m => isName m = true) (n :: ns) ->
  toAbsolute (absPath (rs ++ n :: ns) ++ dirMark isDir)
  = if Js.startsWith ".." n
    then Throw (Error ("Path " ++ (absPath (rs ++ n :: ns) ++ dirMark isDir)
                       ++ " is outside the root directory"))
    else Return (absPath (rs ++ n :: ns) ++ dirMark isDir).
Proof using rs_names.
  intros Hns. inversion Hns as [|? ? Hn _]; subst.
  unfold relativeOrAbsolutePathToAbsolutePath.
  rewrite absPath_mark_absolute.
  rewrite (relative_root_abs cwd rs n ns isDir rs_names Hns).
  rewrite (relPath_not_absolute (n :: ns) Hns), orb_false_r.
  now rewrite (startsWith_dotdot_relPath n ns Hn).
Qed.

(** The ways of writing "the root" as a relative path. *)
Lemma resolver_root :
  toAbsolute "" = Return (absPath rs)
  /\ toAbsolute "." = Return (absPath rs)
  /\ toAbsolute "./" = Return (absPath rs).
Proof using rs_names.
  assert (H : forall d,
             Forall plainSeg (Js.split "/" d) ->
             filter keptSeg (Js.split "/" d) = [] ->
             Path.isAbsolute d = false -> d <> "" ->
             toAbsolute d = Return (absPath rs)).
  { intros d Hplain Hkept Habs Hne.
    unfold relativeOrAbsolutePathToAbsolutePath. rewrite Habs. f_equal.
    destruct d as [|c t] eqn:Hd; [congruence | ]. rewrite <- Hd in *.
    simpl in Habs. rewrite Hd in Habs. simpl in Habs.
    rewrite (resolve_of_loop cwd (absPath rs ++ "/" ++ d ++ "/" ++ "")).
    - change (absPath rs ++ "/" ++ d ++ "/" ++ "")
        with (absPath rs ++ String "/" (d ++ String "/" "")).
      destruct (split_absPath rs rs_names) as [Hc Hf].
      unfold Path.normalizeString.
      rewrite !split_app, normalizeSegs_plain.
      + rewrite !filter_app, Hkept, (filter_kept_clean _ Hc), Hf.
        simpl. now rewrite app_nil_r.
      + repeat (apply Forall_app; split); auto using cleanSeg_plain.
        apply cleanSeg_plain, clean_empty.
    - simpl rev. simpl app.
      rewrite (resolveLoop_rel cwd d "" [absPath rs] c t Hd Habs).
      apply resolveLoop_abs. reflexivity. }
  split; [ | split].
  - change "" with (relPath []). rewrite resolver_relative by constructor.
    now rewrite app_nil_r.
  - apply H; try reflexivity; try discriminate.
    constructor; [right; now left | constructor].
  - apply H; try reflexivity; try discriminate.
    constructor; [right; now left | ].
    constructor; [now left | constructor].
Qed.

(** X8: on paths made of names the two conversions are inverse to each
    other.  For a root and a relative path made of names, the absolute form
    is the root followed by the names, and the relative form is the path
    itself; the absolute form converts back to the relative path, unless its
    first name starts with two dots (then the absolute branch rejects it).
    The root itself has the relative form [""], and [""], ["."] and ["./"]
    all resolve to the root. *)
Theorem X8_resolver_round_trip (ns : list string)
  (Hns : Forall (fun n => isName n = true) ns) :
  toAbsolute (relPath ns) = Return (absPath (rs ++ ns))
  /\ toRelative (relPath ns) = Return (relPath ns)
  /\ (forall n ns', ns = n :: ns' -> Js.startsWith ".." n = false ->
        toAbsolute (absPath (rs ++ ns)) = Return (absPath (rs ++ ns))
        /\ toRelative (absPath (rs ++ ns)) = Return (relPath ns))
  /\ toRelative (absPath rs) = Return ""
  /\ toAbsolute "." = Return (absPath rs)
  /\ toAbsolute "./" = Return (absPath rs).
Proof using rs_names.
  assert (Hback : forall ms,
             Forall (fun n => isName n = true) ms ->
             Path.relative cwd (absPath rs) (absPath (rs ++ ms)) = relPath ms).
  { intros ms Hms. destruct ms as [|m ms].
    - rewrite app_nil_r. unfold Path.relative. now rewrite String.eqb_refl.
    - pose proof (relative_root_abs cwd rs m ms false rs_names Hms) as H.
      unfold dirMark in H. now rewrite append_nil_r in H. }
  split; [now apply resolver_relative | ].
  split.
  { unfold relativeOrAbsolutePathToRelativePath.
    rewrite (resolver_relative ns Hns). now rewrite Hback. }
  split.
  { intros n ns' -> Hdots.
    pose proof (resolver_absolute n ns' false Hns) as H.
    unfold dirMark in H. rewrite !append_nil_r, Hdots in H.
    split; [exact H | ].
    unfold relativeOrAbsolutePathToRelativePath. rewrite H.
    now rewrite Hback. }
  split.
  { unfold relativeOrAbsolutePathToRelativePath,
      relativeOrAbsolutePathToAbsolutePath.
    change (Path.isAbsolute (absPath rs)) with true. cbv iota.
    assert (Hself : Path.relative cwd (absPath rs) (absPath rs) = "").
    { unfold Path.relative. now rewrite String.eqb_refl. }
    rewrite Hself. simpl. now rewrite Hself. }
  destruct resolver_root as (_ & H1 & H2). auto.
Qed.

(** X9: the absolute branch of the resolver keeps inside the root and is
    stricter than that.  An absolute path below the root is returned exactly
    as it was given, trailing separator included, unless the first name
    below the root starts with two dots: an entry such as [..cache] directly
    below the root is rejected as "outside the root directory" although it
    lies inside. *)
Theorem X9_absolute_paths_below_the_root
  (n : string) (ns : list string) (isDir : bool)
  (Hns : Forall (fun m => isName m = true) (n :: ns)) :
  let p := absPath (rs ++ n :: ns) ++ dirMark isDir in
  isDescendant cwd (absPath rs) p = true
  /\ (Js.startsWith ".." n = false -> toAbsolute p = Return p)
  /\ (Js.startsWith ".." n = true ->
      toAbsolute p
      = Throw (Error ("Path " ++ p ++ " is outside the root directory"))).
Proof using rs_names.
  intros p. subst p.
  assert (Hall : Forall (fun m => isName m = true) (rs ++ n :: ns))
    by (apply Forall_app; auto).
  split.
  - unfold isDescendant.
    rewrite (resolve_abs_plain cwd rs rs_names), (resolve_abs cwd _ isDir Hall).
    rewrite (segments_absPath rs rs_names), (segments_absPath _ Hall).
    clear. induction rs as [|r l IH]; simpl; [reflexivity | ].
    now rewrite String.eqb_refl.
  - rewrite (resolver_absolute n ns isDir Hns).
    split; intros ->; reflexivity.
Qed.

End ResolverProperties.

(** X10: whatever the root and the working directory, an absolute path that
    the resolver accepts is returned unchanged and lies below the root, and
    an absolute path that does not lie below the root is rejected with "Path
    ... is outside the root directory". *)
Theorem X10_absolute_resolution_is_contained (cwd root p : string)
  (Habsolute : Path.isAbsolute p = true) :
  (forall q,
      relativeOrAbsolutePathToAbsolutePath cwd root p = Return q ->
      q = p /\ isDescendant cwd root p = true)
  /\ (isDescendant cwd root p = false ->
      relativeOrAbsolutePathToAbsolutePath cwd root p
      = Throw (Error ("Path " ++ p ++ " is outside the root directory"))).
Proof.
  split.
  - intros q. now apply absolute_accepted_is_descendant.
  - intros Hout.
    destruct (relativeOrAbsolutePathToAbsolutePath cwd root p) as [q|e] eqn:H.
    + apply (absolute_accepted_is_descendant cwd root p q Habsolute) in H.
      destruct H as [_ H]. congruence.
    + unfold relativeOrAbsolutePathToAbsolutePath in H.
      rewrite Habsolute in H.
      destruct (Js.startsWith ".." (Path.relative cwd root p)
                || Path.isAbsolute (Path.relative cwd root p));
        [now injection H as <- | discriminate].
Qed.

(** ** Writing below the root *)

Section WriteProperties.

Variable World : Type.
Variable cwd : string.
Variable rs : list string.
Hypothesis rs_names : Forall (fun n => isName n = true) rs.
Variable fs_ensureDir : string -> IO World unit.
Variable fs_writeFile : string -> string -> IO World unit.
Variable fs_appendFile : string -> string -> IO World unit.

(** X11: [writeFile] and [appendFile] create the parent directory before
    they write.  For a relative path made of names, they first ensure the
    directory of the names before the last one, below the root, and then
    write the file at the root followed by all the names; when the directory
    cannot be ensured, its error is raised and nothing is written; when they
    return, they return [true]. *)
Theorem X11_write_ensures_the_parent_directory
  (ns : list string) (n content : string) (w : World)
  (Hns : Forall (fun m => isName m = true) ns)
  (Hn : isName n = true) :
  writeFile World cwd (absPath rs) fs_ensureDir fs_writeFile
    (relPath (ns ++ [n])) content w
  = match fs_ensureDir (absPath (rs ++ ns)) w with
    | (Throw e, w1) => (Throw e, w1)
    | (Return _, w1) =>
        match fs_writeFile (absPath (rs ++ ns ++ [n])) content w1 with
        | (Throw e, w2) => (Throw e, w2)
        | (Return _, w2) => (Return true, w2)
        end
    end
  /\ appendFile World cwd (absPath rs) fs_ensureDir fs_appendFile
       (relPath (ns ++ [n])) content w
     = match fs_ensureDir (absPath (rs ++ ns)) w with
       | (Throw e, w1) => (Throw e, w1)
       | (Return _, w1) =>
           match fs_appendFile (absPath (rs ++ ns ++ [n])) content w1 with
           | (Throw e, w2) => (Throw e, w2)
           | (Return _, w2) => (Return true, w2)
           end
       end.
Proof using rs_names.
  assert (Hall : Forall (fun m => isName m = true) (ns ++ [n]))
    by (apply Forall_app; auto).
  assert (Hparent : Forall (fun m => isName m = true) (rs ++ ns))
    by (apply Forall_app; auto).
  pose proof (resolver_relative cwd rs rs_names (ns ++ [n]) Hall) as Hresolve.
  pose proof (dirname_absPath (rs ++ ns) n Hparent Hn) as Hdir.
  rewrite <- app_assoc in Hdir.
  unfold writeFile, appendFile.
  rewrite !(bind_lift_return World _ _ _ w Hresolve).
  rewrite Hdir. unfold bind, ret.
  destruct (fs_ensureDir (absPath (rs ++ ns)) w) as [[[]|e] w1].
  - split.
    + now destruct (fs_writeFile (absPath (rs ++ ns ++ [n])) content w1)
        as [[[]|e] w2].
    + now destruct (fs_appendFile (absPath (rs ++ ns ++ [n])) content w1)
        as [[[]|e] w2].
  - split; reflexivity.
Qed.

End WriteProperties.

(** ** The directory walk, continued *)

Section MoreWalkProperties.

Variable cwd : string.
Variable rs : list string.
Hypothesis rs_names : Forall (fun n => isName n = true) rs.
Variable fs_readdir : string -> completion (list Dirent).

#[local] Abbreviation walk := (getDirectoryTree cwd (absPath rs) fs_readdir).

(** X12: without recursion the walk is the listing of the directory, in the
    order of [readdir], without the ignored entries: one path for each entry
    on whose root-relative path the predicate is false, with a trailing
    separator exactly for the directories, and nothing from below them.  When
    the directory cannot be read, the walk throws the error of [readdir]
    and yields nothing, whatever the predicate and the recursion flag. *)
Theorem X12_walk_one_level_is_the_filtered_listing
  (ds : list string) (depth : nat)
  (Hds : Forall (fun n => isName n = true) ds) :
  (forall (f : string -> bool) (items : list Dirent),
      fs_readdir (absPath (rs ++ ds)) = Return items ->
      Forall (fun item => isName (name item) = true) items ->
      walk (S depth) (relPath ds) (Some (fun p => Return (f p))) false
      = (map (yieldOf ds)
           (filter (fun item => negb (f (relPath (ds ++ [name item]))))
              items),
         Done))
  /\ (forall e ig recursive,
        fs_readdir (absPath (rs ++ ds)) = Throw e ->
        walk (S depth) (relPath ds) ig recursive = ([], Thrown e)).
Proof using rs_names.
  split.
  - intros f items Hread Hitems.
    now apply (walk_flat_listing cwd rs rs_names fs_readdir
                 (fun p => Return (f p)) f depth ds items).
  - intros e ig recursive Hread.
    now rewrite (getDirectoryTree_S cwd rs rs_names fs_readdir depth ds ig
                   recursive Hds), Hread.
Qed.

(** X13: the recursive walk of a finite tree, with a predicate that does not
    throw and enough depth for the tree, ends, and what it does is fixed by
    the entries that can be reached from the walked directory without
    passing an ignored path.  Whatever it yields is the root-relative path,
    marked when it is a directory, of such an entry.  It returns exactly when
    no such entry is a directory that cannot be listed, and then it yields
    every one of them.  Otherwise it throws the error of such a directory,
    and the path of that directory is the last thing it yields. *)
Theorem X13_walk_yields_exactly_the_unignored_entries
  (ig : string -> completion bool) (items : list Tree) (ds : list string)
  (depth : nat)
  (Htotal : totalFilter ig)
  (Hds : Forall (fun n => isName n = true) ds)
  (Hwf : forallb wfEnt items = true)
  (Hlisted : listed fs_readdir (rs ++ ds) items)
  (Hdepth : (list_max (map height items) < depth)%nat) :
  let w := walk depth (relPath ds) (Some ig) true in
  (forall e,
      In e (fst w) ->
      exists ns t,
        reaches items ns t /\ unignoredBelow ig ds ns
        /\ e = relPath (ds ++ ns) ++ dirMark (isDirEnt t))
  /\ (snd w = Done <->
      forall ns n e, reaches items ns (LockedDir n e) ->
                     ~ unignoredBelow ig ds ns)
  /\ (snd w = Done ->
      forall e,
        In e (fst w) <->
        exists ns t,
          reaches items ns t /\ unignoredBelow ig ds ns
          /\ e = relPath (ds ++ ns) ++ dirMark (isDirEnt t))
  /\ (forall e,
        snd w = Thrown e ->
        exists pre ns n,
          reaches items ns (LockedDir n e) /\ unignoredBelow ig ds ns
          /\ fst w = app pre [(relPath (ds ++ ns) ++ "/")%string])
  /\ snd w <> Pending.
Proof using rs_names.
  intros w.
  destruct (walk_tree cwd rs rs_names fs_readdir ig items ds depth Htotal
              Hwf Hds Hlisted Hdepth) as (S1 & S2 & S3 & S4).
  fold w in S1, S2, S3, S4.
  split; [exact S1 | ]. split; [ | split; [ | split; [exact S3 | exact S4]]].
  - split.
    + intros Hdone ns n e Hreach Hun.
      destruct (S2 Hdone ns _ Hreach Hun) as [_ Hlocked].
      now apply (Hlocked n e).
    + intros Hlocked. destruct (snd w) as [|e|] eqn:Hend;
        [reflexivity | | congruence].
      destruct (S3 e eq_refl) as (pre & ns & n & Hreach & Hun & _).
      now destruct (Hlocked ns n e Hreach).
  - intros Hdone e. split; [apply S1 | ].
    intros (ns & t & Hreach & Hun & ->).
    now destruct (S2 Hdone ns t Hreach Hun).
Qed.

(** X14: the walk of a directory contains the walk of each of its
    sub-directories as one block.  For a sub-directory that is not ignored,
    the walk of the parent is: what the entries before it gave, the
    sub-directory itself with its trailing separator, then exactly what a
    walk started at the sub-directory yields, then what the entries after it
    give.  A walk of the sub-directory that does not return ends the walk of
    the parent in the same way, with nothing yielded after it.  The recursive
    call passes no recursion flag: a walk of that sub-directory without
    recursion gives only its filtered listing.  On a finite tree whose
    reached directories can be listed, with a predicate that does not throw,
    the walk of the parent returns. *)
Theorem X14_walk_contains_the_walk_of_a_subdirectory
  (ig : string -> completion bool) (before after : list Dirent)
  (ds : list string) (n : string) (depth : nat)
  (Hds : Forall (fun m => isName m = true) ds)
  (Hname : isName n = true)
  (Hdir : fs_readdir (absPath (rs ++ ds))
          = Return (app before (mkDirent n true :: after)))
  (Hig : ig (relPath (ds ++ [n])) = Return false) :
  let descend := fun rel => walk depth rel (Some ig) true in
  let pre := walkItems cwd (absPath rs) (Some ig) true descend
               (absPath (rs ++ ds)) before in
  let post := walkItems cwd (absPath rs) (Some ig) true descend
                (absPath (rs ++ ds)) after in
  let sub := walk depth (relPath (ds ++ [n])) (Some ig) true in
  let parent := walk (S depth) (relPath ds) (Some ig) true in
  (snd pre = Done -> snd sub = Done ->
   parent
   = (app (fst pre)
        ((relPath (ds ++ [n]) ++ "/")%string :: app (fst sub) (fst post)),
      snd post))
  /\ (snd pre = Done -> snd sub <> Done ->
      parent
      = (app (fst pre) ((relPath (ds ++ [n]) ++ "/")%string :: fst sub),
         snd sub))
  /\ (snd pre <> Done -> parent = pre)
  /\ (forall ys,
        parent = (ys, Done) ->
        exists p s q,
          ys = app p ((relPath (ds ++ [n]) ++ "/")%string :: app s q)
          /\ sub = (s, Done))
  /\ (forall (children : list Dirent) (f : string -> bool),
        fs_readdir (absPath (rs ++ ds ++ [n])) = Return children ->
        Forall (fun item => isName (name item) = true) children ->
        (forall p, ig p = Return (f p)) ->
        walk (S depth) (relPath (ds ++ [n])) (Some ig) false
        = (map (yieldOf (ds ++ [n]))
             (filter (fun item =>
                        negb (f (relPath ((ds ++ [n]) ++ [name item]))))
                children),
           Done))
  /\ (forall items,
        totalFilter ig ->
        forallb wfEnt items = true ->
        listed fs_readdir (rs ++ ds) items ->
        (forall ns m e, reaches items ns (LockedDir m e) ->
                        ~ unignoredBelow ig ds ns) ->
        (list_max (map height items) < S depth)%nat ->
        snd parent = Done).
Proof using rs_names.
  intros descend pre post sub parent.
  assert (Hfinish :
            forall items,
              totalFilter ig ->
              forallb wfEnt items = true ->
              listed fs_readdir (rs ++ ds) items ->
              (forall ns m e, reaches items ns (LockedDir m e) ->
                              ~ unignoredBelow ig ds ns) ->
              (list_max (map height items) < S depth)%nat ->
              snd parent = Done).
  { intros items Htotal Hwf Hlisted Hlocked Hdepth. subst parent.
    now apply (walk_finishes cwd rs rs_names fs_readdir ig items ds
                 (S depth) true). }
  assert (Hparent :
            parent
            = andThen pre
                (andThen (andThen (yield (relPath (ds ++ [n]) ++ "/")) sub)
                   post)).
  { subst parent.
    rewrite (getDirectoryTree_S cwd rs rs_names fs_readdir depth ds (Some ig)
               true Hds), Hdir.
    rewrite walkItems_app. cbn [walkItems]. fold descend. fold pre. fold post.
    rewrite (walkItem_name cwd rs rs_names (Some ig) true descend ds
               (mkDirent n true) Hds Hname).
    cbn [callFilter name isDirectory]. now rewrite Hig. }
  assert (Hds' : Forall (fun m => isName m = true) (ds ++ [n]))
    by (apply Forall_app; auto).
  clearbody pre post sub parent. subst parent.
  destruct pre as [ps pend], sub as [ss send], post as [qs qend].
  cbn [fst snd].
  split; [ | split; [ | split; [ | split; [ | split; [ | exact Hfinish]]]]].
  - intros -> ->. reflexivity.
  - intros -> Hsub. destruct send; [congruence | reflexivity | reflexivity].
  - intros Hpre. destruct pend; [congruence | reflexivity | reflexivity].
  - intros ys Hys.
    destruct pend; [ | discriminate | discriminate].
    destruct send; [ | discriminate | discriminate].
    unfold andThen, yield in Hys. cbn [fst snd app] in Hys.
    injection Hys as <- _. now exists ps, ss, qs.
  - intros children f Hread Hchildren Hf.
    now apply (walk_flat_listing cwd rs rs_names fs_readdir ig f depth
                 (ds ++ [n]) children).
Qed.

End MoreWalkProperties.

(** ** grep, continued *)

Lemma grepContent_In (searchString relFile text : string) (before after : Z)
  (r : GrepResult) :
  In r (grepContent searchString before after relFile text)
  <-> exists i,
        (i < length (Js.split "010" text))%nat
        /\ Js.includes searchString (nth i (Js.split "010" text) "") = true
        /\ grepLine searchString before after relFile (Js.split "010" text) i
           = [r].
Proof.
  unfold grepContent. rewrite in_flat_map. split.
  - intros (i & Hi & Hr). apply in_seq in Hi. exists i.
    unfold grepLine in *.
    destruct (Js.includes searchString (nth i (Js.split "010" text) ""));
      [ | contradiction].
    destruct Hr as [<- | []]. repeat split; auto. lia.
  - intros (i & Hi & _ & Hr). exists i. split.
    + apply in_seq. lia.
    + rewrite Hr. now left.
Qed.

Lemma grepLine_fields (searchString relFile : string) (before after : Z)
  (lines : list string) (i : nat) (r : GrepResult) :
  grepLine searchString before after relFile lines i = [r] ->
  file r = relFile /\ line r = (Z.of_nat i + 1)%Z
  /\ matchText r = nth i lines "".
Proof.
  unfold grepLine.
  destruct (Js.includes searchString (nth i lines "")); [ | discriminate].
  intros H. injection H as <-. auto.
Qed.

Lemma grepLine_hit (searchString relFile : string) (before after : Z)
  (lines : list string) (i : nat) :
  Js.includes searchString (nth i lines "") = true ->
  exists r, grepLine searchString before after relFile lines i = [r].
Proof.
  intros H. unfold grepLine. rewrite H. eexists. reflexivity.
Qed.

Section MoreGrepProperties.

Variable cwd : string.
Variable rs : list string.
Hypothesis rs_names : Forall (fun n => isName n = true) rs.
Variable fs_readdir : string -> completion (list Dirent).
Variable getFile : string -> completion string.

Lemma grepFile_read (searchString absFile text : string) (before after : Z) :
  searchString <> "" ->
  getFile (Path.relative cwd (absPath rs) absFile) = Return text ->
  grepFile cwd (absPath rs) getFile searchString before after absFile
  = grepContent searchString before after
      (Path.relative cwd (absPath rs) absFile) text.
Proof using Type.
  intros Hsearch Hread. unfold grepFile. rewrite Hread.
  destruct (Js.truthy text) eqn:Htext; [reflexivity | ].
  apply negb_false_iff, String.eqb_eq in Htext. subst text.
  unfold grepContent. simpl. unfold grepLine. simpl.
  destruct searchString; [congruence | reflexivity].
Qed.

(** X15: on a finite tree, with a predicate that does not throw, a search
    string that is not empty and enough depth for the tree, [grep] ends.  It
    returns exactly when no directory that is reached without passing an
    ignored path fails to be listed; otherwise it raises the error of such a
    directory.  When it returns, whatever files fail to be read, a result
    with file [f], line [i + 1] and match [l] is reported if and only if [f]
    is the root-relative path of an entry of the tree reached without passing
    an ignored path, the predicate is also false on the absolute form of that
    entry, the file can be read, and [l] is its line number [i], counted from
    0, and contains the search string. *)
Theorem X15_grep_reports_exactly_the_reachable_matches
  (ig : string -> completion bool) (rootItems : list Tree)
  (searchString : string) (ic : option IncludeContent) (depth : nat)
  (Hsearch : searchString <> "")
  (Htotal : totalFilter ig)
  (Hwf : forallb wfEnt rootItems = true)
  (Hlisted : listed fs_readdir rs rootItems)
  (Hdepth : (list_max (map height rootItems) < depth)%nat) :
  let outcome :=
    grep cwd (absPath rs) fs_readdir getFile depth searchString
      {| ignoreFilter := Some ig; includeContent := ic |} in
  (exists c, outcome = Some c)
  /\ ((exists results, outcome = Some (Return results)) <->
      forall ns n e, reaches rootItems ns (LockedDir n e) ->
                     ~ unignoredBelow ig [] ns)
  /\ (forall e,
        outcome = Some (Throw e) ->
        exists ns n,
          reaches rootItems ns (LockedDir n e) /\ unignoredBelow ig [] ns)
  /\ (forall results,
        outcome = Some (Return results) ->
        forall (f l : string) (i : nat),
          (exists r, In r results /\ file r = f
                     /\ line r = (Z.of_nat i + 1)%Z /\ matchText r = l)
          <->
          (exists ns t text,
             reaches rootItems ns t
             /\ unignoredBelow ig [] ns
             /\ ig (absPath (rs ++ ns) ++ dirMark (isDirEnt t)) = Return false
             /\ f = relPath ns
             /\ getFile f = Return text
             /\ (i < length (Js.split "010" text))%nat
             /\ l = nth i (Js.split "010" text) ""
             /\ Js.includes searchString l = true)).
Proof using rs_names.
  intros outcome.
  rewrite <- (app_nil_r rs) in Hlisted.
  destruct (walk_tree cwd rs rs_names fs_readdir ig rootItems [] depth Htotal
              Hwf (Forall_nil _) Hlisted Hdepth) as (S1 & S2 & S3 & S4).
  change (relPath []) with "" in S1, S2, S3, S4.
  subst outcome.
  rewrite (grep_searching cwd (absPath rs) fs_readdir getFile depth
             searchString _ Hsearch).
  cbn [ignoreFilter]. cbv zeta.
  set (before := linesBeforeOf _). set (after := linesAfterOf _).
  set (w := getDirectoryTree cwd (absPath rs) fs_readdir depth "" (Some ig)
              true) in *.
  set (allFiles := map (fun file => Path.join [absPath rs; file]) (fst w)).
  destruct (filterNotIgnored_returns ig allFiles Htotal) as (files & Hfiles).
  cbn [filesToSearch]. rewrite Hfiles.
  destruct (snd w) as [|err|] eqn:Hend; [ | | congruence].
  - split; [eexists; reflexivity | ].
    split; [ | split; [discriminate | ]].
    + split; [ | eexists; reflexivity].
      intros _ ns n e Hreach Hun.
      destruct (S2 eq_refl ns _ Hreach Hun) as [_ Hlocked].
      now apply (Hlocked n e).
    + intros results Hresults. injection Hresults as <-.
      intros f l i. split.
      * intros (r & Hr & Hf & Hline & Hmatch).
        apply in_flat_map in Hr. destruct Hr as (absFile & Hfile & Hr).
        destruct (filterNotIgnored_kept ig allFiles files Hfiles absFile
                    Hfile) as [Hin Hig].
        apply in_map_iff in Hin. destruct Hin as (e & <- & He).
        destruct (S1 e He) as (ns & t & Hreach & Hun & ->).
        destruct (reaches_names rootItems ns t Hreach Hwf) as [Hne Hns].
        simpl app in *.
        rewrite (join_abs_below rs ns (isDirEnt t) Hne rs_names Hns) in *.
        unfold grepFile in Hr.
        rewrite (relative_root_below cwd rs rs_names ns (isDirEnt t) Hne Hns)
          in Hr.
        destruct (getFile (relPath ns)) as [text|err] eqn:Hread;
          [ | contradiction].
        destruct (Js.truthy text); [ | contradiction].
        cbn [negb] in Hr. apply grepContent_In in Hr.
        destruct Hr as (j & Hj & Hinc & Hr).
        apply grepLine_fields in Hr. destruct Hr as (Hf' & Hline' & Hmatch').
        assert (j = i) as -> by lia.
        exists ns, t, text. subst f l.
        rewrite Hf', Hmatch'. repeat split; auto.
      * intros (ns & t & text & Hreach & Hun & Hig & -> & Hread & Hi & ->
                & Hinc).
        destruct (reaches_names rootItems ns t Hreach Hwf) as [Hne Hns].
        destruct (grepLine_hit searchString (relPath ns) before after
                    (Js.split "010" text) i Hinc) as (r & Hr).
        exists r.
        destruct (grepLine_fields _ _ _ _ _ _ _ Hr) as (H1 & H2 & H3).
        split; [ | auto].
        apply in_flat_map.
        exists (absPath (rs ++ ns) ++ dirMark (isDirEnt t)). split.
        -- apply (filterNotIgnored_keeps ig allFiles files Hfiles);
             [ | exact Hig].
           apply in_map_iff. exists (relPath ns ++ dirMark (isDirEnt t)).
           split; [now apply join_abs_below | ].
           now destruct (S2 eq_refl ns t Hreach Hun).
        -- rewrite (grepFile_read searchString _ text before after Hsearch);
             rewrite (relative_root_below cwd rs rs_names ns (isDirEnt t)
                        Hne Hns);
             [ | exact Hread].
           apply grepContent_In. exists i. auto.
  - destruct (S3 err eq_refl) as (pre & ns & n & Hreach & Hun & _).
    split; [eexists; reflexivity | ].
    split; [ | split; [ | discriminate]].
    + split; [intros (results & H); discriminate | ].
      intros Hlocked. now destruct (Hlocked ns n err Hreach).
    + intros e He. injection He as <-. now exists ns, n.
Qed.

(** X16: [grep] checks its arguments before it reads anything, and the
    provider cannot search without a predicate.  An empty search string
    raises "Search string is required" whatever the filesystem and the
    options.  With a search string and no predicate, the walk calls the
    absent predicate at the first entry of the root, so [grep] raises for
    every root that is not empty, and returns no result for an empty root.
    When the root cannot be listed, [grep] raises the error of [readdir],
    with or without a predicate. *)
Theorem X16_grep_needs_a_search_string_and_a_predicate
  (searchString : string) (ic : option IncludeContent) (depth : nat) :
  (forall d options,
      grep cwd (absPath rs) fs_readdir getFile d "" options
      = Some (Throw (Error "Search string is required")))
  /\ (searchString <> "" ->
      forall item rest,
        fs_readdir (absPath rs) = Return (item :: rest) ->
        grep cwd (absPath rs) fs_readdir getFile (S depth) searchString
          {| ignoreFilter := None; includeContent := ic |}
        = Some (Throw (Error "ignoreFilter is not a function")))
  /\ (searchString <> "" ->
      fs_readdir (absPath rs) = Return [] ->
      grep cwd (absPath rs) fs_readdir getFile (S depth) searchString
        {| ignoreFilter := None; includeContent := ic |} = Some (Return []))
  /\ (searchString <> "" ->
      forall e ig,
        fs_readdir (absPath rs) = Throw e ->
        grep cwd (absPath rs) fs_readdir getFile (S depth) searchString
          {| ignoreFilter := ig; includeContent := ic |} = Some (Throw e)).
Proof using rs_names.
  assert (Hwalk : forall ig,
             getDirectoryTree cwd (absPath rs) fs_readdir (S depth) "" ig true
             = match fs_readdir (absPath rs) with
               | Throw e => ([], Thrown e)
               | Return items =>
                   walkItems cwd (absPath rs) ig true
                     (fun rel =>
                        getDirectoryTree cwd (absPath rs) fs_readdir depth
                          rel ig true) (absPath rs) items
               end).
  { intros ig. change "" with (relPath []).
    rewrite (getDirectoryTree_S cwd rs rs_names fs_readdir depth [] ig true
               (Forall_nil _)).
    now rewrite app_nil_r. }
  split; [reflexivity | split; [ | split]].
  - intros Hsearch item rest Hread.
    rewrite (grep_searching cwd (absPath rs) fs_readdir getFile (S depth)
               searchString _ Hsearch).
    cbn [ignoreFilter]. cbv zeta. now rewrite Hwalk, Hread.
  - intros Hsearch Hread.
    rewrite (grep_searching cwd (absPath rs) fs_readdir getFile (S depth)
               searchString _ Hsearch).
    cbn [ignoreFilter]. cbv zeta. now rewrite Hwalk, Hread.
  - intros Hsearch e ig Hread.
    rewrite (grep_searching cwd (absPath rs) fs_readdir getFile (S depth)
               searchString _ Hsearch).
    cbn [ignoreFilter]. cbv zeta. now rewrite Hwalk, Hread.
Qed.

End MoreGrepProperties.

(** ** executeCommand, continued *)

Section MoreCommandProperties.

Variable World : Type.
Variable cwd : string.
Variable processEnv : list (string * string).
Variable execa :
  string -> option (list string) -> ExecOpts -> IO World ExecaResult.

Lemma orString_fallback (a : option string) (m : string) :
  orString a m = orString a (orString (Some m) "Unknown error")
  \/ (orString a (orString (Some m) "Unknown error") = "Unknown error"
      /\ orString a m = "").
Proof using Type.
  unfold orString.
  destruct (Js.truthy m) eqn:Hm.
  - left. reflexivity.
  - apply negb_false_iff, String.eqb_eq in Hm. subst m.
    destruct a as [s|]; [ | now right].
    destruct (Js.truthy s); [now left | now right].
Qed.

(** X17: the copy of [executeCommand] in LocalFileSystemService.ts behaves as
    the provider's.  Both raise in the same cases with the same error, and
    when one returns a result the other returns a result with the same [ok],
    exit code and output, in the same world; the messages are equal too,
    except for a rejection that carries neither a [shortMessage] nor a
    [message], where the provider says "Unknown error" and the service
    reports an empty message. *)
Theorem X17_service_executeCommand_agrees
  (rootDirectory : string) (command : Command)
  (options : ExecuteCommandOptions) (w : World) :
  (forall e w',
      executeCommand World cwd rootDirectory processEnv execa command
        options w = (Throw e, w')
      <-> service_executeCommand World cwd rootDirectory processEnv execa
            command options w = (Throw e, w'))
  /\ (forall r w',
        executeCommand World cwd rootDirectory processEnv execa command
          options w = (Return r, w') ->
        exists r',
          service_executeCommand World cwd rootDirectory processEnv execa
            command options w = (Return r', w')
          /\ ok r' = ok r /\ exitCode r' = exitCode r
          /\ stdout r' = stdout r /\ stderr r' = stderr r
          /\ (error r' = error r
              \/ (ok r = false /\ error r = Some "Unknown error"
                  /\ error r' = Some ""))).
Proof using Type.
  unfold executeCommand, service_executeCommand.
  destruct (commandTruthy command); cbn [negb].
  - destruct (relativeOrAbsolutePathToAbsolutePath cwd rootDirectory _)
      as [d|e0] eqn:Hd.
    + rewrite !(bind_lift_return World _ _ d w eq_refl).
      unfold tryCatch, ret.
      destruct (runCommand World execa command
                  (execOptsFor processEnv options d) w)
        as [[r0|err] w0].
      * split; [intros e w'; split; discriminate | ].
        intros r w' H. injection H as <- <-. exists r0. auto 10.
      * split; [intros e w'; split; discriminate | ].
        intros r w' H. injection H as <- <-. eexists.
        split; [reflexivity | ]. cbn [ok exitCode stdout stderr error].
        repeat split.
        change (if Js.truthy (err_message err) then err_message err
                else "Unknown error")
          with (orString (Some (err_message err)) "Unknown error").
        destruct (orString_fallback (err_shortMessage err) (err_message err))
          as [H | [H1 H2]].
        -- left. now rewrite H.
        -- right. now rewrite H1, H2.
    + rewrite !(bind_lift_throw World _ _ e0 w eq_refl).
      split; [intros e w'; split; auto | discriminate].
  - split; [intros e w'; split; auto | discriminate].
Qed.

Section RootOfNames.

Variable rs : list string.
Hypothesis rs_names : Forall (fun n => isName n = true) rs.

Lemma resolver_root_absolute :
  relativeOrAbsolutePathToAbsolutePath cwd (absPath rs) (absPath rs)
  = Return (absPath rs).
Proof using Type.
  unfold relativeOrAbsolutePathToAbsolutePath.
  change (Path.isAbsolute (absPath rs)) with true. cbv iota.
  assert (Hself : Path.relative cwd (absPath rs) (absPath rs) = "").
  { unfold Path.relative. now rewrite String.eqb_refl. }
  now rewrite Hself.
Qed.

(** X18: a command without a working directory runs in the root.  Leaving
    [workingDirectory] out is the same as passing ["./"], ["."], the empty
    string, or the absolute path of the root itself; and a relative working
    directory made of names is the same as its absolute form below the
    root.  In each case [executeCommand] makes the same call and gives the
    same outcome. *)
Theorem X18_executeCommand_default_directory_is_the_root
  (command : Command) (timeout : option JsNumber)
  (environment : option (list (string * string))) (w : World) :
  let run dir :=
    executeCommand World cwd (absPath rs) processEnv execa command
      {| timeoutSeconds := timeout; env := environment;
         workingDirectory := dir |} w in
  run None = run (Some (absPath rs))
  /\ run (Some "./") = run (Some (absPath rs))
  /\ run (Some ".") = run (Some (absPath rs))
  /\ run (Some "") = run (Some (absPath rs))
  /\ (forall n ns,
        Forall (fun m => isName m = true) (n :: ns) ->
        Js.startsWith ".." n = false ->
        run (Some (relPath (n :: ns))) = run (Some (absPath (rs ++ n :: ns)))).
Proof using rs_names.
  intros run.
  assert (Hsame : forall d1 d2 a,
             relativeOrAbsolutePathToAbsolutePath cwd (absPath rs) d1
             = Return a ->
             relativeOrAbsolutePathToAbsolutePath cwd (absPath rs) d2
             = Return a ->
             executeCommand World cwd (absPath rs) processEnv execa command
               {| timeoutSeconds := timeout; env := environment;
                  workingDirectory := Some d1 |} w
             = executeCommand World cwd (absPath rs) processEnv execa command
                 {| timeoutSeconds := timeout; env := environment;
                    workingDirectory := Some d2 |} w).
  { intros d1 d2 a H1 H2. unfold executeCommand.
    cbn [workingDirectory]. destruct (commandTruthy command); [ | reflexivity].
    cbn [negb].
    rewrite (bind_lift_return World _ _ a w H1).
    now rewrite (bind_lift_return World _ _ a w H2). }
  destruct (resolver_root cwd rs rs_names) as (Hempty & Hdot & Hdotslash).
  subst run. cbv beta.
  split; [ | split; [ | split; [ | split]]].
  - change (executeCommand World cwd (absPath rs) processEnv execa command
              {| timeoutSeconds := timeout; env := environment;
                 workingDirectory := None |} w)
      with (executeCommand World cwd (absPath rs) processEnv execa command
              {| timeoutSeconds := timeout; env := environment;
                 workingDirectory := Some "./" |} w).
    apply (Hsame _ _ (absPath rs)); [exact Hdotslash | ].
    apply resolver_root_absolute.
  - apply (Hsame _ _ (absPath rs)); [exact Hdotslash | ].
    apply resolver_root_absolute.
  - apply (Hsame _ _ (absPath rs)); [exact Hdot | ].
    apply resolver_root_absolute.
  - apply (Hsame _ _ (absPath rs)); [exact Hempty | ].
    apply resolver_root_absolute.
  - intros n ns Hns Hdots.
    apply (Hsame _ _ (absPath (rs ++ n :: ns))).
    + now apply resolver_relative.
    + pose proof (resolver_absolute cwd rs rs_names n ns false Hns) as H.
      unfold dirMark in H. rewrite !append_nil_r, Hdots in H. exact H.
Qed.

End RootOfNames.

End MoreCommandProperties.

(** ** The legacy resolver *)

Lemma resolve_absolute_last (cwd root p : string) :
  Path.isAbsolute p = true ->
  Path.resolve cwd [root; p] = Path.resolve cwd [p].
Proof.
  intros Hp. unfold Path.resolve. simpl rev.
  now rewrite !(resolveLoop_abs cwd p "" _ Hp).
Qed.

(** X19: for an absolute input the legacy resolver never returns a path
    joined to the root, and a path that exists bypasses the containment
    check.  Whatever it returns is the normal form of the input itself; it
    returns it as soon as that path exists, inside the root or not; it
    accepts every path that the resolver of the provider accepts; and on a
    filesystem where neither probed path exists it rejects exactly the paths
    that the provider rejects, with the same error. *)
Theorem X19_legacy_resolver_on_absolute_paths
  (existsSync : string -> bool) (cwd root p : string)
  (Habsolute : Path.isAbsolute p = true) :
  (forall q probes,
      Legacy.relativeOrAbsolutePathToAbsolutePath existsSync cwd root p
      = (Return q, probes) -> q = Path.resolve cwd [p])
  /\ (existsSync (Path.resolve cwd [p]) = true ->
      Legacy.relativeOrAbsolutePathToAbsolutePath existsSync cwd root p
      = (Return (Path.resolve cwd [p]), [Path.resolve cwd [p]]))
  /\ (forall q,
        relativeOrAbsolutePathToAbsolutePath cwd root p = Return q ->
        exists probes,
          Legacy.relativeOrAbsolutePathToAbsolutePath existsSync cwd root p
          = (Return (Path.resolve cwd [p]), probes))
  /\ (existsSync (Path.resolve cwd [p]) = false ->
      existsSync (Path.resolve cwd [root; Legacy.replaceFile p]) = false ->
      forall e,
        relativeOrAbsolutePathToAbsolutePath cwd root p = Throw e <->
        exists probes,
          Legacy.relativeOrAbsolutePathToAbsolutePath existsSync cwd root p
          = (Throw e, probes)).
Proof.
  unfold Legacy.relativeOrAbsolutePathToAbsolutePath,
    relativeOrAbsolutePathToAbsolutePath.
  rewrite Habsolute. cbn [negb].
  rewrite (resolve_absolute_last cwd root p Habsolute).
  destruct (existsSync (Path.resolve cwd [p])) eqn:Hfirst.
  - split; [intros q probes H; now injection H as <- | ].
    split; [reflexivity | ].
    split; [intros q _; eexists; reflexivity | discriminate].
  - destruct (existsSync (Path.resolve cwd [root; Legacy.replaceFile p]))
      eqn:Hsecond.
    + split; [intros q probes H; now injection H as <- | ].
      split; [discriminate | ].
      split; [intros q _; eexists; reflexivity | discriminate].
    + destruct (Js.startsWith ".." (Path.relative cwd root p)
                || Path.isAbsolute (Path.relative cwd root p)).
      * split; [discriminate | ]. split; [discriminate | ].
        split; [discriminate | ].
        intros _ _ e. split.
        -- intros H. injection H as <-. eexists. reflexivity.
        -- intros (probes & H). now injection H as <-.
      * split; [intros q probes H; now injection H as <- | ].
        split; [discriminate | ].
        split; [intros q _; eexists; reflexivity | ].
        intros _ _ e. split; [discriminate | ].
        intros (probes & H). discriminate.
Qed.

(** ** The further properties on the small project *)

(** X3 on a file that does not exist. *)
Lemma X3_delete_and_read_guard_their_target_witness :
  relativeOrAbsolutePathToAbsolutePath "/w" (absPath demoRoot) "notes.txt"
  = Return "/home/user/project/notes.txt"
  /\ deleteFile (list string) "/w" (absPath demoRoot) demoPathExists demoStat
       demoRemove "notes.txt" ["/home/user/project/README.md"]
     = (Throw (Error "File notes.txt does not exist"),
        ["/home/user/project/README.md"]).
Proof.
  split; [reflexivity | ].
  apply (X3_delete_and_read_guard_their_target (list string) "/w"
           (absPath demoRoot) demoPathExists demoStat demoRemove
           demoReadFileSync "notes.txt" "/home/user/project/notes.txt" None
           ["/home/user/project/README.md"] eq_refl).
  reflexivity.
Defined.

(** X4 on a destination that exists. *)
Lemma X4_rename_never_overwrites_witness :
  rename (list string) "/w" (absPath demoRoot) demoPathExists demoEnsureDir
    demoRename "a.txt" "b.txt"
    ["/home/user/project/a.txt"; "/home/user/project/b.txt"]
  = (Throw (Error "Path b.txt already exists"),
     ["/home/user/project/a.txt"; "/home/user/project/b.txt"]).
Proof.
  apply (X4_rename_never_overwrites (list string) "/w" (absPath demoRoot)
           demoPathExists demoEnsureDir demoRename "a.txt" "b.txt"
           "/home/user/project/a.txt" "/home/user/project/b.txt"
           ["/home/user/project/a.txt"; "/home/user/project/b.txt"]
           eq_refl eq_refl); reflexivity.
Defined.

(** X5 on a destination that exists, without [overwrite]. *)
Lemma X5_copy_overwrites_only_on_request_witness :
  copy (list string) "/w" (absPath demoRoot) demoPathExists demoCopy
    "a.txt" "b.txt" false
    ["/home/user/project/a.txt"; "/home/user/project/b.txt"]
  = (Throw (Error "Destination path b.txt already exists"),
     ["/home/user/project/a.txt"; "/home/user/project/b.txt"]).
Proof.
  apply (X5_copy_overwrites_only_on_request (list string) "/w"
           (absPath demoRoot) demoPathExists demoCopy "a.txt" "b.txt"
           "/home/user/project/a.txt" "/home/user/project/b.txt"
           ["/home/user/project/a.txt"; "/home/user/project/b.txt"]
           eq_refl eq_refl); reflexivity.
Defined.

(** X6 on a directory whose parent is missing. *)
Lemma X6_createDirectory_idempotent_and_parent_missing_witness :
  createDirectory (list string) "/w" (absPath demoRoot) demoPathExists
    demoStat demoEnsureDir demoMkdir "a/b" false []
  = (Throw (Error "Parent directory for a/b does not exist"), []).
Proof.
  destruct (X6_createDirectory_idempotent_and_parent_missing (list string)
              "/w" (absPath demoRoot) demoPathExists demoStat demoEnsureDir
              demoMkdir "a/b" "/home/user/project/a/b" [] eq_refl)
    as (_ & H & _).
  exact (H _ [] eq_refl eq_refl).
Defined.

(** X7 on a file whose permissions may not be changed. *)
Lemma X7_chmod_wraps_errors_witness :
  chmod (list string) "/w" (absPath demoRoot) demoPathExists demoChmod
    "a.txt" 420 ["/home/user/project/a.txt"]
  = (Throw (Error ("Failed to change permissions for a.txt: "
                   ++ "EPERM: operation not permitted")),
     ["/home/user/project/a.txt"]).
Proof.
  destruct (X7_chmod_wraps_errors (list string) "/w" (absPath demoRoot)
              demoPathExists demoChmod "a.txt" "/home/user/project/a.txt"
              420 ["/home/user/project/a.txt"] eq_refl)
    as (_ & H & _).
  exact (H _ _ eq_refl eq_refl).
Defined.

(** X8 on a source file of the small project. *)
Lemma X8_resolver_round_trip_witness :
  relativeOrAbsolutePathToRelativePath "/w" (absPath demoRoot)
    (absPath (demoRoot ++ ["src"; "a.ts"]))
  = Return (relPath ["src"; "a.ts"]).
Proof.
  destruct (X8_resolver_round_trip "/w" demoRoot demoRoot_names
              ["src"; "a.ts"]) as (_ & _ & H & _).
  - repeat constructor.
  - destruct (H "src" ["a.ts"] eq_refl eq_refl) as [_ H']. exact H'.
Defined.

(** X9 on an entry below the root whose name starts with two dots. *)
Lemma X9_absolute_paths_below_the_root_witness :
  isDescendant "/w" (absPath demoRoot) "/home/user/project/..cache/x" = true
  /\ relativeOrAbsolutePathToAbsolutePath "/w" (absPath demoRoot)
       "/home/user/project/..cache/x"
     = Throw (Error ("Path /home/user/project/..cache/x is outside the root "
                     ++ "directory")).
Proof.
  destruct (X9_absolute_paths_below_the_root "/w" demoRoot demoRoot_names
              "..cache" ["x"] false) as (H1 & _ & H2).
  - repeat constructor.
  - split; [exact H1 | exact (H2 eq_refl)].
Defined.

(** X10 on a path outside the root. *)
Lemma X10_absolute_resolution_is_contained_witness :
  relativeOrAbsolutePathToAbsolutePath "/w" (absPath demoRoot) "/etc/passwd"
  = Throw (Error "Path /etc/passwd is outside the root directory").
Proof.
  apply (X10_absolute_resolution_is_contained "/w" (absPath demoRoot)
           "/etc/passwd" eq_refl).
  reflexivity.
Defined.

(** X11 on a new file in a new directory. *)
Lemma X11_write_ensures_the_parent_directory_witness :
  writeFile (list string) "/w" (absPath demoRoot) demoEnsureDir demoWriteFile
    "notes/todo.txt" "ship it" []
  = (Return true, ["/home/user/project/notes/todo.txt"]).
Proof.
  destruct (X11_write_ensures_the_parent_directory (list string) "/w"
              demoRoot demoRoot_names demoEnsureDir demoWriteFile
              demoWriteFile ["notes"] "todo.txt" "ship it" [])
    as [H _].
  - repeat constructor.
  - reflexivity.
  - exact H.
Defined.

(** X12 for the root of the small project. *)
Lemma X12_walk_one_level_is_the_filtered_listing_witness :
  getDirectoryTree "/w" (absPath demoRoot) demoReaddir 1 (relPath [])
    (Some (fun p => Return (demoIgnores p))) false
  = (["src/"; "README.md"], Done).
Proof.
  destruct (X12_walk_one_level_is_the_filtered_listing "/w" demoRoot
              demoRoot_names demoReaddir [] 0 (Forall_nil _)) as [Hlisting _].
  rewrite (Hlisting demoIgnores (map entryOf demoTree) eq_refl);
    [reflexivity | repeat constructor].
Defined.

(** X13 for the root of the small project: every directory that is reached
    can be listed, so the source file is yielded. *)
Lemma X13_walk_yields_exactly_the_unignored_entries_witness :
  In "src/a.ts"
     (fst (getDirectoryTree "/w" (absPath demoRoot) demoReaddir 3
             (relPath []) (Some demoIgnore) true)).
Proof.
  destruct (X13_walk_yields_exactly_the_unignored_entries "/w" demoRoot
              demoRoot_names demoReaddir demoIgnore demoTree [] 3
              demoIgnore_total (Forall_nil _) eq_refl demoReaddir_listed)
    as (_ & _ & Hall & _).
  - simpl. lia.
  - apply (Hall eq_refl).
    exists ["src"; "a.ts"], (FileEnt "a.ts"). split; [ | split].
    + apply (reaches_below demoTree "src" [FileEnt "a.ts"; FileEnt "b.log"]).
      * right. now left.
      * apply (reaches_here _ (FileEnt "a.ts")). now left.
    + intros [|[|[|k]]] Hk; simpl in Hk; try lia; reflexivity.
    + reflexivity.
Defined.

(** X14 for the directory [src] of the small project. *)
Lemma X14_walk_contains_the_walk_of_a_subdirectory_witness :
  exists p s q,
    ["src/"; "src/a.ts"; "README.md"] = app p ("src/" :: app s q)
    /\ getDirectoryTree "/w" (absPath demoRoot) demoReaddir 2 "src"
         (Some demoIgnore) true = (s, Done).
Proof.
  destruct (X14_walk_contains_the_walk_of_a_subdirectory "/w" demoRoot
              demoRoot_names demoReaddir demoIgnore
              [mkDirent "node_modules" true] [mkDirent "README.md" false]
              [] "src" 2 (Forall_nil _) eq_refl eq_refl eq_refl)
    as (_ & _ & _ & Hblock & _ & _).
  exact (Hblock _ eq_refl).
Defined.

(** X15 for a search of the small project. *)
Lemma X15_grep_reports_exactly_the_reachable_matches_witness :
  exists r,
    In r [mkGrepResult "src/a.ts" 1 "alpha" None;
          mkGrepResult "src/a.ts" 2 "beta alpha" None]
    /\ file r = "src/a.ts" /\ line r = 2%Z /\ matchText r = "beta alpha".
Proof.
  destruct (X15_grep_reports_exactly_the_reachable_matches "/w" demoRoot
              demoRoot_names demoReaddir demoGetFile demoIgnore demoTree
              "alpha" None 3)
    as (_ & _ & _ & Hresults).
  - discriminate.
  - exact demoIgnore_total.
  - reflexivity.
  - exact demoReaddir_listed.
  - simpl. lia.
  - apply (Hresults _ eq_refl "src/a.ts" "beta alpha" 1%nat).
    exists ["src"; "a.ts"], (FileEnt "a.ts"), demoText.
    split; [ | split; [ | repeat split]].
    + apply (reaches_below demoTree "src" [FileEnt "a.ts"; FileEnt "b.log"]).
      * right. now left.
      * apply (reaches_here _ (FileEnt "a.ts")). now left.
    + intros [|[|[|k]]] Hk; simpl in Hk; try lia; reflexivity.
    + simpl. lia.
Defined.

(** X16 for a search of the small project without a predicate. *)
Lemma X16_grep_needs_a_search_string_and_a_predicate_witness :
  grep "/w" (absPath demoRoot) demoReaddir demoGetFile 1 "alpha"
    {| ignoreFilter := None; includeContent := None |}
  = Some (Throw (Error "ignoreFilter is not a function")).
Proof.
  destruct (X16_grep_needs_a_search_string_and_a_predicate "/w" demoRoot
              demoRoot_names demoReaddir demoGetFile "alpha" None 0)
    as (_ & Hnone & _).
  eapply Hnone; [discriminate | reflexivity].
Defined.

(** X18 for the command ["false"]. *)
Lemma X18_executeCommand_default_directory_is_the_root_witness :
  executeCommand (list string) "/w" (absPath demoRoot) [] demoExeca
    (CmdString "false")
    {| timeoutSeconds := None; env := None; workingDirectory := None |} []
  = executeCommand (list string) "/w" (absPath demoRoot) [] demoExeca
      (CmdString "false")
      {| timeoutSeconds := None; env := None;
         workingDirectory := Some (absPath demoRoot) |} [].
Proof.
  apply (X18_executeCommand_default_directory_is_the_root (list string) "/w"
           [] demoExeca demoRoot demoRoot_names (CmdString "false") None None
           []).
Defined.

(** X19 on a file outside the root that exists. *)
Lemma X19_legacy_resolver_on_absolute_paths_witness :
  Legacy.relativeOrAbsolutePathToAbsolutePath
    (fun path => path =? "/etc/passwd") "/w" "/home/user/project"
    "/etc/passwd"
  = (Return (Path.resolve "/w" ["/etc/passwd"]),
     [Path.resolve "/w" ["/etc/passwd"]]).
Proof.
  apply (X19_legacy_resolver_on_absolute_paths
           (fun path => path =? "/etc/passwd") "/w" "/home/user/project"
           "/etc/passwd" eq_refl).
  reflexivity.
Defined.
